(** * overseer: a shallow embedding of the run engine

    The Python sources modelled here are [context.py], [routing.py],
    [tools/files.py], [tools/security.py], [tools/tests.py], [engine.py]
    and the seed data of [app.py].

    - A Python [dict] is an association list in insertion order: the
      order of [in_degree] fixes the order of [ready], and the order of
      [join_groups] the order in which joins are appended.
    - Text is a sequence of code points below 256; [str] and [repr] of
      the values that reach an event payload are written out.
    - An exception is a constructor of [result]; the stores of the
      engine, the sample repository on disk and what the engine writes
      under [./data] form one [world] that engine code threads.
    - The wall clock, the verdict of the external pytest process and the
      place of the checkout are parameters, gathered in [env].
    - The disk has no symbolic links, its file system tells upper case
      from lower case, files hold text, every text can be encoded for
      writing, and the names the program is given are within the limits
      of the file system.  Appending to a journal file does not fail;
      the statements about journal files are for run ids that are one
      plain path component ([plain_id]), and the statement about reading
      back what was written is for paths [within_limits].  The pytest
      process is taken to leave the repository as it is.
    - One run is followed at a time: what other tasks of the event loop
      do between two node invocations is not modelled.
    - [while ready] is a loop with a bound on the number of passes; the
      file shows that for every graph some bound lets it end. *)

From Stdlib Require Import String Ascii List ZArith Lia Bool Arith PeanoNat.
From Stdlib Require Import DecimalString.
Import ListNotations.

Set Implicit Arguments.
Set Warnings "-register-all".

Open Scope string_scope.
Open Scope list_scope.

Notation "a +s+ b" := (String.append a b) (at level 60, right associativity).

(* ================================================================== *)
(** ** Python values *)
(* ================================================================== *)

Module Py.

(** Insertion-ordered dictionaries with string keys. *)
Definition dict (A : Type) := list (string * A).

Section Dict.
Variable A : Type.

Fixpoint get (k : string) (d : dict A) : option A :=
    match d with
    | [] => None
    | (k', v) :: d' => if String.eqb k k' then Some v else get k d'
    end.

Definition mem (k : string) (d : dict A) : bool :=
    match get k d with Some _ => true | None => false end.

  (** [d[k] = v]: an existing key keeps its position, a new key goes last. *)
Fixpoint set (k : string) (v : A) (d : dict A) : dict A :=
    match d with
    | [] => [(k, v)]
    | (k', v') :: d' =>
        if String.eqb k k' then (k, v) :: d' else (k', v') :: set k v d'
    end.

Definition get_default (k : string) (dflt : A) (d : dict A) : A :=
    match get k d with Some v => v | None => dflt end.

Definition keys (d : dict A) : list string := map fst d.
End Dict.

(** The values that flow through event payloads.  A float is carried as
    its printed form: the program holds two float constants and never
    computes with them. *)
Inductive pyval : Type :=
| PyNone
| PyBool (b : bool)
| PyInt (z : Z)
| PyFloat (lit : string)
| PyStr (s : string)
| PyList (l : list pyval)
| PyDict (d : list (string * pyval)).

Definition squote : ascii := ascii_of_nat 39.
Definition dquote : ascii := ascii_of_nat 34.
Definition bslash : ascii := ascii_of_nat 92.

Definition str1 (c : ascii) : string := String c EmptyString.

Fixpoint has_char (c : ascii) (s : string) : bool :=
  match s with
  | EmptyString => false
  | String c' s' => Ascii.eqb c c' || has_char c s'
  end.

Definition hex_digit (n : nat) : ascii :=
  nth n (list_ascii_of_string "0123456789abcdef") "0"%char.

(** Code points below 256 that [repr] leaves as they are. *)
Definition printable (c : ascii) : bool :=
  let n := nat_of_ascii c in
  ((32 <=? n)%nat && (n <=? 126)%nat) || ((161 <=? n)%nat && negb (n =? 173)%nat).

Definition escape_char (quote c : ascii) : string :=
  let n := nat_of_ascii c in
  if Ascii.eqb c quote || Ascii.eqb c bslash then String bslash (str1 c)
  else if (n =? 9)%nat then String bslash "t"
  else if (n =? 10)%nat then String bslash "n"
  else if (n =? 13)%nat then String bslash "r"
  else if printable c then str1 c
  else String bslash (String "x" (String (hex_digit (n / 16)) (str1 (hex_digit (n mod 16))))).

Fixpoint escape (quote : ascii) (s : string) : string :=
  match s with
  | EmptyString => EmptyString
  | String c s' => escape_char quote c +s+ escape quote s'
  end.

(** [repr] of a [str]: single quotes unless the text has a single quote
    and no double quote. *)
Definition str_repr (s : string) : string :=
  let quote := if has_char squote s && negb (has_char dquote s) then dquote else squote in
  String quote (escape quote s +s+ str1 quote).

Definition string_of_Z (z : Z) : string := NilZero.string_of_int (Z.to_int z).

Fixpoint py_repr (v : pyval) : string :=
  match v with
  | PyNone => "None"
  | PyBool true => "True"
  | PyBool false => "False"
  | PyInt z => string_of_Z z
  | PyFloat lit => lit
  | PyStr s => str_repr s
  | PyList l => "[" +s+ String.concat ", " (map py_repr l) +s+ "]"
  | PyDict d =>
      "{" +s+ String.concat ", "
                (map (fun kv => let '(k, x) := kv in str_repr k +s+ ": " +s+ py_repr x) d)
          +s+ "}"
  end.

(** [str(v)]: a [str] is itself, everything else prints as its [repr]. *)
Definition py_str (v : pyval) : string :=
  match v with
  | PyStr s => s
  | _ => py_repr v
  end.

(** [len(str(v))] *)
Definition len (s : string) : Z := Z.of_nat (String.length s).

(** Truth value of [v] in a condition. *)
Definition truthy (v : pyval) : bool :=
  match v with
  | PyNone => false
  | PyBool b => b
  | PyInt z => negb (z =? 0)%Z
  | PyFloat lit => negb (String.eqb lit "0.0" || String.eqb lit "-0.0")
  | PyStr s => negb (String.eqb s "")
  | PyList l => match l with [] => false | _ => true end
  | PyDict d => match d with [] => false | _ => true end
  end.

(** [sub in s] *)
Fixpoint contains (sub s : string) : bool :=
  String.prefix sub s ||
  match s with
  | EmptyString => false
  | String _ s' => contains sub s'
  end.

(** [s.replace(old, new)] for a non-empty [old]: leftmost occurrences,
    not overlapping.  [skip] counts the characters of a match still to
    be passed over. *)
Fixpoint replace_from (skip : nat) (old new s : string) : string :=
  match s with
  | EmptyString => EmptyString
  | String c s' =>
      match skip with
      | S k => replace_from k old new s'
      | O =>
          if String.prefix old s
          then new +s+ replace_from (String.length old - 1) old new s'
          else String c (replace_from 0 old new s')
      end
  end.

Definition replace (old new s : string) : string := replace_from 0 old new s.

(** [l[-n:] if len(l) > n else l] *)
Definition last_n (A : Type) (n : nat) (l : list A) : list A :=
  if (n <? List.length l)%nat then skipn (List.length l - n) l else l.

End Py.

Import Py.

(* ================================================================== *)
(** ** Exceptions and results *)
(* ================================================================== *)

(** [OSError] is the error of opening a directory as a file
    ([Errno 21], raised as [IsADirectoryError]); the two errors of
    creating a directory carry the path of that directory. *)
Inductive exn : Type :=
| ValueError (msg : string)
| KeyError (key : string)
| OSError (path : string)
| FileExistsError (path : string)
| NotADirectoryError (path : string)
| UnboundLocalError (name : string).

(** What a call comes back with: a value, a raised exception, or
    [Diverge] when the iteration bound of the model's scheduler loop is
    reached (no Python behaviour corresponds to it). *)
Inductive result (A : Type) : Type :=
| Ok (a : A)
| Raise (e : exn)
| Diverge.

Arguments Raise {A} e.
Arguments Diverge {A}.

(* ================================================================== *)
(** ** tools/files.py *)
(* ================================================================== *)

Module Files.

(** The disk, keyed by the text of an absolute resolved path.  There are
    no symbolic links, so [resolve()] is the lexical normalisation. *)
Inductive entry : Type :=
| File (content : string)
| Dir.

Definition filesystem := dict entry.

Fixpoint components_from (cur s : string) : list string :=
  match s with
  | EmptyString => [cur]
  | String c s' =>
      if Ascii.eqb c "/" then cur :: components_from "" s'
      else components_from (cur +s+ str1 c) s'
  end.

(** The parts of a [Path]: empty and [.] components are dropped when a
    path is built, [..] is kept until [resolve()]. *)
Definition parts (s : string) : list string :=
  filter (fun c => negb (String.eqb c "") && negb (String.eqb c "."))
         (components_from "" s).

Definition is_absolute (s : string) : bool := String.prefix "/" s.

(** [base / path]: an absolute right operand replaces the left one. *)
Definition joinpath (base : list string) (path : string) : list string :=
  if is_absolute path then parts path else base ++ parts path.

(** [resolve()] on a path without symbolic links: [..] removes the
    component before it and is dropped at the root. *)
Definition resolve (ps : list string) : list string :=
  fold_left (fun stack c => if String.eqb c ".." then removelast stack else stack ++ [c])
            ps [].

(** [str(path)] of an absolute path. *)
Definition path_str (ps : list string) : string := "/" +s+ String.concat "/" ps.

Definition nul : ascii := ascii_of_nat 0.
Definition lf : ascii := ascii_of_nat 10.
Definition cr : ascii := ascii_of_nat 13.

(** What reading in text mode makes of the stored text: [\r\n] and a
    lone [\r] are read as [\n]. *)
Fixpoint universal_newlines (s : string) : string :=
  match s with
  | EmptyString => EmptyString
  | String c s' =>
      if Ascii.eqb c cr then
        match s' with
        | String c' s'' =>
            if Ascii.eqb c' lf then String lf (universal_newlines s'')
            else String lf (universal_newlines s')
        | EmptyString => String lf EmptyString
        end
      else String c (universal_newlines s')
  end.

Section WithRoot.
  (** [SAFE_ROOT], as the parts of an absolute resolved directory. *)
Variable SAFE_ROOT : list string.

Definition full_path (path : string) : list string :=
    resolve (joinpath SAFE_ROOT path).

Definition inside (path : string) : bool :=
    String.prefix (path_str SAFE_ROOT) (path_str (full_path path)).

  (** [resolve()] raises on a path that holds a NUL character, before
      the guard is reached; a file is opened in text mode, so what [read]
      returns is its content with the line ends translated. *)
Definition read (fs : filesystem) (path : string) : result (dict pyval) :=
    if has_char nul path then Raise (ValueError "embedded null byte")
    else if negb (inside path) then
      Raise (ValueError ("path " +s+ path +s+ " escapes safe root"))
    else
      match get (path_str (full_path path)) fs with
      | None => Ok [("error", PyStr ("file not found: " +s+ path))]
      | Some Dir => Raise (OSError (path_str (full_path path)))
      | Some (File content) =>
          Ok [("content", PyStr (universal_newlines content)); ("path", PyStr path)]
      end.

  (** The proper ancestors of a path, outermost first. *)
Fixpoint ancestors (pre ps : list string) : list (list string) :=
    match ps with
    | [] => []
    | [c] => []
    | c :: ps' => (pre ++ [c]) :: ancestors (pre ++ [c]) ps'
    end.

Definition is_file (fs : filesystem) (ps : list string) : bool :=
    match get (path_str ps) fs with Some (File _) => true | _ => false end.

  (** [full_path.parent.mkdir(parents=True, exist_ok=True)].  When a
      file stands where a directory is needed, the first [os.mkdir] of
      the parent fails: with [Errno 17] when the parent itself is that
      file, with [Errno 20] when the file is further up; either error
      names the parent. *)
Definition mkdir_parents (fs : filesystem) (ps : list string) : filesystem * result unit :=
    match find (is_file fs) (ancestors [] ps) with
    | Some a =>
        let parent := path_str (removelast ps) in
        (fs, Raise (if String.eqb (path_str a) parent
                    then FileExistsError parent else NotADirectoryError parent))
    | None => (fold_left (fun fs' a => set (path_str a) Dir fs') (ancestors [] ps) fs, Ok tt)
    end.

  (** [open(full_path, "w")] and [f.write(content)]: a text that the
      file system takes is written whole; on Linux text mode writes
      [\n] as it is. *)
Definition write (fs : filesystem) (path content : string)
    : filesystem * result (dict pyval) :=
    if has_char nul path then (fs, Raise (ValueError "embedded null byte"))
    else if negb (inside path) then
      (fs, Raise (ValueError ("path " +s+ path +s+ " escapes safe root")))
    else
      match mkdir_parents fs (full_path path) with
      | (fs1, Ok _) =>
          match get (path_str (full_path path)) fs1 with
          | Some Dir => (fs1, Raise (OSError (path_str (full_path path))))
          | _ =>
              (set (path_str (full_path path)) (File content) fs1,
               Ok [("ok", PyBool true); ("path", PyStr path);
                   ("bytes", PyInt (len content))])
          end
      | (fs1, Raise e) => (fs1, Raise e)
      | (fs1, Diverge) => (fs1, Diverge)
      end.
End WithRoot.

End Files.

(* ================================================================== *)
(** ** tools/security.py, tools/tests.py *)
(* ================================================================== *)

Module Security.

Fixpoint scan_text (text : string) (block_patterns : list string) : dict pyval :=
  match block_patterns with
  | [] => [("ok", PyBool true)]
  | pattern :: rest =>
      if contains pattern text
      then [("error", PyStr ("blocked pattern found: " +s+ pattern))]
      else scan_text text rest
  end.

Definition scan_repo : dict pyval := [("ok", PyBool true); ("issues", PyList [])].

End Security.

(** What lies outside the program: where the repository is checked out,
    the wall clock (the reading of the n-th call of [utcnow().isoformat()]),
    and the verdict and output of the external pytest process on a given
    state of the sample repository. *)
Record env : Type := {
  repo_root : list string;
  utcnow : nat -> string;
  pytest : Files.filesystem -> bool * string
}.

Definition SAFE_ROOT (E : env) : list string :=
  repo_root E ++ ["examples"; "sample_repo"].

Module Tests.

(** [s[-n:]] *)
Definition tail_chars (n : nat) (s : string) : string :=
  substring (String.length s - n) n s.

(** What [run] returns when the pytest process has run: its verdict and
    the tail of its output.  The files the process leaves in the
    repository are not followed. *)
Definition run (E : env) (fs : Files.filesystem) : dict pyval :=
  let '(passed, output) := pytest E fs in
  let output := if (2000 <? String.length output)%nat
                then "..." +s+ tail_chars 2000 output else output in
  [("passed", PyBool passed); ("output", PyStr output)].

End Tests.

(* ================================================================== *)
(** ** routing.py *)
(* ================================================================== *)

Module Routing.

Definition choose_model (tokens_needed : Z) (step : string) : dict pyval :=
  let '(model, cost) :=
    if (tokens_needed >? 60000)%Z
       || existsb (String.eqb step) ["aggregator"; "react"]
    then ("gpt-4.1", "0.015") else ("small-fast", "0.0005") in
  [("model", PyStr model); ("tokens", PyInt tokens_needed);
   ("cost_usd", PyFloat cost); ("step", PyStr step)].

End Routing.

(* ================================================================== *)
(** ** models.py: the records the engine handles *)
(* ================================================================== *)

Record ContextProfile : Type := {
  cp_name : string;
  budget_tokens : Z
}.

Record Edge : Type := {
  from_node : string;
  to_node : string;
  on : list string;
  parallel : bool;
  join : option string
}.

Record Graph : Type := {
  g_name : string;
  agents : list string;
  dag : list Edge;
  policy_name : option string
}.

Record Run : Type := {
  id : string;
  graph : string;
  inputs : pyval;
  status : string;
  created_at : string;
  parent_run : option string
}.

Record Event : Type := {
  run_id : string;
  step : string;
  type : string;
  ts : string;
  data : dict pyval
}.

(* ================================================================== *)
(** ** context.py *)
(* ================================================================== *)

Module Context.

Local Open Scope Z_scope.

Record manifest : Type := {
  sections : dict Z;
  total_tokens : Z;
  drops : list string
}.

Record context : Type := {
  bundle : dict pyval;
  ctx_manifest : manifest
}.

Definition token_estimate (name : string) (m : manifest) : Z :=
  get_default name 0 (sections m).

Definition section (name : string) (c : context) : pyval :=
  get_default name PyNone (bundle c).

Definition policy_docs : pyval :=
  PyDict [("note", PyStr "policy enforcement active");
          ("patterns_blocked", PyList [PyStr "eval("])].

(** The last five events, each projected to step, type and data. *)
Definition scratchpad (events : list Event) : pyval :=
  PyList (map (fun e => PyDict [("step", PyStr (step e)); ("type", PyStr (type e));
                                ("data", PyDict (data e))])
              (last_n 5 events)).

(** One [try: files.read(path) ... except: pass] block. *)
Definition add_snippet (root : list string) (fs : Files.filesystem)
           (path : string) (snippets : dict pyval) : dict pyval :=
  match Files.read root fs path with
  | Ok r => match get "content" r with
            | Some c => set path c snippets
            | None => snippets
            end
  | _ => snippets
  end.

Definition repo_snippets (root : list string) (fs : Files.filesystem) : pyval :=
  PyDict (add_snippet root fs "tests/test_app.py" (add_snippet root fs "app.py" [])).

(** [len(str(v)) // 4] *)
Definition estimate (v : pyval) : Z := len (py_str v) / 4.

Definition budget_of (profile_name : string) (profiles : dict ContextProfile) : Z :=
  match get profile_name profiles with
  | Some p => budget_tokens p
  | None => 120000
  end.

Definition compile_context (root : list string) (fs : Files.filesystem)
           (run : Run) (step profile_name : string) (events : list Event)
           (context_profiles : dict ContextProfile) : context :=
  let budget := budget_of profile_name context_profiles in
  let sp := scratchpad events in
  let rs := repo_snippets root fs in
  let sp_est := estimate sp in
  let rs_est := estimate rs in
  let pd_est := estimate policy_docs in
  let total := sp_est + rs_est + pd_est in
  let '(rs_content, rs_est', total', drops') :=
    if total >? budget then
      let trim_amount := total - budget in
      if rs_est >? trim_amount then
        let est := rs_est - trim_amount in
        let max_chars := est * 4 in
        let repo_str := py_str rs in
        if len repo_str >? max_chars then
          (PyStr (substring 0 (Z.to_nat max_chars) repo_str), est, budget,
           ["repo_snippets trimmed by " +s+ string_of_Z (len repo_str - max_chars)
              +s+ " chars"])
        else (rs, est, budget, [])
      else (PyDict [], 0, sp_est + pd_est, ["repo_snippets dropped entirely"])
    else (rs, rs_est, total, []) in
  {| bundle := [("scratchpad", sp); ("repo_snippets", rs_content);
                ("policy_docs", policy_docs)];
     ctx_manifest :=
       {| sections := [("scratchpad", sp_est); ("repo_snippets", rs_est');
                       ("policy_docs", pd_est)];
          total_tokens := total';
          drops := drops' |} |}.

(** The manifest as it is stored in an event payload. *)
Definition manifest_value (m : manifest) : pyval :=
  PyDict [("sections",
           PyDict (map (fun kv => (fst kv, PyDict [("token_estimate", PyInt (snd kv))]))
                       (sections m)));
          ("total_tokens", PyInt (total_tokens m));
          ("drops", PyList (map PyStr (drops m)))].

End Context.

(* ================================================================== *)
(** ** engine.py *)
(* ================================================================== *)

Module Engine.

(** The stores handed over by [init_stores], the sample repository, and
    what the engine leaves under [./data]: per run the lines of
    [events.jsonl] (a line is written here as the event it encodes) and
    the artifacts.  [clock] counts the readings of the wall clock. *)
Record world : Type := {
  runs : dict Run;
  graphs : dict Graph;
  events : dict (list Event);
  context_profiles : dict ContextProfile;
  repo : Files.filesystem;
  journal_files : dict (list Event);
  artifacts : dict string;
  clock : nat
}.

Definition with_runs (x : dict Run) (w : world) : world :=
  {| runs := x; graphs := graphs w; events := events w;
     context_profiles := context_profiles w; repo := repo w;
     journal_files := journal_files w; artifacts := artifacts w; clock := clock w |}.

Definition with_events (x : dict (list Event)) (w : world) : world :=
  {| runs := runs w; graphs := graphs w; events := x;
     context_profiles := context_profiles w; repo := repo w;
     journal_files := journal_files w; artifacts := artifacts w; clock := clock w |}.

Definition with_repo (x : Files.filesystem) (w : world) : world :=
  {| runs := runs w; graphs := graphs w; events := events w;
     context_profiles := context_profiles w; repo := x;
     journal_files := journal_files w; artifacts := artifacts w; clock := clock w |}.

Definition with_journal_files (x : dict (list Event)) (w : world) : world :=
  {| runs := runs w; graphs := graphs w; events := events w;
     context_profiles := context_profiles w; repo := repo w;
     journal_files := x; artifacts := artifacts w; clock := clock w |}.

Definition with_artifacts (x : dict string) (w : world) : world :=
  {| runs := runs w; graphs := graphs w; events := events w;
     context_profiles := context_profiles w; repo := repo w;
     journal_files := journal_files w; artifacts := x; clock := clock w |}.

Definition with_clock (x : nat) (w : world) : world :=
  {| runs := runs w; graphs := graphs w; events := events w;
     context_profiles := context_profiles w; repo := repo w;
     journal_files := journal_files w; artifacts := artifacts w; clock := x |}.

(** *** The monad of engine code: state and exceptions *)

Definition M (A : Type) : Type := world -> world * result A.

Definition ret {A} (a : A) : M A := fun w => (w, Ok a).

Definition bind {A B} (m : M A) (f : A -> M B) : M B :=
  fun w =>
    match m w with
    | (w', Ok a) => f a w'
    | (w', Raise e) => (w', Raise e)
    | (w', Diverge) => (w', Diverge)
    end.

Definition raise {A} (e : exn) : M A := fun w => (w, Raise e).
Definition diverge {A} : M A := fun w => (w, Diverge).
Definition get_world : M world := fun w => (w, Ok w).
Definition modify (f : world -> world) : M unit := fun w => (f w, Ok tt).

(** [try: body except Exception as e: handler e] *)
Definition try_except {A} (body : M A) (handler : exn -> M A) : M A :=
  fun w =>
    match body w with
    | (w', Raise e) => handler e w'
    | other => other
    end.

Notation "x <- m ;; k" := (bind m (fun x => k))
  (at level 61, m at next level, right associativity).
Notation "m ;;; k" := (bind m (fun _ => k))
  (at level 61, right associativity).

(** [_events.get(run_id, [])] *)
Definition events_of (run_id : string) (w : world) : list Event :=
  get_default run_id [] (events w).

(** [datetime.utcnow().isoformat()] *)
Definition now (E : env) : M string :=
  fun w => (with_clock (S (clock w)) w, Ok (utcnow E (clock w))).

(** [str(e)] of a caught exception. *)
Definition exn_str (e : exn) : string :=
  match e with
  | ValueError msg => msg
  | KeyError key => str_repr key
  | OSError path => "[Errno 21] Is a directory: " +s+ str_repr path
  | FileExistsError path => "[Errno 17] File exists: " +s+ str_repr path
  | NotADirectoryError path => "[Errno 20] Not a directory: " +s+ str_repr path
  | UnboundLocalError name =>
      "cannot access local variable " +s+ str_repr name
        +s+ " where it is not associated with a value"
  end.

Section WithEnv.
Variable E : env.

  (** The event goes to [_events[run_id]] first and then to
      [./data/<run_id>/events.jsonl]; the journal files are kept by run
      id, which names the file when the id is one plain path component,
      and the append is taken to succeed. *)
Definition emit_event (run_id step event_type : string) (data : dict pyval) : M Event :=
    t <- now E ;;
    let event := {| run_id := run_id; step := step; type := event_type;
                    ts := t; data := data |} in
    modify (fun w => with_events (set run_id (events_of run_id w ++ [event]) (events w)) w) ;;;
    modify (fun w => with_journal_files
                       (set run_id (get_default run_id [] (journal_files w) ++ [event])
                            (journal_files w)) w) ;;;
    ret event.

Definition save_artifact (run_id name content : string) : M unit :=
    modify (fun w => with_artifacts (set (run_id +s+ "/" +s+ name) content (artifacts w)) w).

Definition files_read (path : string) : M (dict pyval) :=
    fun w => (w, Files.read (SAFE_ROOT E) (repo w) path).

Definition files_write (path content : string) : M (dict pyval) :=
    fun w => let '(fs, r) := Files.write (SAFE_ROOT E) (repo w) path content in
             (with_repo fs w, r).

  (** [_runs[run_id]] *)
Definition lookup_run (run_id : string) : M Run :=
    fun w => match get run_id (runs w) with
             | Some r => (w, Ok r)
             | None => (w, Raise (KeyError run_id))
             end.

  (** [run["status"] = s] on the record held in the run store. *)
Definition set_status (run_id s : string) : M unit :=
    modify (fun w =>
      match get run_id (runs w) with
      | Some r =>
          with_runs
            (set run_id {| id := id r; graph := graph r; inputs := inputs r; status := s;
                           created_at := created_at r; parent_run := parent_run r |}
                 (runs w)) w
      | None => w
      end).

Definition nl : string := str1 (ascii_of_nat 10).
Definition quoted (s : string) : string := String dquote (s +s+ str1 dquote).

  (** The text of a value that is always a [str]. *)
Definition text (v : pyval) : string :=
    match v with PyStr s => s | _ => "" end.

Definition patch : dict pyval :=
    [("file", PyStr "app.py"); ("change", PyStr "return 41 -> return 42")].

  (** [json.dumps(patch, indent=2)] *)
Definition patch_json : string :=
    "{" +s+ nl +s+ "  " +s+ quoted "file" +s+ ": " +s+ quoted "app.py" +s+ "," +s+ nl
        +s+ "  " +s+ quoted "change" +s+ ": " +s+ quoted "return 41 -> return 42" +s+ nl
        +s+ "}".

  (** The aggregator's scan of the run's events for successful
      [py_fixer] patches. *)
Fixpoint collect_patches (run_events : list Event) : result (list pyval) :=
    match run_events with
    | [] => Ok []
    | e :: rest =>
        if String.eqb (step e) "py_fixer" && String.eqb (type e) "patch_created"
           && truthy (get_default "success" PyNone (data e))
        then match get "patch" (data e) with
             | None => Raise (KeyError "patch")
             | Some p => match collect_patches rest with
                         | Ok ps => Ok (p :: ps)
                         | other => other
                         end
             end
        else collect_patches rest
    end.

Definition lift {A} (r : result A) : M A := fun w => (w, r).

  (** The node-specific branch of [run_node]; it returns [result] after
      emitting the node's own event. *)
Definition handler (run_id node : string) : M (dict pyval) :=
    if String.eqb node "planner" then
      let result := [("target_files", PyList [PyStr "app.py"; PyStr "tests/test_app.py"]);
                     ("hint", PyStr "test expects 42, app returns 41")] in
      emit_event run_id node "plan_ready" result ;;; ret result
    else if String.eqb node "py_fixer" then
      app_file <- files_read "app.py" ;;
      result <- match get "content" app_file with
                | Some c =>
                    let fixed := replace "return 41" "return 42" (text c) in
                    files_write "app.py" fixed ;;;
                    save_artifact run_id "py_fixer_patch.json" patch_json ;;;
                    ret [("patch", PyDict patch); ("success", PyBool true)]
                | None => ret [("error", PyStr "app.py not found")]
                end ;;
      emit_event run_id node "patch_created" result ;;; ret result
    else if String.eqb node "fe_fixer" then
      let result := [("patch", PyNone); ("message", PyStr "no frontend changes needed")] in
      emit_event run_id node "patch_created" result ;;; ret result
    else if String.eqb node "test_writer" then
      test_file <- files_read "tests/test_app.py" ;;
      result <- match get "content" test_file with
                | Some c =>
                    let content := text c in
                    if negb (contains "assert answer == 42" content) then
                      let content := content +s+ nl +s+ nl +s+ "def test_answer_type():" +s+ nl
                                     +s+ "    from app import compute" +s+ nl
                                     +s+ "    assert isinstance(compute(), int)" +s+ nl in
                      files_write "tests/test_app.py" content ;;;
                      ret [("added", PyStr "test_answer_type"); ("success", PyBool true)]
                    else ret [("message", PyStr "tests already complete")]
                | None => ret [("error", PyStr "test file not found")]
                end ;;
      emit_event run_id node "test_updated" result ;;; ret result
    else if String.eqb node "aggregator" then
      w <- get_world ;;
      patches <- lift (collect_patches (events_of run_id w)) ;;
      let result := [("selected_patch", match patches with p :: _ => p | [] => PyNone end)] in
      emit_event run_id node "patch_selected" result ;;; ret result
    else if String.eqb node "tester" then
      w <- get_world ;;
      let test_result := Tests.run E (repo w) in
      let result := test_result in
      (if truthy (get_default "passed" PyNone test_result)
       then emit_event run_id node "tests_passed" result
       else emit_event run_id node "tests_failed" result) ;;;
      ret result
    else if String.eqb node "security" then
      let scan_result := Security.scan_repo in
      let result := scan_result in
      (if truthy (get_default "ok" PyNone scan_result)
       then emit_event run_id node "security_ok" result
       else emit_event run_id node "security_failed" result) ;;;
      ret result
    else if String.eqb node "release" then
      changelog <- files_read "CHANGELOG.md" ;;
      let content := text (get_default "content" (PyStr ("# Changelog" +s+ nl +s+ nl)) changelog) in
      t <- now E ;;
      let content := content +s+ nl +s+ "- " +s+ t +s+ ": auto-release from run "
                     +s+ run_id +s+ nl in
      files_write "CHANGELOG.md" content ;;;
      let result := [("released", PyBool true)] in
      emit_event run_id node "release_complete" result ;;; ret result
    else
      let result := [("error", PyStr ("unknown node: " +s+ node))] in
      emit_event run_id node "error" result ;;; ret result.

  (** [run_node(run_id, node, run_events)].  At every call site the third
      argument is the list object [_events[run_id]] itself, so what the
      body sees through it is the run's journal as it stands when it
      looks. *)
Definition run_node (run_id node : string) : M (dict pyval) :=
    run <- lookup_run run_id ;;
    w <- get_world ;;
    let ctx := Context.compile_context (SAFE_ROOT E) (repo w) run node "reviewer-default"
                 (events_of run_id w) (context_profiles w) in
    let tokens := Context.total_tokens (Context.ctx_manifest ctx) in
    let model_choice := Routing.choose_model tokens node in
    emit_event run_id node "context_compiled"
      [("manifest", Context.manifest_value (Context.ctx_manifest ctx));
       ("model", PyDict model_choice)] ;;;
    result <- handler run_id node ;;
    emit_event run_id node "node_done" [("result", PyDict result)] ;;;
    ret result.

  (** *** The scheduler *)

  (** [node in l] on a list or set of names. *)
Definition inb (n : string) (l : list string) : bool := existsb (String.eqb n) l.

  (** [completed.add(n)]; the set is kept in order of first insertion. *)
Definition add (n : string) (l : list string) : list string :=
    if inb n l then l else l ++ [n].

  (** [ready.remove(n)]: the first occurrence goes. *)
Fixpoint remove_first (n : string) (l : list string) : list string :=
    match l with
    | [] => []
    | x :: l' => if String.eqb n x then l' else x :: remove_first n l'
    end.

  (** [adj], [in_degree] and [join_groups] as the loop over [graph["dag"]]
      leaves them. *)
Record tables : Type := {
    adj : dict (list Edge);
    in_degree : dict nat;
    join_groups : dict (list string)
  }.

Definition has_join (edge : Edge) : bool :=
    match join edge with
    | Some j => negb (String.eqb j "")
    | None => false
    end.

Definition add_edge (t : tables) (edge : Edge) : tables :=
    let f := from_node edge in
    let c := to_node edge in
    let deg := set c (get_default c 0 (in_degree t) + 1) (in_degree t) in
    {| adj := set f (get_default f [] (adj t) ++ [edge]) (adj t);
       in_degree := if mem f deg then deg else set f 0 deg;
       join_groups := if has_join edge
                      then set c (get_default c [] (join_groups t) ++ [f]) (join_groups t)
                      else join_groups t |}.

Definition build (dag : list Edge) : tables :=
    fold_left add_edge dag {| adj := []; in_degree := []; join_groups := [] |}.

Definition start_nodes (t : tables) : list string :=
    map fst (filter (fun kv => (snd kv =? 0)%nat) (in_degree t)).

Record sched : Type := {
    ready : list string;
    completed : list string;
    completed_nodes : dict (dict pyval)
  }.

Definition with_ready (r : list string) (st : sched) : sched :=
    {| ready := r; completed := completed st; completed_nodes := completed_nodes st |}.

  (** [completed.add(node); completed_nodes[node] = result] *)
Definition complete (node : string) (result : dict pyval) (st : sched) : sched :=
    {| ready := ready st; completed := add node (completed st);
       completed_nodes := set node result (completed_nodes st) |}.

  (** [edges and edges[0].get("parallel")] *)
Definition is_fanout (edges : list Edge) : bool :=
    match edges with
    | [] => false
    | e :: _ => parallel e
    end.

  (** [any(e.step == node and e.type in edge.on for e in events)] *)
Definition matches (evs : list Event) (node : string) (edge : Edge) : bool :=
    existsb (fun e => String.eqb (step e) node && inb (type e) (on edge)) evs.

  (** [all(s in completed for s in sources)] *)
Definition all_in (sources completed : list string) : bool :=
    forallb (fun s => inb s completed) sources.

Section WithRun.
Variable run_id : string.
Variable t : tables.

    (** [if node not in completed: result = await run_node(...); ...] *)
Definition run_once (node : string) (st : sched) : M sched :=
      if inb node (completed st) then ret st
      else result <- run_node run_id node ;; ret (complete node result st).

    (** The [for node in ready] scan: fan-out nodes are run and their
        children collected, up to the first node that is not a fan-out. *)
Fixpoint scan (nodes : list string) (st : sched) (parallel_nodes : list string)
      : M (sched * list string * option string) :=
      match nodes with
      | [] => ret (st, parallel_nodes, None)
      | node :: rest =>
          let edges := get_default node [] (adj t) in
          if is_fanout edges then
            st' <- run_once node st ;;
            scan rest st' (parallel_nodes ++ map to_node edges)
          else ret (st, parallel_nodes, Some node)
      end.

    (** [await asyncio.gather] over [parallel_tasks]: [run_node] never yields,
        so the tasks run one after the other in the order given; a task
        that raises does not stop the ones queued behind it, and the
        first exception is what the awaiting scheduler gets. *)
Fixpoint gather (children : list string) : M (list (dict pyval)) :=
      match children with
      | [] => ret []
      | child :: rest =>
          fun w =>
            let '(w1, r) := run_node run_id child w in
            let '(w2, rs) := gather rest w1 in
            (w2, match r, rs with
                 | Ok x, Ok xs => Ok (x :: xs)
                 | Ok _, Raise e => Raise e
                 | Ok _, Diverge => Diverge
                 | Raise e, _ => Raise e
                 | Diverge, _ => Diverge
                 end)
      end.

    (** The join check that follows a parallel batch. *)
Definition append_joins (completed : list string) (rdy : list string) : list string :=
      fold_left (fun rdy' js =>
                   let '(join_node, sources) := js in
                   if all_in sources completed && negb (inb join_node completed)
                   then rdy' ++ [join_node] else rdy')
                (join_groups t) rdy.

    (** One outgoing edge of the sequential node. *)
Definition process_edge (evs : list Event) (sequential_node : string)
               (completed : list string) (rdy : list string) (edge : Edge) : list string :=
      let child := to_node edge in
      if match on edge with [] => false | _ => negb (matches evs sequential_node edge) end
      then rdy
      else
        match get child (join_groups t) with
        | Some sources =>
            if all_in sources completed && negb (inb child rdy) && negb (inb child completed)
            then rdy ++ [child] else rdy
        | None =>
            if negb (inb child rdy) && negb (inb child completed)
            then rdy ++ [child] else rdy
        end.

    (** One pass of the body of [while ready]; [false] is [break]. *)
Definition iteration (st : sched) : M (sched * bool) :=
      r <- scan (ready st) st [] ;;
      let '(st1, parallel_nodes, sequential_node) := r in
      match parallel_nodes with
      | _ :: _ =>
          results <- gather parallel_nodes ;;
          let st2 := fold_left (fun s nr => complete (fst nr) (snd nr) s)
                               (combine parallel_nodes results) st1 in
          let rdy := filter (fun n => negb (inb n parallel_nodes)
                                      && negb (inb n (completed st2))) (ready st2) in
          ret (with_ready (append_joins (completed st2) rdy) st2, true)
      | [] =>
          match sequential_node with
          | Some node =>
              if String.eqb node "" then ret (st1, false)
              else
                st2 <- run_once node st1 ;;
                w <- get_world ;;
                let rdy := remove_first node (ready st2) in
                ret (with_ready
                       (fold_left (process_edge (events_of run_id w) node (completed st2))
                                  (get_default node [] (adj t)) rdy)
                       st2, true)
          | None => ret (st1, false)
          end
      end.

    (** [while ready: ...], at most [fuel] passes. *)
Fixpoint loop (fuel : nat) (st : sched) : M sched :=
      match ready st with
      | [] => ret st
      | _ :: _ =>
          match fuel with
          | O => diverge
          | S fuel' =>
              r <- iteration st ;;
              if snd r then loop fuel' (fst r) else ret (fst r)
          end
      end.
End WithRun.

(** [_graphs[name]] *)
Definition lookup_graph (name : string) : M Graph :=
  fun w => match get name (graphs w) with
           | Some g => (w, Ok g)
           | None => (w, Raise (KeyError name))
           end.

(** The body of the [try] of [execute_graph], once [run] is bound. *)
Definition run_graph (fuel : nat) (run_id : string) (run : Run) : M unit :=
  g <- lookup_graph (graph run) ;;
  set_status run_id "running" ;;;
  emit_event run_id "system" "run_started" [("graph", PyStr (g_name g))] ;;;
  let t := build (dag g) in
  st <- loop run_id t fuel
          {| ready := start_nodes t; completed := []; completed_nodes := [] |} ;;
  set_status run_id "succeeded" ;;;
  emit_event run_id "system" "run_completed"
    [("completed_nodes", PyList (map PyStr (completed st)))] ;;;
  ret tt.

(** [except Exception as e: ...; raise] *)
Definition on_failure (run_id : string) (e : exn) : M unit :=
  set_status run_id "failed" ;;;
  emit_event run_id "system" "run_failed" [("error", PyStr (exn_str e))] ;;;
  raise e.

Definition execute_graph (fuel : nat) (run_id : string) : M unit :=
  fun w0 =>
    match get run_id (runs w0) with
    | None =>
        (* [run = _runs[run_id]] fails inside the [try], and the handler
           then fails on the unbound [run] *)
        (w0, Raise (UnboundLocalError "run"))
    | Some run => try_except (run_graph fuel run_id run) (on_failure run_id) w0
    end.

(** The events before the first one whose step is [from_step]. *)
Fixpoint prefix_until (from_step : string) (original_events : list Event) : list Event :=
    match original_events with
    | [] => []
    | event :: rest =>
        if String.eqb (step event) from_step then []
        else event :: prefix_until from_step rest
    end.

Definition replay_id (run_id from_step : string) : string :=
    run_id +s+ "-replay-" +s+ from_step.

Definition replay_from (fuel : nat) (run_id from_step : string) : M string :=
    original_run <- lookup_run run_id ;;
    let new_run_id := replay_id run_id from_step in
    t <- now E ;;
    let new_run := {| id := new_run_id; graph := graph original_run;
                      inputs := inputs original_run; status := "pending";
                      created_at := t; parent_run := Some run_id |} in
    modify (fun w => with_runs (set new_run_id new_run (runs w)) w) ;;;
    modify (fun w => with_events
                       (set new_run_id (prefix_until from_step (events_of run_id w)) (events w))
                       w) ;;;
    execute_graph fuel new_run_id ;;;
    ret new_run_id.

End WithEnv.

End Engine.

(* ================================================================== *)
(** ** app.py: what [startup] seeds *)
(* ================================================================== *)

Module App.

Definition mk_edge (f c : string) (o : list string) (p : bool) (j : option string) : Edge :=
  {| from_node := f; to_node := c; on := o; parallel := p; join := j |}.

Definition default_graph : Graph :=
  {| g_name := "git-to-prod-multi";
     agents := ["planner"; "py_fixer"; "fe_fixer"; "test_writer"; "aggregator";
                "tester"; "security"; "release"];
     dag := [ mk_edge "planner" "py_fixer" [] true None;
              mk_edge "planner" "fe_fixer" [] true None;
              mk_edge "planner" "test_writer" [] true None;
              mk_edge "py_fixer" "aggregator" [] false (Some "all");
              mk_edge "fe_fixer" "aggregator" [] false (Some "all");
              mk_edge "test_writer" "aggregator" [] false (Some "all");
              mk_edge "aggregator" "tester" ["patch_selected"] false None;
              mk_edge "tester" "security" ["tests_passed"] false None;
              mk_edge "security" "release" ["security_ok"] false None ];
     policy_name := Some "default" |}.

Definition default_profile : ContextProfile :=
  {| cp_name := "reviewer-default"; budget_tokens := 120000 |}.

(** The stores after [startup], on a given state of the disk. *)
Definition startup (fs : Files.filesystem) : Engine.world :=
  {| Engine.runs := [];
     Engine.graphs := [("git-to-prod-multi", default_graph)];
     Engine.events := [];
     Engine.context_profiles := [("reviewer-default", default_profile)];
     Engine.repo := fs;
     Engine.journal_files := [];
     Engine.artifacts := [];
     Engine.clock := 0 |}.

(** [create_graph] and [create_context_profile]: register under the name. *)
Definition create_graph (g : Graph) (w : Engine.world) : Engine.world :=
  {| Engine.runs := Engine.runs w;
     Engine.graphs := set (g_name g) g (Engine.graphs w);
     Engine.events := Engine.events w;
     Engine.context_profiles := Engine.context_profiles w;
     Engine.repo := Engine.repo w;
     Engine.journal_files := Engine.journal_files w;
     Engine.artifacts := Engine.artifacts w;
     Engine.clock := Engine.clock w |}.

Definition create_context_profile (p : ContextProfile) (w : Engine.world) : Engine.world :=
  {| Engine.runs := Engine.runs w;
     Engine.graphs := Engine.graphs w;
     Engine.events := Engine.events w;
     Engine.context_profiles := set (cp_name p) p (Engine.context_profiles w);
     Engine.repo := Engine.repo w;
     Engine.journal_files := Engine.journal_files w;
     Engine.artifacts := Engine.artifacts w;
     Engine.clock := Engine.clock w |}.

(** What [create_run] adds to the stores: a pending run under [run_id]
    with an empty journal. *)
Definition create_run (run_id graph_name created : string) (w : Engine.world) : Engine.world :=
  Engine.with_events (set run_id [] (Engine.events w))
    (Engine.with_runs
       (set run_id {| id := run_id; graph := graph_name; inputs := PyDict [];
                      status := "pending"; created_at := created; parent_run := None |}
            (Engine.runs w)) w).

End App.

Import Engine.

(* ================================================================== *)
(** ** Concrete scenarios *)
(* ================================================================== *)

Module Demo.

Definition app_py : string := "/srv/overseer/examples/sample_repo/app.py".
Definition test_app_py : string := "/srv/overseer/examples/sample_repo/tests/test_app.py".

(** A checkout under [/srv/overseer], a clock that reads [t0], [t1], ...
    and a pytest that passes when [app.py] returns 42. *)
Definition env0 : env :=
  {| repo_root := ["srv"; "overseer"];
     utcnow := fun n => "t" +s+ string_of_Z (Z.of_nat n);
     pytest := fun fs =>
       match get app_py fs with
       | Some (Files.File c) =>
           if contains "return 42" c then (true, "1 passed") else (false, "1 failed")
       | _ => (false, "no tests ran")
       end |}.

Definition sample_repo : Files.filesystem :=
  [(app_py, Files.File ("def compute():" +s+ Engine.nl +s+ "    return 41" +s+ Engine.nl));
   (test_app_py,
    Files.File ("from app import compute" +s+ Engine.nl +s+ Engine.nl
                +s+ "def test_answer():" +s+ Engine.nl
                +s+ "    answer = compute()" +s+ Engine.nl
                +s+ "    assert answer == 42" +s+ Engine.nl))].

Definition run1 : Run :=
  {| id := "run-1"; graph := "git-to-prod-multi"; inputs := PyDict [];
     status := "pending"; created_at := "t"; parent_run := None |}.

Definition profile (budget : Z) : dict ContextProfile :=
  [("reviewer-default", {| cp_name := "reviewer-default"; budget_tokens := budget |})].

(** A context compiled on the sample repository with no events yet. *)
Definition ctx (fs : Files.filesystem) (budget : Z) : Context.context :=
  Context.compile_context (SAFE_ROOT env0) fs run1 "planner" "reviewer-default" []
                          (profile budget).

(** The stores after startup and one [create_run] on the default graph. *)
Definition world_on (fs : Files.filesystem) : world :=
  App.create_run "run-1" "git-to-prod-multi" "t" (App.startup fs).

(** A checkout in which [app.py] is a directory. *)
Definition broken_repo : Files.filesystem := [(app_py, Files.Dir)].

(** A second directory next to the sample repository whose name starts
    with the name of the safe root. *)
Definition sibling_secret : string := "/srv/overseer/examples/sample_repo_evil/secret.txt".
Definition disk_with_sibling : Files.filesystem := [(sibling_secret, Files.File "secret")].

(** A fan-out edge that carries a gate no event satisfies. *)
Definition gated_fanout : Graph :=
  {| g_name := "gated-fanout"; agents := ["planner"; "fe_fixer"];
     dag := [App.mk_edge "planner" "fe_fixer" ["never_emitted"] true None];
     policy_name := None |}.

(** A gated edge into a node that also waits for a second source. *)
Definition gated_join : Graph :=
  {| g_name := "gated-join"; agents := ["planner"; "fe_fixer"; "aggregator"];
     dag := [App.mk_edge "planner" "aggregator" ["plan_ready"] false (Some "all");
             App.mk_edge "fe_fixer" "aggregator" [] false (Some "all")];
     policy_name := None |}.

(** A join node that is also the child of a fan-out. *)
Definition fanout_into_join : Graph :=
  {| g_name := "fanout-into-join"; agents := ["planner"; "fe_fixer"; "aggregator"];
     dag := [App.mk_edge "planner" "aggregator" [] true None;
             App.mk_edge "fe_fixer" "aggregator" [] false (Some "all")];
     policy_name := None |}.

(** [security] as the child of a fan-out, with the gated edge to
    [release] behind it. *)
Definition fanout_into_security : Graph :=
  {| g_name := "fanout-into-security"; agents := ["planner"; "security"; "release"];
     dag := [App.mk_edge "planner" "security" [] true None;
             App.mk_edge "security" "release" ["security_ok"] false None];
     policy_name := None |}.

(** A sequential edge that carries a gate no event satisfies. *)
Definition closed_gate : Graph :=
  {| g_name := "closed-gate"; agents := ["planner"; "fe_fixer"];
     dag := [App.mk_edge "planner" "fe_fixer" ["never_emitted"] false None];
     policy_name := None |}.

(** One pending run of graph [g]. *)
Definition world_with (g : Graph) : world :=
  App.create_run "run-1" (g_name g) "t" (App.create_graph g (App.startup sample_repo)).

(** The stores after the default graph has run to its end on the
    sample repository. *)
Definition parent_done : world :=
  fst (execute_graph env0 20 "run-1" (world_on sample_repo)).

(** The journal of a run, as (step, type) pairs. *)
Definition brief (evs : list Event) : list (string * string) :=
  map (fun e => (step e, type e)) evs.

End Demo.

(* ================================================================== *)
(** ** Vocabulary of the properties *)
(* ================================================================== *)

Module Spec.

(** [p] is [root] or lies below it, component by component. *)
Fixpoint lies_under (root p : list string) : bool :=
  match root, p with
  | [], _ => true
  | r :: root', c :: p' => String.eqb r c && lies_under root' p'
  | _ :: _, [] => false
  end.

(** The ceiling of a quarter of [n]. *)
Definition ceil_quarter (n : Z) : Z := ((n + 3) / 4)%Z.

(** The event [emit_event] builds when the clock has been read [clock w]
    times, and the world it leaves. *)
Definition stamp (E : env) (rid node ty : string) (d : dict pyval) (w : world) : Event :=
  {| run_id := rid; step := node; type := ty; ts := utcnow E (clock w); data := d |}.

Definition emitted (E : env) (rid node ty : string) (d : dict pyval) (w : world) : world :=
  let ev := stamp E rid node ty d w in
  with_journal_files
    (set rid (get_default rid [] (journal_files w) ++ [ev]) (journal_files w))
    (with_events (set rid (events_of rid w ++ [ev]) (events w))
                 (with_clock (S (clock w)) w)).

(** The world in which the handler of [node] starts: [run_node] has
    compiled the context and emitted [context_compiled]. *)
Definition before_handler (E : env) (rid node : string) (run : Run) (w : world) : world :=
  let ctx := Context.compile_context (SAFE_ROOT E) (repo w) run node "reviewer-default"
               (events_of rid w) (context_profiles w) in
  emitted E rid node "context_compiled"
    [("manifest", Context.manifest_value (Context.ctx_manifest ctx));
     ("model", PyDict (Routing.choose_model
                         (Context.total_tokens (Context.ctx_manifest ctx)) node))] w.

(** The type of the one event a handler emits, per node. *)
Definition own_types (node : string) : list string :=
  if String.eqb node "planner" then ["plan_ready"]
  else if String.eqb node "py_fixer" then ["patch_created"]
  else if String.eqb node "fe_fixer" then ["patch_created"]
  else if String.eqb node "test_writer" then ["test_updated"]
  else if String.eqb node "aggregator" then ["patch_selected"]
  else if String.eqb node "tester" then ["tests_passed"; "tests_failed"]
  else if String.eqb node "security" then ["security_ok"]
  else if String.eqb node "release" then ["release_complete"]
  else ["error"].

(** Only the disk, the artifacts and the clock may differ. *)
Definition silent (w0 w : world) : Prop :=
  runs w = runs w0 /\ graphs w = graphs w0 /\ events w = events w0
  /\ context_profiles w = context_profiles w0 /\ journal_files w = journal_files w0.

(** The stores a node leaves alone: runs, graphs, profiles, and the
    journal of every other run. *)
Definition frame (rid : string) (w w' : world) : Prop :=
  runs w' = runs w /\ graphs w' = graphs w /\ context_profiles w' = context_profiles w
  /\ forall r, r <> rid -> get r (events w') = get r (events w).

Definition is_event (rid node ty : string) (e : Event) : Prop :=
  run_id e = rid /\ step e = node /\ type e = ty.

(** What one call of [run_node] appends to the journal of its run. *)
Inductive node_trace (rid node : string) : result (dict pyval) -> list Event -> Prop :=
| nt_returns (res : dict pyval) (c h d : Event) (ty : string) :
    is_event rid node "context_compiled" c ->
    is_event rid node ty h -> In ty (own_types node) -> data h = res ->
    is_event rid node "node_done" d -> data d = [("result", PyDict res)] ->
    node_trace rid node (Ok res) [c; h; d]
| nt_raises (e : exn) (c : Event) :
    is_event rid node "context_compiled" c ->
    node_trace rid node (Raise e) [c].

(** [n] has a [node_done] event in [tr]. *)
Definition done_in (tr : list Event) (n : string) : Prop :=
  exists d, In d tr /\ step d = n /\ type d = "node_done".

(** Every dispatch of [J] recorded in [tr] (its [context_compiled]
    event) comes after a [node_done] of every source in [S]. *)
Definition join_respected (J : string) (S : list string) (tr : list Event) : Prop :=
  forall pre e post,
    tr = pre ++ e :: post -> step e = J -> type e = "context_compiled" ->
    forall s, In s S -> done_in pre s.

(** The journal of [rid] is [j0] followed by a trace that respects the
    join of [J] on [S] and holds a [node_done] of every node of [c]. *)
Definition journal_inv (rid : string) (j0 : list Event) (J : string) (S : list string)
           (c : list string) (w : world) : Prop :=
  exists tr, events_of rid w = j0 ++ tr /\ join_respected J S tr
             /\ forall n, In n c -> done_in tr n.

(** [n] may be dispatched when [c] is completed: [J] only once all of
    [S] is. *)
Definition may_run (J : string) (S : list string) (n : string) (c : list string) : Prop :=
  n = J -> forall s, In s S -> In s c.

(** Since [w0], the run [rid] has only appended events of its own to
    its own journal, and no other journal has changed. *)
Definition appended_only (rid : string) (w0 w : world) : Prop :=
  (exists tr, events_of rid w = events_of rid w0 ++ tr
              /\ forall e, In e tr -> run_id e = rid)
  /\ forall r, r <> rid -> get r (events w) = get r (events w0).

(** The index of the first event of step [from_step] is [k]. *)
Definition first_at (from_step : string) (evs : list Event) (k : nat) : Prop :=
  (exists e, nth_error evs k = Some e /\ step e = from_step)
  /\ forall i e, (i < k)%nat -> nth_error evs i = Some e -> step e <> from_step.

(** A handler stays silent, then emits one event of its own, or raises
    before emitting. *)
Definition handler_post (E : env) (rid node : string) (w0 : world)
           (r : result (dict pyval)) (w' : world) : Prop :=
  match r with
  | Ok res => exists w1 ty, silent w0 w1 /\ In ty (own_types node)
                            /\ w' = emitted E rid node ty res w1
  | Raise e => silent w0 w'
  | Diverge => False
  end.

(** The world in which the scheduler loop of a run of graph [g]
    starts, and the state it starts in. *)
Definition started (E : env) (rid : string) (g : Graph) (w : world) : world :=
  emitted E rid "system" "run_started" [("graph", PyStr (g_name g))]
          (fst (set_status rid "running" w)).

Definition initial (g : Graph) : sched :=
  {| ready := start_nodes (build (dag g)); completed := []; completed_nodes := [] |}.

(** The nodes of the graph, the number of them not yet completed, and
    the number of entries of [ready] that are completed already: the
    pair of the last two goes down with every pass of the loop. *)
Definition universe (t : tables) : list string := keys (in_degree t).

Definition pending (t : tables) (st : sched) : nat :=
  List.length (filter (fun n => negb (inb n (completed st))) (universe t)).

Definition stale (st : sched) : nat :=
  List.length (filter (fun n => inb n (completed st)) (ready st)).

(** [sub] occurs in [s] as a run of consecutive characters. *)
Definition occurs (sub s : string) : Prop :=
  exists pre post, s = pre +s+ sub +s+ post.

(** The lines of [./data/<rid>/events.jsonl]. *)
Definition disk_of (rid : string) (w : world) : list Event :=
  get_default rid [] (journal_files w).

(** [tr] has been appended both to the journal of [rid] in memory and
    to its journal file. *)
Definition logged (rid : string) (w0 w : world) (tr : list Event) : Prop :=
  events_of rid w = events_of rid w0 ++ tr /\ disk_of rid w = disk_of rid w0 ++ tr.

(** Since [w0], the journal of [rid] and its file have gained the same
    events, and no other journal file has changed. *)
Definition synced (rid : string) (w0 w : world) : Prop :=
  (exists tr, logged rid w0 w tr)
  /\ forall r, r <> rid -> get r (journal_files w) = get r (journal_files w0).

(** The record [run] with its status set to [s]. *)
Definition with_status (s : string) (run : Run) : Run :=
  {| id := id run; graph := graph run; inputs := inputs run; status := s;
     created_at := created_at run; parent_run := parent_run run |}.

(** The nodes whose handler writes to the repository. *)
Definition writers : list string := ["py_fixer"; "test_writer"; "release"].

(** A run id that names one directory under [./data]: not empty, not
    [.] or [..], without [/] and without NUL, and of at most 127
    characters, which are at most 254 bytes however they are encoded. *)
Definition plain_id (rid : string) : bool :=
  negb (String.eqb rid "") && negb (String.eqb rid ".") && negb (String.eqb rid "..")
  && negb (has_char "/" rid) && negb (has_char Files.nul rid)
  && (String.length rid <=? 127)%nat.

(** Every name of the path has at most 127 characters and the text of
    the path at most 2000: within [NAME_MAX] and [PATH_MAX]. *)
Definition within_limits (ps : list string) : bool :=
  forallb (fun c => (String.length c <=? 127)%nat) ps
  && (String.length (Files.path_str ps) <=? 2000)%nat.

(** The disk lists every file; a directory it does not list exists when
    an entry lies below it.  Nothing lies below [p]. *)
Definition nothing_below (fs : Files.filesystem) (p : string) : Prop :=
  forall k, String.prefix (p +s+ "/") k = true -> get k fs = None.

(** The gate of [edge] is open on the journal [evs]: the edge has no
    [on], or some event of [node] has a type that [on] lists. *)
Definition gate_open (evs : list Event) (node : string) (edge : Edge) : Prop :=
  on edge = [] \/ exists ev, In ev evs /\ step ev = node /\ In (type ev) (on edge).

(** The scheduler state and the stores after [n] passes of [while
    ready]; an empty [ready], a pass that raises and a pass that breaks
    off end the count. *)
Fixpoint after_passes (E : env) (rid : string) (t : tables) (n : nat)
         (st : sched) (w : world) : sched * world :=
  match n with
  | O => (st, w)
  | S n' =>
      match ready st with
      | [] => (st, w)
      | _ :: _ =>
          match iteration E rid t st w with
          | (w', Ok (st', true)) => after_passes E rid t n' st' w'
          | _ => (st, w)
          end
      end
  end.

(** Weakest precondition of engine code. *)
Definition wp {A} (m : M A) (Q : result A -> world -> Prop) (w : world) : Prop :=
  Q (snd (m w)) (fst (m w)).

End Spec.

Import Spec.

(* ================================================================== *)
(** * Properties *)
(* ================================================================== *)

(** ** Strings and dictionaries *)

Lemma get_set_same (A : Type) (k : string) (v : A) (d : dict A) :
  get k (set k v d) = Some v.
Proof.
  induction d as [|[k' v'] d IH]; simpl.
  - now rewrite String.eqb_refl.
  - destruct (String.eqb k k') eqn:Hk; simpl; rewrite ?String.eqb_refl, ?Hk; auto.
Qed.

Lemma get_set_other (A : Type) (k k' : string) (v : A) (d : dict A) :
  k' <> k -> get k' (set k v d) = get k' d.
Proof.
  intros Hne. induction d as [|[k0 v0] d IH]; simpl.
  - apply String.eqb_neq in Hne. now rewrite Hne.
  - destruct (String.eqb k k0) eqn:Hk; simpl.
    + apply String.eqb_eq in Hk. subst k0.
      apply String.eqb_neq in Hne. now rewrite Hne.
    + destruct (String.eqb k' k0); auto.
Qed.

Lemma length_substring_0 (n : nat) (s : string) :
  (n <= String.length s)%nat -> String.length (substring 0 n s) = n.
Proof.
  revert s. induction n as [|n IH]; intros s Hn.
  - now destruct s.
  - destruct s as [|c s]; simpl in *; [lia|]. rewrite IH; lia.
Qed.

(** ** context.py: the budget and the estimates *)

Section ContextFacts.
Local Open Scope Z_scope.
Import Context.

Variables (root : list string) (fs : Files.filesystem) (run : Run).
Variables (step profile_name : string) (events : list Event).
Variable context_profiles : dict ContextProfile.

Let c := compile_context root fs run step profile_name events context_profiles.
Let m := ctx_manifest c.
Let budget := budget_of profile_name context_profiles.
Let sp_est := estimate (scratchpad events).
Let rs_est := estimate (repo_snippets root fs).
Let pd_est := estimate policy_docs.

Ltac manifest_fields :=
    cbn [token_estimate section get_default get sections bundle ctx_manifest
         total_tokens drops String.eqb Ascii.eqb Bool.eqb py_str].

Lemma len_nonneg (s : string) : 0 <= len s.
Proof. unfold len. lia. Qed.

Lemma estimate_bounds (v : pyval) :
    4 * estimate v <= len (py_str v) < 4 * estimate v + 4.
Proof.
    unfold estimate. generalize (len_nonneg (py_str v)). intros H.
    pose proof (Z.div_mod (len (py_str v)) 4 ltac:(lia)) as Hd.
    pose proof (Z.mod_pos_bound (len (py_str v)) 4 ltac:(lia)) as Hm.
    lia.
Qed.

  (** A trimmed estimate is always smaller than what the text holds, so
      the trim branch always records its drop. *)
Lemma trim_always_cuts (trim : Z) :
    0 < trim ->
    (len (py_str (repo_snippets root fs)) >? (rs_est - trim) * 4) = true.
Proof.
    intros Ht. pose proof (estimate_bounds (repo_snippets root fs)) as Hb.
    fold rs_est in Hb. apply Z.gtb_lt. lia.
Qed.

  (** C1 (as amended): the total never exceeds the larger of the budget
    and what scratchpad and policy_docs take together, so it is within
    the budget whenever those two sections fit.  When the untrimmed
    total is over the budget, [drops] is not empty, and the total is the
    budget itself if repo_snippets could be trimmed and the sum of the
    scratchpad and policy_docs estimates if it was dropped. *)
Theorem budget_law :
  total_tokens m <= Z.max budget (sp_est + pd_est)
  /\ (sp_est + pd_est <= budget -> total_tokens m <= budget)
  /\ (sp_est + rs_est + pd_est > budget ->
      drops m <> []
      /\ (rs_est > sp_est + rs_est + pd_est - budget -> total_tokens m = budget)
      /\ (rs_est <= sp_est + rs_est + pd_est - budget ->
          total_tokens m = sp_est + pd_est
          /\ drops m = ["repo_snippets dropped entirely"]
          /\ token_estimate "repo_snippets" m = 0)).
Proof.
  subst m c. unfold compile_context.
  fold budget. fold sp_est. fold rs_est. fold pd_est.
  destruct (sp_est + rs_est + pd_est >? budget) eqn:Hover.
  - apply Z.gtb_lt in Hover.
    destruct (rs_est >? sp_est + rs_est + pd_est - budget) eqn:Hfit.
    + rewrite trim_always_cuts by lia. manifest_fields.
      apply Z.gtb_lt in Hfit.
      repeat split; try lia. discriminate.
    + manifest_fields.
      assert (~ sp_est + rs_est + pd_est - budget < rs_est) as Hn
          by (rewrite <- Z.gtb_lt; congruence).
      repeat split; try lia; try reflexivity. discriminate.
  - manifest_fields.
    assert (~ budget < sp_est + rs_est + pd_est) as Hn
        by (rewrite <- Z.gtb_lt; congruence).
    repeat split; lia.
Qed.

(** C8 (as amended): every section estimate in the manifest is the
      floor of a quarter of the length of the text of that section of the
      bundle, and the total is the sum of the three estimates. *)
Theorem estimates_are_floors :
    token_estimate "scratchpad" m = len (py_str (section "scratchpad" c)) / 4
    /\ token_estimate "repo_snippets" m = len (py_str (section "repo_snippets" c)) / 4
    /\ token_estimate "policy_docs" m = len (py_str (section "policy_docs" c)) / 4
    /\ total_tokens m = token_estimate "scratchpad" m + token_estimate "repo_snippets" m
                        + token_estimate "policy_docs" m.
Proof.
    subst m c. unfold compile_context.
    fold budget. fold sp_est. fold rs_est. fold pd_est.
    destruct (sp_est + rs_est + pd_est >? budget) eqn:Hover.
    - apply Z.gtb_lt in Hover.
      destruct (rs_est >? sp_est + rs_est + pd_est - budget) eqn:Hfit.
      + rewrite trim_always_cuts by lia.
        apply Z.gtb_lt in Hfit.
        pose proof (estimate_bounds (repo_snippets root fs)) as Hb. fold rs_est in Hb.
        manifest_fields.
        repeat split; try reflexivity; try lia.
        unfold len. rewrite length_substring_0.
        * rewrite Z2Nat.id by lia. now rewrite Z.div_mul by lia.
        * unfold len in Hb. lia.
      + manifest_fields. repeat split; reflexivity || lia.
    - manifest_fields. repeat split; reflexivity || lia.
Qed.
End ContextFacts.

(** ** tools/files.py: the guard *)

(** A path without NUL whose resolved text does not begin with the text
    of the safe root is refused by [read] and by [write], and the disk
    stays as it is. *)
Lemma guard_refuses (root : list string) (fs : Files.filesystem) (path content : string) :
  has_char Files.nul path = false ->
  Files.inside root path = false ->
  Files.read root fs path = Raise (ValueError ("path " +s+ path +s+ " escapes safe root"))
  /\ Files.write root fs path content
     = (fs, Raise (ValueError ("path " +s+ path +s+ " escapes safe root"))).
Proof.
  intros Hn H. unfold Files.read, Files.write. rewrite Hn, H. now split.
Qed.

Example etc_passwd_refused :
  Files.read (SAFE_ROOT Demo.env0) [("/etc/passwd", Files.File "root")] "../../etc/passwd"
  = Raise (ValueError "path ../../etc/passwd escapes safe root").
Proof. reflexivity. Qed.

(** ** engine.py: reasoning about engine code *)

Lemma wp_ret (A : Type) (a : A) (Q : result A -> world -> Prop) (w : world) :
  Q (Ok a) w -> wp (ret a) Q w.
Proof. exact (fun H => H). Qed.

Lemma wp_bind (A B : Type) (m : M A) (f : A -> M B) (Q : result B -> world -> Prop) (w : world) :
  wp m (fun r w' => match r with
                    | Ok a => wp (f a) Q w'
                    | Raise e => Q (Raise e) w'
                    | Diverge => Q Diverge w'
                    end) w ->
  wp (bind m f) Q w.
Proof.
  unfold wp, bind. destruct (m w) as [w' [a|e|]]; simpl; auto.
Qed.

Lemma wp_weaken (A : Type) (m : M A) (Q Q' : result A -> world -> Prop) (w : world) :
  wp m Q w -> (forall r w', Q r w' -> Q' r w') -> wp m Q' w.
Proof. unfold wp. auto. Qed.

Section Primitives.
Variable E : env.

Lemma emit_event_run (rid node ty : string) (d : dict pyval) (w : world) :
  emit_event E rid node ty d w = (emitted E rid node ty d w, Ok (stamp E rid node ty d w)).
Proof. reflexivity. Qed.

Lemma wp_emit (rid node ty : string) (d : dict pyval) Q (w : world) :
  Q (Ok (stamp E rid node ty d w)) (emitted E rid node ty d w) ->
  wp (emit_event E rid node ty d) Q w.
Proof. unfold wp. now rewrite emit_event_run. Qed.

Lemma events_of_emitted (rid node ty : string) (d : dict pyval) (w : world) :
  events_of rid (emitted E rid node ty d w) = events_of rid w ++ [stamp E rid node ty d w].
Proof.
  unfold events_of at 1, get_default. simpl. now rewrite get_set_same.
Qed.

Lemma frame_emitted (rid node ty : string) (d : dict pyval) (w : world) :
  frame rid w (emitted E rid node ty d w).
Proof.
  repeat split; try reflexivity. intros r Hr. simpl. now apply get_set_other.
Qed.

Lemma read_returns (root : list string) (fs : Files.filesystem) (path : string) :
  Files.read root fs path <> Diverge.
Proof.
  unfold Files.read. destruct (has_char _ _); [discriminate|].
  destruct (negb _); [discriminate|].
  destruct (get _ fs) as [[c|]|]; discriminate.
Qed.

Lemma write_returns (root : list string) (fs : Files.filesystem) (path content : string) :
  snd (Files.write root fs path content) <> Diverge.
Proof.
  unfold Files.write, Files.mkdir_parents. destruct (has_char _ _); [discriminate|].
  destruct (negb _); [discriminate|].
  destruct (find _ _); simpl; [discriminate|].
  destruct (get _ _) as [[c|]|]; discriminate.
Qed.

Lemma wp_read (path : string) Q (w : world) :
  (forall r, r <> Diverge -> Q r w) -> wp (files_read E path) Q w.
Proof. intros H. apply H. apply read_returns. Qed.

Lemma wp_write (path content : string) Q (w : world) :
  (forall fs r, r <> Diverge -> Q r (with_repo fs w)) -> wp (files_write E path content) Q w.
Proof.
  intros H. unfold wp, files_write.
  pose proof (write_returns (SAFE_ROOT E) (repo w) path content) as Hr.
  destruct (Files.write _ _ _ _) as [fs r]. now apply H.
Qed.

Lemma collect_patches_returns (evs : list Event) : collect_patches evs <> Diverge.
Proof.
  induction evs as [|e evs IH]; simpl; [discriminate|].
  destruct (_ && _); auto.
  destruct (get "patch" (data e)); [|discriminate].
  destruct (collect_patches evs); congruence.
Qed.

End Primitives.

Section Handlers.
Variable E : env.
Variables rid node : string.

Lemma wp_modify (f : world -> world) Q (w : world) :
  Q (Ok tt) (f w) -> wp (modify f) Q w.
Proof. exact (fun H => H). Qed.

Lemma wp_get_world Q (w : world) : Q (Ok w) w -> wp get_world Q w.
Proof. exact (fun H => H). Qed.

Lemma wp_now Q (w : world) :
  Q (Ok (utcnow E (clock w))) (with_clock (S (clock w)) w) -> wp (now E) Q w.
Proof. exact (fun H => H). Qed.

Lemma wp_lift (A : Type) (r : result A) Q (w : world) : Q r w -> wp (lift r) Q w.
Proof. exact (fun H => H). Qed.

Ltac silence := unfold handler_post, silent in *; cbn; intuition congruence.

Lemma wp_emit_own (w0 w1 : world) (ty : string) (res : dict pyval) :
  silent w0 w1 -> In ty (own_types node) ->
  wp (emit_event E rid node ty res ;;; ret res) (handler_post E rid node w0) w1.
Proof.
  intros Hs Hty. apply wp_bind, wp_emit. apply wp_ret. cbn. now exists w1, ty.
Qed.

Ltac own :=
  unfold own_types;
  repeat match goal with H : String.eqb _ _ = _ |- _ => rewrite H; clear H end;
  cbn; tauto.

Ltac wp_go :=
  repeat match goal with
    | |- wp (bind (emit_event _ _ _ _ _) (fun _ => ret _)) (handler_post _ _ _ _) _ =>
        apply wp_emit_own; [silence | own]
    | |- wp (bind _ _) _ _ => apply wp_bind
    | |- wp (ret _) _ _ => apply wp_ret
    | |- wp (modify _) _ _ => apply wp_modify
    | |- wp get_world _ _ => apply wp_get_world
    | |- wp (now _) _ _ => apply wp_now
    | |- wp (files_read _ _) _ _ =>
        apply wp_read; intros [?|?|] ?; [ | silence | congruence]
    | |- wp (files_write _ _ _) _ _ =>
        apply wp_write; intros ? [?|?|] ?; [ | silence | congruence]
    end.

Ltac case_content :=
  match goal with |- context [get "content" ?d] => destruct (get "content" d) end.

Lemma handler_spec (w : world) :
  wp (handler E rid node) (handler_post E rid node w) w.
Proof.
  unfold handler.
  destruct (String.eqb node "planner") eqn:?; [wp_go|].
  destruct (String.eqb node "py_fixer") eqn:?.
  { wp_go. case_content; unfold save_artifact; wp_go. }
  destruct (String.eqb node "fe_fixer") eqn:?; [wp_go|].
  destruct (String.eqb node "test_writer") eqn:?.
  { wp_go. case_content; [destruct (negb _)|]; wp_go. }
  destruct (String.eqb node "aggregator") eqn:?.
  { wp_go. apply wp_lift.
    pose proof (collect_patches_returns (events_of rid w)) as Hc.
    destruct (collect_patches _) as [ps|e|]; [wp_go | silence | congruence]. }
  destruct (String.eqb node "tester") eqn:?.
  { wp_go. destruct (truthy _); apply wp_emit, wp_ret; cbn;
      eexists w, _; (split; [silence | split; [|reflexivity]]); own. }
  destruct (String.eqb node "security") eqn:?.
  { wp_go. apply wp_emit, wp_ret; cbn.
    eexists w, _; (split; [silence | split; [|reflexivity]]); own. }
  destruct (String.eqb node "release") eqn:?; wp_go.
Qed.

End Handlers.

(** ** engine.py: what one node invocation does *)

Section RunNode.
Variable E : env.
Variables rid node : string.

Lemma frame_refl (w : world) : frame rid w w.
Proof. now repeat split. Qed.

Lemma frame_trans (w1 w2 w3 : world) :
  frame rid w1 w2 -> frame rid w2 w3 -> frame rid w1 w3.
Proof.
  intros (H1 & H2 & H3 & H4) (K1 & K2 & K3 & K4).
  repeat split; try congruence. intros r Hr. rewrite K4, H4; auto.
Qed.

Lemma frame_silent (w w' : world) : silent w w' -> frame rid w w'.
Proof.
  intros (H1 & H2 & H3 & H4 & H5). repeat split; auto. intros r _. now rewrite H3.
Qed.

Lemma events_of_silent (w w' : world) : silent w w' -> events_of rid w' = events_of rid w.
Proof. intros (_ & _ & H & _). unfold events_of. now rewrite H. Qed.

Lemma run_node_missing (w : world) :
  get rid (runs w) = None -> run_node E rid node w = (w, Raise (KeyError rid)).
Proof. intros H. unfold run_node, bind, lookup_run. now rewrite H. Qed.

Lemma run_node_unfold (run : Run) (w : world) :
  get rid (runs w) = Some run ->
  run_node E rid node w =
  match handler E rid node (before_handler E rid node run w) with
  | (w2, Ok res) => (emitted E rid node "node_done" [("result", PyDict res)] w2, Ok res)
  | (w2, Raise e) => (w2, Raise e)
  | (w2, Diverge) => (w2, Diverge)
  end.
Proof.
  intros H. unfold run_node, bind, lookup_run. rewrite H.
  unfold get_world. rewrite emit_event_run.
  fold (before_handler E rid node run w).
  destruct (handler E rid node (before_handler E rid node run w)) as [w2 [res|e|]];
    reflexivity.
Qed.

Lemma stamp_is_event (ty : string) (d : dict pyval) (w : world) :
  is_event rid node ty (stamp E rid node ty d w).
Proof. now repeat split. Qed.

(** A node invocation appends its [context_compiled] event and then
    either the handler's event and [node_done], or nothing more. *)
Lemma run_node_trace (run : Run) (w : world) :
  get rid (runs w) = Some run ->
  exists tr,
    node_trace rid node (snd (run_node E rid node w)) tr
    /\ events_of rid (fst (run_node E rid node w)) = events_of rid w ++ tr
    /\ frame rid w (fst (run_node E rid node w)).
Proof.
  intros Hrun. rewrite (run_node_unfold _ Hrun).
  pose proof (handler_spec E rid node (before_handler E rid node run w)) as Hh.
  unfold wp in Hh.
  destruct (handler E rid node (before_handler E rid node run w)) as [w2 [res|e|]];
    cbn [fst snd] in *; [| |contradiction].
  - destruct Hh as (w1 & ty & Hs & Hty & ->).
    eexists [_; _; _]. split; [|split].
    2: { rewrite !events_of_emitted, (events_of_silent Hs).
         unfold before_handler. rewrite events_of_emitted, <- !app_assoc. reflexivity. }
    + eapply nt_returns with (ty := ty); try apply stamp_is_event; auto.
    + eapply frame_trans; [|apply frame_emitted].
      eapply frame_trans; [|apply frame_emitted].
      apply frame_trans with (before_handler E rid node run w);
        [apply frame_emitted | now apply frame_silent].
  - eexists [_]. split; [|split].
    2: { rewrite (events_of_silent Hh). unfold before_handler. apply events_of_emitted. }
    + apply nt_raises. apply stamp_is_event.
    + apply frame_trans with (before_handler E rid node run w);
        [apply frame_emitted | now apply frame_silent].
Qed.

Lemma run_node_returns (w : world) : snd (run_node E rid node w) <> Diverge.
Proof.
  destruct (get rid (runs w)) as [run|] eqn:Hrun.
  - destruct (run_node_trace _ Hrun) as (tr & Ht & _). inversion Ht; congruence.
  - rewrite (run_node_missing _ Hrun). discriminate.
Qed.

(** C7 (as amended): [run_node] has no handler for exceptions.  When the
    body of a node handler raises, the exception leaves [run_node], and
    the journal of the run has gained the [context_compiled] event and
    nothing else: no event of the node's own and no [node_done].  When
    the body returns, whatever its result, [run_node] returns that
    result and the journal has gained [context_compiled], the node's own
    event carrying the result, and [node_done]. *)
Theorem handler_exception_propagates (run : Run) (w : world) :
  get rid (runs w) = Some run ->
  (forall e,
      snd (handler E rid node (before_handler E rid node run w)) = Raise e ->
      snd (run_node E rid node w) = Raise e
      /\ exists c, is_event rid node "context_compiled" c
                   /\ events_of rid (fst (run_node E rid node w)) = events_of rid w ++ [c])
  /\ (forall res,
         snd (handler E rid node (before_handler E rid node run w)) = Ok res ->
         snd (run_node E rid node w) = Ok res
         /\ exists c h d ty,
             is_event rid node "context_compiled" c
             /\ is_event rid node ty h /\ In ty (own_types node) /\ data h = res
             /\ is_event rid node "node_done" d
             /\ events_of rid (fst (run_node E rid node w)) = events_of rid w ++ [c; h; d]).
Proof.
  intros Hrun.
  destruct (run_node_trace _ Hrun) as (tr & Ht & Hev & _).
  rewrite (run_node_unfold _ Hrun) in *.
  destruct (handler E rid node (before_handler E rid node run w)) as [w2 [res|e'|]];
    cbn [fst snd] in *; (split; [intros e He | intros r Hr]); try discriminate.
  - split; [assumption|]. inversion Hr; subst r.
    inversion Ht as [res' c h d ty Hc Hh Hty Hdata Hd _|]; subst.
    exists c, h, d, ty. auto 10.
  - split; [assumption|]. inversion Ht; subst. eauto.
Qed.

End RunNode.

Section Gates.
Variable E : env.
Variable rid : string.

Lemma inb_In (n : string) (l : list string) : inb n l = true <-> In n l.
Proof.
  unfold inb. rewrite existsb_exists. split.
  - intros (x & Hx & Heq). apply String.eqb_eq in Heq. now subst.
  - intros H. exists n. split; [assumption | apply String.eqb_refl].
Qed.

Lemma inb_not_In (n : string) (l : list string) : inb n l = false <-> ~ In n l.
Proof.
  rewrite <- inb_In. destruct (inb n l); split; congruence.
Qed.

Lemma all_in_spec (sources completed : list string) :
  all_in sources completed = true <-> forall s, In s sources -> In s completed.
Proof.
  unfold all_in. rewrite forallb_forall. split; intros H s Hs; apply inb_In; auto.
Qed.

(** The gate as the scheduler computes it is the existence of an event
    of the producing node whose type is in [on]. *)
Lemma matches_spec (evs : list Event) (node : string) (edge : Edge) :
  matches evs node edge = true
  <-> exists e, In e evs /\ step e = node /\ In (type e) (on edge).
Proof.
  unfold matches. rewrite existsb_exists. split.
  - intros (e & He & Hc). apply andb_true_iff in Hc as [Hs Ht].
    apply String.eqb_eq in Hs. apply inb_In in Ht. eauto.
  - intros (e & He & Hs & Ht). exists e. split; [assumption|].
    apply andb_true_iff. split; [now apply String.eqb_eq | now apply inb_In].
Qed.

(** One edge, as [process_edge] treats it: with a non-empty [on], a
    child that is neither ready nor completed and has its join sources,
    if any, all completed, is appended exactly when the journal given
    holds an event of the node given whose type is in [on]. *)
Lemma process_edge_enqueues_iff (t : tables) (evs : list Event) (node : string)
        (completed rdy : list string) (edge : Edge) :
  on edge <> [] ->
  ~ In (to_node edge) rdy ->
  ~ In (to_node edge) completed ->
  (forall sources, get (to_node edge) (join_groups t) = Some sources ->
                   forall s, In s sources -> In s completed) ->
  (In (to_node edge) (process_edge t evs node completed rdy edge)
   <-> exists e, In e evs /\ step e = node /\ In (type e) (on edge)).
Proof.
  intros Hon Hr Hc Hj. rewrite <- matches_spec. unfold process_edge.
  apply inb_not_In in Hr as Hr'. apply inb_not_In in Hc as Hc'.
  destruct (on edge) as [|ty tys] eqn:Hedge; [congruence|].
  destruct (matches evs node edge); cbn [negb].
  - split; [reflexivity|]. intros _.
    destruct (get (to_node edge) (join_groups t)) as [sources|] eqn:Hg.
    + assert (all_in sources completed = true) as ->
        by (apply all_in_spec; eauto).
      rewrite Hr', Hc'. cbn. apply in_or_app. right. now left.
    + rewrite Hr', Hc'. cbn. apply in_or_app. right. now left.
  - split; [contradiction | discriminate].
Qed.

Lemma handler_security (w : world) :
  handler E rid "security" w
  = (emitted E rid "security" "security_ok" Security.scan_repo w, Ok Security.scan_repo).
Proof. reflexivity. Qed.

(** [scan_repo] is the constant ok result with no issues; the security
    node therefore always returns, having appended [context_compiled],
    [security_ok] and [node_done] and no [security_failed]; after it,
    the gate test of an edge out of security that lists [security_ok]
    is true, and [process_edge] appends the child of such an edge when
    it has no join to wait for and is neither ready nor completed. *)
Lemma security_node_ok (run : Run) (w : world) :
  get rid (runs w) = Some run ->
  Security.scan_repo = [("ok", PyBool true); ("issues", PyList [])]
  /\ snd (run_node E rid "security" w) = Ok Security.scan_repo
  /\ (exists c h d,
        events_of rid (fst (run_node E rid "security" w)) = events_of rid w ++ [c; h; d]
        /\ is_event rid "security" "context_compiled" c
        /\ is_event rid "security" "security_ok" h
        /\ is_event rid "security" "node_done" d)
  /\ (forall edge, In "security_ok" (on edge) ->
        matches (events_of rid (fst (run_node E rid "security" w))) "security" edge = true)
  /\ (forall t edge completed rdy,
        In "security_ok" (on edge) ->
        get (to_node edge) (join_groups t) = None ->
        ~ In (to_node edge) rdy -> ~ In (to_node edge) completed ->
        process_edge t (events_of rid (fst (run_node E rid "security" w))) "security"
                     completed rdy edge = rdy ++ [to_node edge]).
Proof.
  intros Hrun.
  assert (snd (run_node E rid "security" w) = Ok Security.scan_repo) as Hres
    by now rewrite (run_node_unfold E rid "security" _ Hrun), handler_security.
  destruct (run_node_trace E rid "security" _ Hrun) as (tr & Ht & Hev & _).
  rewrite Hres in Ht.
  inversion Ht as [res c h d ty Hc Hh Hty Hdata Hd Hdd|]; subst.
  destruct Hty as [<-|[]].
  assert (forall edge, In "security_ok" (on edge) ->
            matches (events_of rid (fst (run_node E rid "security" w))) "security" edge = true)
    as Hgate.
  { intros edge Hon. apply matches_spec. rewrite Hev. exists h. split.
    - apply in_or_app. right. right. left. reflexivity.
    - destruct Hh as (_ & Hs & Hty). rewrite Hty. now split. }
  split; [reflexivity|]. split; [exact Hres|]. split; [|split].
  - exists c, h, d. auto.
  - exact Hgate.
  - intros t edge completed rdy Hon Hj Hr Hcm. unfold process_edge.
    rewrite (Hgate edge Hon), Hj.
    apply inb_not_In in Hr. apply inb_not_In in Hcm. rewrite Hr, Hcm.
    now destruct (on edge).
Qed.

End Gates.

(** ** engine.py: an invariant rule for the scheduler loop *)

Lemma in_add (n x : string) (c : list string) : In x (add n c) <-> x = n \/ In x c.
Proof.
  unfold add. destruct (inb n c) eqn:Hn.
  - apply inb_In in Hn. split; [auto|]. intros [->|H]; auto.
  - rewrite in_app_iff. cbn. intuition.
Qed.

Lemma get_of_In (A : Type) (k : string) (v : A) (d : dict A) :
  NoDup (keys d) -> In (k, v) d -> get k d = Some v.
Proof.
  induction d as [|[k' v'] d IH]; cbn; intros Hnd Hin; [contradiction|].
  inversion Hnd as [|? ? Hk Hnd']; subst.
  destruct Hin as [Heq|Hin].
  - inversion Heq; subst. now rewrite String.eqb_refl.
  - destruct (String.eqb k k') eqn:Hkk.
    + apply String.eqb_eq in Hkk. subst k'. exfalso. apply Hk.
      unfold keys. now apply (in_map fst) in Hin.
    + auto.
Qed.

Lemma get_In (A : Type) (k : string) (v : A) (d : dict A) :
  get k d = Some v -> In (k, v) d.
Proof.
  induction d as [|[k' v'] d IH]; cbn; [discriminate|].
  destruct (String.eqb k k') eqn:Hk.
  - apply String.eqb_eq in Hk. intros [= ->]. subst. now left.
  - auto.
Qed.

Lemma completed_fold_complete (l : list (string * dict pyval)) (st : sched) :
  ready (fold_left (fun s nr => complete (fst nr) (snd nr) s) l st) = ready st
  /\ forall x, In x (completed (fold_left (fun s nr => complete (fst nr) (snd nr) s) l st))
               <-> In x (map fst l) \/ In x (completed st).
Proof.
  revert st. induction l as [|[n r] l IH]; intros st; cbn.
  - intuition.
  - destruct (IH (complete n r st)) as [Hr Hc]. split; [exact Hr|].
    intros x. rewrite Hc. cbn. rewrite in_add. intuition.
Qed.

Lemma map_fst_combine (A B : Type) (l : list A) (l' : list B) :
  List.length l' = List.length l -> map fst (combine l l') = l.
Proof.
  revert l'. induction l as [|a l IH]; intros [|b l']; cbn; try discriminate; auto.
  intros [= H]. now rewrite IH.
Qed.

Section SchedulerInvariant.
Variable E : env.
Variable rid : string.
Variable t : tables.

(** [Keeps completed w]: what is to hold of the world, given the nodes
    known to be completed.  [May n completed]: node [n] may be
    dispatched. *)
Variable Keeps : list string -> world -> Prop.
Variable May : string -> list string -> Prop.

Hypothesis Keeps_mono :
  forall c c' w, (forall n, In n c' -> In n c) -> Keeps c w -> Keeps c' w.
Hypothesis May_mono :
  forall n c c', (forall x, In x c -> In x c') -> May n c -> May n c'.
Hypothesis May_join :
  forall n c,
    (forall sources, get n (join_groups t) = Some sources ->
                     forall s, In s sources -> In s c) -> May n c.
Hypothesis May_child :
  forall n e c, is_fanout (get_default n [] (adj t)) = true ->
                In e (get_default n [] (adj t)) -> May (to_node e) c.
Hypothesis Keeps_run :
  forall n c w, Keeps c w -> May n c ->
    Keeps c (fst (run_node E rid n w))
    /\ forall res, snd (run_node E rid n w) = Ok res -> Keeps (n :: c) (fst (run_node E rid n w)).
Hypothesis join_keys : NoDup (keys (join_groups t)).

Let good (st : sched) (w : world) : Prop :=
  Keeps (completed st) w /\ forall n, In n (ready st) -> May n (completed st).

Lemma Keeps_nil (c : list string) (w : world) : Keeps c w -> Keeps [] w.
Proof. apply Keeps_mono. intros n []. Qed.

Lemma run_once_inv (node : string) (st : sched) (w : world) :
  Keeps (completed st) w -> May node (completed st) ->
  wp (run_once E rid node st)
     (fun r w' => match r with
                  | Ok st' => Keeps (completed st') w' /\ ready st' = ready st
                              /\ forall x, In x (completed st) -> In x (completed st')
                  | Raise _ => Keeps [] w'
                  | Diverge => False
                  end) w.
Proof.
  intros HI HD. unfold wp, run_once, bind, ret.
  destruct (inb node (completed st)); cbn; [auto|].
  destruct (Keeps_run HI HD) as [H1 H2].
  pose proof (run_node_returns E rid node w) as Hret.
  destruct (run_node E rid node w) as [w' [res|e|]]; cbn in *.
  - split; [|split; [reflexivity|]].
    + eapply Keeps_mono; [|apply (H2 res eq_refl)].
      intros n Hn. apply in_add in Hn. destruct Hn as [->|Hn]; cbn; auto.
    + intros x Hx. apply in_add. auto.
  - eauto using Keeps_nil.
  - congruence.
Qed.

Lemma scan_inv (nodes : list string) :
  forall (st : sched) (pn : list string) (w : world),
    Keeps (completed st) w ->
    (forall n, In n nodes -> May n (completed st)) ->
    (forall c, In c pn -> forall comp, May c comp) ->
    wp (scan E rid t nodes st pn)
       (fun r w' => match r with
                    | Ok (st', pn', seq) =>
                        Keeps (completed st') w' /\ ready st' = ready st
                        /\ (forall x, In x (completed st) -> In x (completed st'))
                        /\ (forall c, In c pn' -> forall comp, May c comp)
                        /\ (forall n, seq = Some n -> In n nodes)
                    | Raise _ => Keeps [] w'
                    | Diverge => False
                    end) w.
Proof.
  induction nodes as [|node rest IH]; intros st pn w HI HD Hpn; cbn [scan].
  - apply wp_ret. repeat split; auto. discriminate.
  - destruct (is_fanout (get_default node [] (adj t))) eqn:Hf.
    2: { apply wp_ret. repeat split; auto. intros n [= <-]. now left. }
    apply wp_bind.
    eapply wp_weaken; [apply run_once_inv; auto with datatypes|].
    intros [st'|e|] w'; cbn; auto.
    intros (HI' & Hr & Hc).
    eapply wp_weaken.
    + apply IH; [exact HI' | |].
      * intros n Hn. eapply May_mono; [exact Hc|]. auto with datatypes.
      * intros c Hcin comp. apply in_app_or in Hcin as [Hcin|Hcin]; [auto|].
        apply in_map_iff in Hcin as (e & <- & He). eauto.
    + intros [[[st'' pn''] seq]|e|] w''; cbn; auto.
      intros (H1 & H2 & H3 & H4 & H5). repeat split; auto with datatypes. congruence.
Qed.

Lemma gather_inv (children : list string) :
  forall (comp : list string) (w : world),
    Keeps comp w ->
    (forall c, In c children -> forall comp', May c comp') ->
    wp (gather E rid children)
       (fun r w' => match r with
                    | Ok results => List.length results = List.length children
                                    /\ Keeps (children ++ comp) w'
                    | Raise _ => Keeps [] w'
                    | Diverge => False
                    end) w.
Proof.
  induction children as [|child rest IH]; intros comp w HI HD.
  - apply wp_ret. auto.
  - unfold wp. cbn [gather].
    destruct (Keeps_run HI (HD child (or_introl eq_refl) comp)) as [H1 H2].
    pose proof (run_node_returns E rid child w) as Hret.
    destruct (run_node E rid child w) as [w1 [x|e|]]; cbn [fst snd] in *.
    + specialize (IH (child :: comp) w1 (H2 x eq_refl)
                     (fun c Hc => HD c (or_intror Hc))).
      unfold wp in IH.
      destruct (gather E rid rest w1) as [w2 [xs|e|]]; cbn [fst snd] in *; auto.
      destruct IH as [Hlen HI2]. split; [cbn; congruence|].
      eapply Keeps_mono; [|exact HI2]. intros n Hn.
      change (In n (child :: rest ++ comp)) in Hn.
      apply in_or_app. destruct Hn as [->|Hn]; [right; now left|].
      apply in_app_or in Hn as [Hn|Hn]; [now left | right; now right].
    + specialize (IH comp w1 H1 (fun c Hc => HD c (or_intror Hc))).
      unfold wp in IH.
      destruct (gather E rid rest w1) as [w2 [xs|e'|]]; cbn [fst snd] in *;
        [|assumption|contradiction].
      destruct IH as [_ HI2]. eauto using Keeps_nil.
    + congruence.
Qed.

Lemma append_joins_inv (comp : list string) (l : list (string * list string)) :
  forall rdy,
    (forall js, In js l -> In js (join_groups t)) ->
    (forall n, In n rdy -> May n comp) ->
    forall n,
      In n (fold_left (fun rdy' js =>
                         let '(join_node, sources) := js in
                         if all_in sources comp && negb (inb join_node comp)
                         then rdy' ++ [join_node] else rdy') l rdy) ->
      May n comp.
Proof.
  induction l as [|[j srcs] l IH]; intros rdy Hl Hrdy n; cbn [fold_left]; [auto|].
  apply IH; [auto with datatypes|].
  intros x Hx. destruct (all_in srcs comp && negb (inb j comp)) eqn:Hc; [|auto].
  apply in_app_or in Hx as [Hx|[<-|[]]]; [auto|].
  apply andb_true_iff in Hc as [Hall _].
  apply May_join. intros sources Hg s Hs.
  rewrite (get_of_In _ _ _ join_keys (Hl _ (or_introl eq_refl))) in Hg.
  inversion Hg; subst. eapply all_in_spec; eauto.
Qed.

Lemma process_edge_inv (evs : list Event) (node : string) (comp rdy : list string)
      (edge : Edge) :
  (forall n, In n rdy -> May n comp) ->
  forall n, In n (process_edge t evs node comp rdy edge) -> May n comp.
Proof.
  intros Hrdy n. unfold process_edge.
  destruct (match on edge with [] => false | _ => negb (matches evs node edge) end); [auto|].
  destruct (get (to_node edge) (join_groups t)) as [sources|] eqn:Hg.
  - destruct (all_in sources comp) eqn:Hall; cbn [andb]; [|auto].
    destruct (negb _ && negb _); [|auto].
    intros Hn. apply in_app_or in Hn as [Hn|[<-|[]]]; [auto|].
    apply May_join. intros srcs Hg' s Hs. rewrite Hg in Hg'. inversion Hg'; subst.
    eapply all_in_spec; eauto.
  - destruct (negb _ && negb _); [|auto].
    intros Hn. apply in_app_or in Hn as [Hn|[<-|[]]]; [auto|].
    apply May_join. intros srcs Hg'. congruence.
Qed.

Lemma process_edges_inv (evs : list Event) (node : string) (comp : list string)
      (edges : list Edge) :
  forall rdy,
    (forall n, In n rdy -> May n comp) ->
    forall n, In n (fold_left (process_edge t evs node comp) edges rdy) -> May n comp.
Proof.
  induction edges as [|edge edges IH]; intros rdy Hrdy; cbn [fold_left]; [auto|].
  apply IH. now apply process_edge_inv.
Qed.

Lemma in_remove_first (n x : string) (l : list string) :
  In x (remove_first n l) -> In x l.
Proof.
  induction l as [|y l IH]; cbn; [auto|].
  destruct (String.eqb n y); cbn; intuition.
Qed.

Lemma iteration_inv (st : sched) (w : world) :
  good st w ->
  wp (iteration E rid t st)
     (fun r w' => match r with
                  | Ok (st', _) => good st' w'
                  | Raise _ => Keeps [] w'
                  | Diverge => False
                  end) w.
Proof.
  intros [HI HD]. unfold iteration. apply wp_bind.
  eapply wp_weaken; [apply (@scan_inv (ready st) st []); auto; intros c []|].
  intros [[[st1 pn] seq]|e|] w1; cbn beta iota; auto.
  intros (HI1 & Hr1 & Hc1 & Hpn & Hseq).
  assert (forall n, In n (ready st1) -> May n (completed st1)) as HD1.
  { intros n Hn. rewrite Hr1 in Hn. eauto. }
  destruct pn as [|p pn].
  - destruct seq as [node|]; [|apply wp_ret; split; auto].
    destruct (String.eqb node ""); [apply wp_ret; split; auto|].
    apply wp_bind.
    eapply wp_weaken.
    { apply run_once_inv; [exact HI1|]. apply HD1. rewrite Hr1. auto. }
    intros [st2|e|] w2; cbn beta iota; auto.
    intros (HI2 & Hr2 & Hc2).
    apply wp_bind, wp_get_world, wp_ret. split; [exact HI2|].
    cbn [ready with_ready completed].
    apply process_edges_inv.
    intros n Hn. apply in_remove_first in Hn. rewrite Hr2 in Hn. eauto.
  - apply wp_bind.
    eapply wp_weaken; [apply (@gather_inv (p :: pn) (completed st1)); auto|].
    intros [results|e|] w2; cbn beta iota; auto.
    intros [Hlen HI2]. apply wp_ret.
    destruct (completed_fold_complete (combine (p :: pn) results) st1) as [Hrdy Hcomp].
    rewrite map_fst_combine in Hcomp by exact Hlen.
    split; cbn [ready with_ready completed].
    + eapply Keeps_mono; [|exact HI2]. intros n Hn. apply Hcomp in Hn.
      apply in_or_app. tauto.
    + apply append_joins_inv; [auto|].
      intros n Hn. apply filter_In in Hn as [Hn _]. rewrite Hrdy in Hn.
      eapply May_mono; [|apply HD1; exact Hn]. intros x Hx. apply Hcomp. auto.
Qed.

(** Whatever the bound, the loop keeps [Keeps]: on return for the nodes it
    completed, and otherwise at least for none. *)
Lemma loop_inv (fuel : nat) :
  forall (st : sched) (w : world),
    Keeps (completed st) w ->
    (forall n, In n (ready st) -> May n (completed st)) ->
    wp (loop E rid t fuel st)
       (fun r w' => match r with
                    | Ok st' => Keeps (completed st') w'
                    | _ => Keeps [] w'
                    end) w.
Proof.
  induction fuel as [|fuel IH]; intros st w HI HD;
    assert (good st w) as Hgood by (split; assumption); cbn [loop];
    destruct (ready st) as [|n0 rdy] eqn:Hrdy; try (apply wp_ret; exact HI).
  - unfold wp, diverge; cbn. eauto using Keeps_nil.
  - apply wp_bind.
    eapply wp_weaken; [apply iteration_inv; exact Hgood|].
    intros [[st' again]|e|] w'; cbn beta iota; [|auto|contradiction].
    intros [HI' HD']. destruct again; cbn [fst snd].
    + now apply IH.
    + apply wp_ret. exact HI'.
Qed.

End SchedulerInvariant.

(** ** engine.py: the tables built from the edge list *)

Lemma keys_set (A : Type) (k : string) (v : A) (d : dict A) :
  keys (set k v d) = if mem k d then keys d else keys d ++ [k].
Proof.
  unfold mem, keys. induction d as [|[k' v'] d IH]; cbn; [reflexivity|].
  destruct (String.eqb k k') eqn:Hk; cbn.
  - apply String.eqb_eq in Hk. now subst.
  - rewrite IH. now destruct (get k d).
Qed.

Lemma mem_In_keys (A : Type) (k : string) (d : dict A) :
  mem k d = true <-> In k (keys d).
Proof.
  unfold mem, keys. induction d as [|[k' v'] d IH]; cbn; [intuition discriminate|].
  destruct (String.eqb k k') eqn:Hk.
  - apply String.eqb_eq in Hk. intuition.
  - apply String.eqb_neq in Hk. rewrite IH. intuition congruence.
Qed.

Lemma nodup_keys_set (A : Type) (k : string) (v : A) (d : dict A) :
  NoDup (keys d) -> NoDup (keys (set k v d)).
Proof.
  intros Hnd. rewrite keys_set. destruct (mem k d) eqn:Hm; [assumption|].
  apply NoDup_app; [assumption | repeat constructor; intros [] |].
  intros x Hx [<-|[]]. apply mem_In_keys in Hx. congruence.
Qed.

Lemma in_set (A : Type) (k n : string) (v x : A) (d : dict A) :
  In (n, x) (set k v d) -> (n = k /\ x = v) \/ In (n, x) d.
Proof.
  induction d as [|[k' v'] d IH]; cbn.
  - intros [[= <- <-]|[]]. auto.
  - destruct (String.eqb k k'); cbn; intros [[= <- <-]|H]; auto.
    destruct (IH H); auto.
Qed.

Lemma mem_set (A : Type) (k n : string) (v : A) (d : dict A) :
  mem n (set k v d) = true <-> n = k \/ mem n d = true.
Proof.
  unfold mem. destruct (string_dec n k) as [->|Hne].
  - rewrite get_set_same. intuition.
  - rewrite get_set_other by assumption. intuition.
Qed.

Lemma fold_add_edge_inv (P : tables -> Prop) (l : list Edge) :
  (forall t e, In e l -> P t -> P (add_edge t e)) ->
  forall t, P t -> P (fold_left add_edge l t).
Proof.
  induction l as [|e l IH]; intros Hstep t Ht; cbn; [assumption|].
  apply IH; auto with datatypes.
Qed.

Section Tables.
Variable dag : list Edge.

Lemma join_keys_nodup : NoDup (keys (join_groups (build dag))).
Proof.
  unfold build. apply fold_add_edge_inv with (P := fun t => NoDup (keys (join_groups t))).
  - intros t e _ Hnd. unfold add_edge; cbn. destruct (has_join e); [|assumption].
    now apply nodup_keys_set.
  - constructor.
Qed.

(** The edges listed under a node are edges of the graph that leave it. *)
Lemma adj_sound (n : string) (e : Edge) :
  In e (get_default n [] (adj (build dag))) -> In e dag /\ from_node e = n.
Proof.
  unfold build. revert n e.
  apply fold_add_edge_inv
    with (P := fun t => forall n e, In e (get_default n [] (adj t)) -> In e dag /\ from_node e = n).
  - intros t e He IH n x. unfold add_edge, get_default; cbn.
    destruct (string_dec n (from_node e)) as [->|Hne].
    + rewrite get_set_same. intros Hx. apply in_app_or in Hx as [Hx|[<-|[]]]; auto.
    + rewrite get_set_other by assumption. apply IH.
  - intros n e [].
Qed.

(** The source of every edge that declares a join is among the sources
    its target waits for. *)
Lemma join_sources_complete (edge : Edge) :
  In edge dag -> has_join edge = true ->
  In (from_node edge) (get_default (to_node edge) [] (join_groups (build dag))).
Proof.
  intros Hin Hj. unfold build.
  assert (forall l t,
             (In edge l \/ In (from_node edge) (get_default (to_node edge) [] (join_groups t))) ->
             In (from_node edge)
                (get_default (to_node edge) [] (join_groups (fold_left add_edge l t)))) as H.
  { induction l as [|e l IH]; intros t Hor; cbn.
    - destruct Hor as [[]|H]; exact H.
    - apply IH. destruct Hor as [[->|Hl]|Hold].
      + right. unfold add_edge; cbn. rewrite Hj. unfold get_default at 1.
        rewrite get_set_same. apply in_or_app. right. now left.
      + now left.
      + right. unfold add_edge; cbn. destruct (has_join e); [|assumption].
        unfold get_default at 1.
        destruct (string_dec (to_node edge) (to_node e)) as [Heq|Hne].
        * rewrite Heq, get_set_same. apply in_or_app. left. now rewrite Heq in Hold.
        * rewrite get_set_other by assumption. exact Hold. }
  apply H. now left.
Qed.

Lemma in_degree_keys_nodup : NoDup (keys (in_degree (build dag))).
Proof.
  unfold build. apply fold_add_edge_inv with (P := fun t => NoDup (keys (in_degree t))).
  - intros t e _ Hnd. unfold add_edge; cbn [in_degree].
    destruct (mem (from_node e) _); repeat apply nodup_keys_set; assumption.
  - constructor.
Qed.

(** A node some edge joins into has an incoming edge. *)
Lemma join_in_degree (n : string) :
  mem n (join_groups (build dag)) = true ->
  exists k, get n (in_degree (build dag)) = Some k /\ (1 <= k)%nat.
Proof.
  revert n. unfold build.
  apply fold_add_edge_inv
    with (P := fun t => forall n, mem n (join_groups t) = true ->
                                  exists k, get n (in_degree t) = Some k /\ (1 <= k)%nat).
  - intros t e _ IH n. unfold add_edge; cbn [join_groups in_degree].
    set (deg := set (to_node e) (get_default (to_node e) 0 (in_degree t) + 1)%nat
                    (in_degree t)).
    intros Hn.
    assert (exists k, get n deg = Some k /\ (1 <= k)%nat) as (k & Hk & Hle).
    { destruct (string_dec n (to_node e)) as [->|Hne].
      - subst deg. rewrite get_set_same. eexists. split; [reflexivity | lia].
      - subst deg. rewrite get_set_other by assumption. apply IH.
        destruct (has_join e); [|assumption].
        apply mem_set in Hn as [Hn|Hn]; [contradiction | assumption]. }
    destruct (mem (from_node e) deg) eqn:Hf; [eauto|].
    exists k. split; [|assumption]. rewrite get_set_other; [assumption|].
    intros ->. unfold mem in Hf. now rewrite Hk in Hf.
  - intros n. discriminate.
Qed.

(** So it is not among the start nodes. *)
Lemma join_not_start (J : string) :
  mem J (join_groups (build dag)) = true -> ~ In J (start_nodes (build dag)).
Proof.
  intros Hm Hin. destruct (join_in_degree J Hm) as (k & Hk & Hle).
  unfold start_nodes in Hin. apply in_map_iff in Hin as ([n k'] & <- & Hf).
  apply filter_In in Hf as [Hf H0]. cbn in *. apply Nat.eqb_eq in H0. subst k'.
  rewrite (get_of_In _ _ _ in_degree_keys_nodup Hf) in Hk. inversion Hk. lia.
Qed.

(** Every node the scheduler can meet is a key of [in_degree]. *)
Lemma start_in_universe (n : string) :
  In n (start_nodes (build dag)) -> In n (universe (build dag)).
Proof.
  unfold start_nodes, universe, keys. intros H.
  apply in_map_iff in H as (kv & <- & Hf). apply filter_In in Hf as [Hf _].
  now apply in_map.
Qed.

Lemma child_in_universe (e : Edge) :
  In e dag -> In (to_node e) (universe (build dag)).
Proof.
  intros Hin. unfold universe, build.
  assert (forall l t,
             (In e l \/ mem (to_node e) (in_degree t) = true) ->
             mem (to_node e) (in_degree (fold_left add_edge l t)) = true) as H.
  { induction l as [|x l IH]; intros t Hor; cbn.
    - destruct Hor as [[]|H]; exact H.
    - apply IH.
      assert (forall n, n = to_node x \/ mem n (in_degree t) = true ->
                        mem n (in_degree (add_edge t x)) = true) as Hstep.
      { intros n Hn. unfold add_edge; cbn [in_degree].
        destruct (mem (from_node x) _) eqn:Hf; [now apply mem_set|].
        apply mem_set. right. now apply mem_set. }
      destruct Hor as [[->|Hl]|Hold]; [right; apply Hstep; now left | now left |].
      right. apply Hstep. now right. }
  apply mem_In_keys. apply H. now left.
Qed.

Lemma join_in_universe (n : string) (sources : list string) :
  In (n, sources) (join_groups (build dag)) -> In n (universe (build dag)).
Proof.
  intros Hin. unfold universe. apply mem_In_keys.
  destruct (join_in_degree n) as (k & Hk & _).
  - apply mem_In_keys. unfold keys. now apply (in_map fst) in Hin.
  - unfold mem. now rewrite Hk.
Qed.

End Tables.

(** ** engine.py: every event a run of the scheduler appends is its own *)

Lemma length_append (a b : string) :
  String.length (a +s+ b) = (String.length a + String.length b)%nat.
Proof. induction a as [|c a IH]; cbn; [reflexivity | now rewrite IH]. Qed.

Lemma replay_id_fresh_of_parent (rid from_step : string) : replay_id rid from_step <> rid.
Proof.
  unfold replay_id. intros H. apply (f_equal String.length) in H.
  rewrite length_append in H. cbn in H. lia.
Qed.

Section OwnJournal.
Variable E : env.
Variable rid : string.
Variable w0 : world.

Let appended_only := Spec.appended_only rid w0.

Lemma appended_only_refl : appended_only w0.
Proof. split; [exists []; split; [now rewrite app_nil_r | intros e []] | reflexivity]. Qed.

Lemma appended_only_emitted (node ty : string) (d : dict pyval) (w : world) :
  appended_only w -> appended_only (emitted E rid node ty d w).
Proof.
  intros [(tr & Hev & Hid) Hfr]. split.
  - exists (tr ++ [stamp E rid node ty d w]). split.
    + now rewrite events_of_emitted, Hev, app_assoc.
    + intros e He. apply in_app_or in He as [He|[<-|[]]]; auto.
  - intros r Hr. destruct (frame_emitted E rid node ty d w) as (_ & _ & _ & H).
    now rewrite H, Hfr.
Qed.

Lemma appended_only_run_node (node : string) (w : world) :
  appended_only w -> appended_only (fst (run_node E rid node w)).
Proof.
  intros [(tr & Hev & Hid) Hfr].
  destruct (get rid (runs w)) as [run|] eqn:Hrun.
  - destruct (run_node_trace E rid node _ Hrun) as (trn & Ht & Hevn & (_ & _ & _ & Hf)).
    split.
    + exists (tr ++ trn). split; [now rewrite Hevn, Hev, app_assoc|].
      intros e He. apply in_app_or in He as [He|He]; [auto|].
      inversion Ht as [res c h d ty Hc Hh _ _ Hd _|ex c Hc]; subst;
        repeat (destruct He as [<-|He];
                [match goal with
                 | H : is_event _ _ _ ?x |- run_id ?x = _ => exact (proj1 H)
                 end|]);
        destruct He.
    + intros r Hr. now rewrite Hf, Hfr.
  - rewrite (run_node_missing E rid node _ Hrun). now split; [exists tr|].
Qed.

Lemma appended_only_loop (dag : list Edge) (fuel : nat) (st : sched) (w : world) :
  appended_only w -> appended_only (fst (loop E rid (build dag) fuel st w)).
Proof.
  intros H.
  assert (wp (loop E rid (build dag) fuel st)
             (fun r w' => match r with Ok _ => appended_only w' | _ => appended_only w' end) w)
    as L.
  { apply loop_inv with (Keeps := fun _ => appended_only) (May := fun _ _ => True);
      auto using join_keys_nodup.
    intros n c w' Hw' _. split; [|intros _ _]; now apply appended_only_run_node. }
  unfold wp in L. now destruct (snd (loop E rid (build dag) fuel st w)).
Qed.

Lemma wp_try (A : Type) (body : M A) (handler : exn -> M A) Q (w : world) :
  wp body (fun r w' => match r with
                       | Raise e => wp (handler e) Q w'
                       | other => Q other w'
                       end) w ->
  wp (try_except body handler) Q w.
Proof.
  unfold wp, try_except. destruct (body w) as [w' [a|e|]]; cbn; auto.
Qed.

Lemma appended_only_set_status (s : string) (w : world) :
  appended_only w -> appended_only (fst (set_status rid s w)).
Proof.
  unfold set_status, modify. cbn. now destruct (get rid (runs w)).
Qed.

Lemma wp_raise (A : Type) (e : exn) (Q : result A -> world -> Prop) (w : world) :
  Q (Raise e) w -> wp (raise e) Q w.
Proof. exact (fun H => H). Qed.

Lemma appended_only_on_failure (e : exn) (w : world) :
  appended_only w -> wp (on_failure E rid e) (fun _ w' => appended_only w') w.
Proof.
  intros H. unfold on_failure.
  apply wp_bind, wp_modify. apply wp_bind, wp_emit. apply wp_raise.
  apply appended_only_emitted. apply (appended_only_set_status "failed" H).
Qed.

(** Whatever its outcome, [execute_graph] on run [rid] appends events of
    [rid] to the journal of [rid] and touches no other journal. *)
Lemma appended_only_execute_graph (fuel : nat) (w : world) :
  appended_only w -> appended_only (fst (execute_graph E fuel rid w)).
Proof.
  intros H. unfold execute_graph. destruct (get rid (runs w)) as [run|]; [|exact H].
  apply wp_try with (Q := fun _ w' => appended_only w').
  unfold run_graph. apply wp_bind.
  unfold wp at 1, lookup_graph. destruct (get (graph run) (graphs w)) as [g|]; cbn [fst snd].
  - apply wp_bind, wp_modify. apply wp_bind, wp_emit. apply wp_bind.
    apply wp_weaken with (Q := fun _ w' => appended_only w').
    + unfold wp. apply appended_only_loop.
      apply appended_only_emitted. apply (appended_only_set_status "running" H).
    + cbn beta. intros r w1 H1. destruct r as [st|e|]; [| |exact H1].
      * apply wp_bind, wp_modify. apply wp_bind, wp_emit. apply wp_ret.
        apply appended_only_emitted. apply (appended_only_set_status "succeeded" H1).
      * now apply appended_only_on_failure.
  - now apply appended_only_on_failure.
Qed.

End OwnJournal.

(** ** engine.py: replay *)

Lemma prefix_until_firstn (from_step : string) (evs : list Event) :
  forall k, first_at from_step evs k -> prefix_until from_step evs = firstn k evs.
Proof.
  induction evs as [|a evs IH]; intros k [(e & Hk & He) Hfirst].
  - now destruct k.
  - cbn [prefix_until]. destruct (String.eqb (step a) from_step) eqn:Ha.
    + apply String.eqb_eq in Ha. destruct k as [|k]; [reflexivity|].
      exfalso. apply (Hfirst 0%nat a); [lia | reflexivity | assumption].
    + apply String.eqb_neq in Ha. destruct k as [|k].
      * cbn in Hk. inversion Hk; subst. contradiction.
      * cbn [firstn]. f_equal. apply IH. split; [eauto|].
        intros i x Hi Hx. apply (Hfirst (S i) x); [lia | exact Hx].
Qed.

Lemma first_at_lt (from_step : string) (evs : list Event) (k : nat) :
  first_at from_step evs k -> (k < List.length evs)%nat.
Proof.
  intros [(e & Hk & _) _]. apply nth_error_Some. congruence.
Qed.

(** When no event of the parent has step [from_step], the whole
    journal is the prefix. *)
Lemma prefix_until_absent (from_step : string) (evs : list Event) :
  (forall e, In e evs -> step e <> from_step) -> prefix_until from_step evs = evs.
Proof.
  induction evs as [|a evs IH]; intros H; cbn; [reflexivity|].
  destruct (String.eqb (step a) from_step) eqn:Ha.
  - apply String.eqb_eq in Ha. exfalso. apply (H a); auto with datatypes.
  - f_equal. apply IH. auto with datatypes.
Qed.

Section Replay.
Variable E : env.
Variable fuel : nat.
Variables rid from_step : string.

Let child := replay_id rid from_step.

(** The world in which the child starts: its record is in the run store
    and its journal is the copied prefix. *)
Lemma replay_from_unfold (run : Run) (w : world) :
  get rid (runs w) = Some run ->
  exists w2,
    fst (replay_from E fuel rid from_step w) = fst (execute_graph E fuel child w2)
    /\ events_of child w2 = prefix_until from_step (events_of rid w)
    /\ (forall r, r <> child -> get r (events w2) = get r (events w))
    /\ get child (runs w2)
       = Some {| id := child; graph := graph run; inputs := inputs run;
                 status := "pending"; created_at := utcnow E (clock w);
                 parent_run := Some rid |}.
Proof.
  intros Hrun. unfold replay_from, bind, lookup_run. rewrite Hrun. cbn [now modify].
  fold child.
  match goal with |- context [execute_graph E fuel child ?w2] => exists w2 end.
  split; [|split; [|split]].
  - now destruct (execute_graph E fuel child _) as [w' [u|e|]].
  - unfold events_of at 1, get_default. cbn. now rewrite get_set_same.
  - intros r Hr. cbn. now apply get_set_other.
  - cbn. now rewrite get_set_same.
Qed.

(** The id [replay_from] returns is a function of its two arguments. *)
Lemma replay_from_id (w : world) :
  match snd (replay_from E fuel rid from_step w) with
  | Ok new_run_id => new_run_id = replay_id rid from_step
  | _ => True
  end.
Proof.
  unfold replay_from, bind, lookup_run. destruct (get rid (runs w)); [|exact I].
  cbn [now modify ret]. now destruct (execute_graph E fuel _ _) as [w' [u|e|]].
Qed.

(** C6: with [k] the index of the first parent event whose step is
    [from_step], the first [k] events of the child's journal are the
    first [k] events of the parent's; everything after them was emitted
    by the child run itself; and the journal of every other run, the
    parent's included, is as it was. *)
Theorem replay_prefix_law (run : Run) (w : world) (k : nat) :
  get rid (runs w) = Some run ->
  first_at from_step (events_of rid w) k ->
  let w' := fst (replay_from E fuel rid from_step w) in
  firstn k (events_of child w') = firstn k (events_of rid w)
  /\ (exists tr, events_of child w' = firstn k (events_of rid w) ++ tr
                 /\ forall e, In e tr -> run_id e = child)
  /\ events_of rid w' = events_of rid w
  /\ forall r, r <> child -> get r (events w') = get r (events w).
Proof.
  intros Hrun Hk w'.
  destruct (@replay_from_unfold run w Hrun) as (w2 & Hfst & Hpre & Hframe & _).
  subst w'. rewrite Hfst.
  destruct (appended_only_execute_graph E fuel (appended_only_refl child w2))
    as [(tr & Hev & Hown) Hothers].
  rewrite Hpre, (prefix_until_firstn Hk) in Hev.
  assert (forall r, r <> child ->
                    get r (events (fst (execute_graph E fuel child w2))) = get r (events w))
    as Hget by (intros r Hr; now rewrite Hothers, Hframe).
  split; [|split; [|split]].
  - rewrite Hev. rewrite firstn_app, firstn_firstn, Nat.min_id.
    rewrite firstn_length_le by (apply Nat.lt_le_incl, (first_at_lt Hk)).
    now rewrite Nat.sub_diag, app_nil_r.
  - eauto.
  - unfold events_of, get_default. rewrite Hget; [reflexivity|].
    intros Heq. symmetry in Heq. now apply replay_id_fresh_of_parent in Heq.
  - exact Hget.
Qed.

End Replay.

(** ** engine.py: the join barrier *)

Lemma done_in_app (tr tr' : list Event) (n : string) :
  done_in tr n -> done_in (tr ++ tr') n.
Proof. intros (d & Hd & H). exists d. split; [apply in_or_app; now left | exact H]. Qed.

Lemma join_respected_app (J : string) (S : list string) (tr tr' : list Event) :
  join_respected J S tr ->
  (forall pre e post, tr' = pre ++ e :: post -> step e = J -> type e = "context_compiled" ->
                      forall s, In s S -> done_in (tr ++ pre) s) ->
  join_respected J S (tr ++ tr').
Proof.
  intros Hold Hnew pre e post Heq Hs Hty s HsS.
  apply app_eq_app in Heq as (l & [[H1 H2]|[H1 H2]]).
  - destruct l as [|x l].
    + cbn in H2. rewrite app_nil_r in H1. subst pre.
      rewrite <- (app_nil_r tr). eapply (Hnew [] e post); eauto.
    + cbn in H2. inversion H2; subst. eapply Hold; eauto.
  - subst pre. eapply Hnew; eauto.
Qed.

Lemma own_types_not_dispatch (node ty : string) :
  In ty (own_types node) -> ty <> "context_compiled".
Proof.
  unfold own_types.
  repeat match goal with |- context [String.eqb node ?s] => destruct (String.eqb node s) end;
    cbn; intros H; repeat (destruct H as [<-|H]; [discriminate|]); destruct H.
Qed.

(** Among the events of one node invocation only the first announces
    the dispatch. *)
Lemma node_trace_dispatch (rid node : string) (r : result (dict pyval)) (trn : list Event)
      (pre post : list Event) (e : Event) :
  node_trace rid node r trn -> trn = pre ++ e :: post -> type e = "context_compiled" ->
  pre = [] /\ step e = node.
Proof.
  intros Ht Heq Hty.
  destruct Ht as [res c h d ty Hc Hh Hown _ Hd _|ex c Hc].
  - destruct pre as [|a [|b [|x pre]]]; cbn in Heq; inversion Heq; subst.
    + split; [reflexivity | apply Hc].
    + exfalso. destruct Hh as (_ & _ & Hty'). rewrite Hty in Hty'. subst ty.
      now apply own_types_not_dispatch in Hown.
    + exfalso. destruct Hd as (_ & _ & Hty'). congruence.
    + now destruct pre.
  - destruct pre as [|a pre]; cbn in Heq; inversion Heq; subst.
    + split; [reflexivity | apply Hc].
    + now destruct pre.
Qed.

Lemma node_trace_done (rid node : string) (res : dict pyval) (trn : list Event) :
  node_trace rid node (Ok res) trn -> done_in trn node.
Proof.
  intros Ht. inversion Ht as [res' c h d ty Hc Hh Hown _ Hd _|]; subst.
  exists d. split; [cbn; auto | split; apply Hd].
Qed.

Section JoinBarrier.
Variable E : env.
Variable rid : string.
Variable dag : list Edge.
Variable J : string.
Variable j0 : list Event.

Let t := build dag.
Let S := get_default J [] (join_groups t).
Let Inv := journal_inv rid j0 J S.
Let May := may_run J S.

Hypothesis no_fanout_into_J :
  forall e, In e dag -> to_node e = J ->
            is_fanout (get_default (from_node e) [] (adj t)) = false.

Lemma Inv_mono (c c' : list string) (w : world) :
  (forall n, In n c' -> In n c) -> Inv c w -> Inv c' w.
Proof. intros Hc (tr & H1 & H2 & H3). exists tr. auto. Qed.

Lemma Inv_run (n : string) (c : list string) (w : world) :
  Inv c w -> May n c ->
  Inv c (fst (run_node E rid n w))
  /\ forall res, snd (run_node E rid n w) = Ok res -> Inv (n :: c) (fst (run_node E rid n w)).
Proof.
  intros (tr & Hev & Hjoin & Hdone) Hmay.
  destruct (get rid (runs w)) as [run|] eqn:Hrun.
  - destruct (run_node_trace E rid n _ Hrun) as (trn & Ht & Hevn & _).
    assert (join_respected J S (tr ++ trn)) as Hjoin'.
    { apply join_respected_app; [exact Hjoin|].
      intros pre e post Heq Hs Hty s HsS.
      destruct (@node_trace_dispatch _ _ _ _ pre post e Ht Heq Hty) as [-> Hn].
      rewrite app_nil_r. apply Hdone. apply Hmay; congruence. }
    split.
    + exists (tr ++ trn). split; [now rewrite Hevn, Hev, app_assoc|].
      split; [exact Hjoin'|]. intros x Hx. apply done_in_app. auto.
    + intros res Hres. exists (tr ++ trn). split; [now rewrite Hevn, Hev, app_assoc|].
      split; [exact Hjoin'|]. intros x [<-|Hx].
      * rewrite Hres in Ht. apply node_trace_done in Ht.
        destruct Ht as (d & Hd & H). exists d. split; [apply in_or_app; now right | exact H].
      * apply done_in_app. auto.
  - rewrite (run_node_missing E rid n _ Hrun). cbn. split; [exists tr; auto | discriminate].
Qed.

Lemma May_join (n : string) (c : list string) :
  (forall sources, get n (join_groups t) = Some sources -> forall s, In s sources -> In s c) ->
  May n c.
Proof.
  intros H -> s Hs. subst S. unfold get_default in Hs.
  destruct (get J (join_groups t)) as [sources|] eqn:Hg; [eauto | destruct Hs].
Qed.

Lemma May_child (n : string) (e : Edge) (c : list string) :
  is_fanout (get_default n [] (adj t)) = true ->
  In e (get_default n [] (adj t)) -> May (to_node e) c.
Proof.
  intros Hf He HJ. exfalso.
  destruct (adj_sound dag n e He) as [Hin Hfrom].
  specialize (no_fanout_into_J e Hin HJ). rewrite Hfrom in no_fanout_into_J. congruence.
Qed.

Lemma May_start (n : string) : In n (start_nodes t) -> May n [].
Proof.
  intros Hn -> s Hs. exfalso. subst S. unfold get_default in Hs.
  destruct (get J (join_groups t)) as [sources|] eqn:Hg; [|destruct Hs].
  apply (join_not_start dag J); [|exact Hn]. fold t. unfold mem. now rewrite Hg.
Qed.

Lemma Inv_system (ty : string) (d : dict pyval) (c : list string) (w : world) :
  ty <> "context_compiled" -> Inv c w -> Inv c (emitted E rid "system" ty d w).
Proof.
  intros Hty (tr & Hev & Hjoin & Hdone).
  exists (tr ++ [stamp E rid "system" ty d w]). split; [|split].
  - now rewrite events_of_emitted, Hev, app_assoc.
  - apply join_respected_app; [exact Hjoin|].
    intros pre e post Heq _ Hty'. exfalso.
    destruct pre as [|a pre]; cbn in Heq; inversion Heq; subst.
    + now cbn in Hty'.
    + now destruct pre.
  - intros n Hn. apply done_in_app. auto.
Qed.

Lemma Inv_set_status (s : string) (c : list string) (w : world) :
  Inv c w -> Inv c (fst (set_status rid s w)).
Proof.
  unfold set_status, modify. cbn. now destruct (get rid (runs w)).
Qed.

Lemma Inv_on_failure (e : exn) (c : list string) (w : world) :
  Inv c w -> wp (on_failure E rid e) (fun _ w' => Inv [] w') w.
Proof.
  intros H. unfold on_failure.
  apply wp_bind, wp_modify. apply wp_bind, wp_emit. apply wp_raise.
  apply Inv_system; [discriminate|].
  apply (Inv_set_status "failed"). eapply Inv_mono; [|exact H]. intros n [].
Qed.

Lemma Inv_loop (fuel : nat) (w : world) :
  Inv [] w ->
  wp (loop E rid t fuel {| ready := start_nodes t; completed := []; completed_nodes := [] |})
     (fun r w' => match r with Ok st' => Inv (completed st') w' | _ => Inv [] w' end) w.
Proof.
  intros H.
  apply loop_inv with (Keeps := Inv) (May := May).
  - exact Inv_mono.
  - intros n c c' Hc Hm HJ s Hs. apply Hc. now apply Hm.
  - exact May_join.
  - exact May_child.
  - exact Inv_run.
  - apply join_keys_nodup.
  - exact H.
  - exact May_start.
Qed.

End JoinBarrier.

Lemma journal_inv_execute_graph (E : env) (fuel : nat) (rid : string) (w : world)
      (run : Run) (g : Graph) (J : string) :
  get rid (runs w) = Some run ->
  get (graph run) (graphs w) = Some g ->
  (forall e, In e (dag g) -> to_node e = J ->
             is_fanout (get_default (from_node e) [] (adj (build (dag g)))) = false) ->
  journal_inv rid (events_of rid w) J (get_default J [] (join_groups (build (dag g)))) []
              (fst (execute_graph E fuel rid w)).
Proof.
  intros Hrun Hg Hno.
  set (S := get_default J [] (join_groups (build (dag g)))).
  assert (journal_inv rid (events_of rid w) J S [] w) as H0.
  { exists []. split; [now rewrite app_nil_r|]. split; [|intros n []].
    intros pre e post Heq. now destruct pre. }
  unfold execute_graph. rewrite Hrun.
  apply wp_try with (Q := fun _ w' => journal_inv rid (events_of rid w) J S [] w').
  unfold run_graph. apply wp_bind.
  unfold wp at 1, lookup_graph. rewrite Hg. cbn [fst snd].
  apply wp_bind, wp_modify. apply wp_bind, wp_emit. apply wp_bind.
  eapply wp_weaken.
  - apply Inv_loop; [exact Hno|].
    apply Inv_system; [discriminate|]. apply Inv_set_status. exact H0.
  - cbn beta. intros r w1 H1. destruct r as [st|e|]; [| |exact H1].
    + apply wp_bind, wp_modify. apply wp_bind, wp_emit. apply wp_ret.
      apply Inv_system; [discriminate|]. apply Inv_set_status.
      eapply Inv_mono; [|exact H1]. intros n [].
    + eapply Inv_on_failure; exact H1.
Qed.

(** C5 (as amended): let [J] be a node that no fan-out dispatches as a
    child, i.e. every edge into [J] leaves a node whose first outgoing
    edge is not marked parallel.  Then in the events one execution of the
    graph appends, every dispatch of [J] (its [context_compiled] event)
    comes after a [node_done] event of the source of every edge into [J]
    that declares [join == "all"]. *)
Theorem join_barrier (E : env) (fuel : nat) (rid : string) (w : world)
        (run : Run) (g : Graph) (J : string) :
  get rid (runs w) = Some run ->
  get (graph run) (graphs w) = Some g ->
  (forall e, In e (dag g) -> to_node e = J ->
             is_fanout (get_default (from_node e) [] (adj (build (dag g)))) = false) ->
  exists tr,
    events_of rid (fst (execute_graph E fuel rid w)) = events_of rid w ++ tr
    /\ forall edge, In edge (dag g) -> to_node edge = J -> join edge = Some "all" ->
       forall pre e post,
         tr = pre ++ e :: post -> step e = J -> type e = "context_compiled" ->
         done_in pre (from_node edge).
Proof.
  intros Hrun Hg Hno.
  destruct (@journal_inv_execute_graph E fuel rid w run g J Hrun Hg Hno)
    as (tr & Hev & Hjoin & _).
  exists tr. split; [exact Hev|].
  intros edge Hin Hto Hall pre e post Heq Hs Hty.
  eapply Hjoin; eauto.
  rewrite <- Hto. apply join_sources_complete; [exact Hin|].
  unfold has_join. now rewrite Hall.
Qed.

(** ** engine.py: the scheduler loop terminates *)

Lemma filter_length_le (A : Type) (f g : A -> bool) (l : list A) :
  (forall x, In x l -> f x = true -> g x = true) ->
  (List.length (filter f l) <= List.length (filter g l))%nat.
Proof.
  induction l as [|a l IH]; intros H; cbn; [lia|].
  specialize (IH (fun x Hx => H x (or_intror Hx))).
  destruct (f a) eqn:Hf.
  - rewrite (H a (or_introl eq_refl) Hf). cbn. lia.
  - destruct (g a); cbn; lia.
Qed.

Lemma filter_length_lt (A : Type) (f g : A -> bool) (l : list A) (a : A) :
  (forall x, In x l -> f x = true -> g x = true) ->
  In a l -> f a = false -> g a = true ->
  (List.length (filter f l) < List.length (filter g l))%nat.
Proof.
  induction l as [|b l IH]; intros H Ha Hf Hg; [destruct Ha|].
  cbn. destruct Ha as [->|Ha].
  - rewrite Hf, Hg. cbn.
    pose proof (filter_length_le f g l (fun x Hx => H x (or_intror Hx))). lia.
  - specialize (IH (fun x Hx => H x (or_intror Hx)) Ha Hf Hg).
    destruct (f b) eqn:Hfb.
    + rewrite (H b (or_introl eq_refl) Hfb). cbn. lia.
    + destruct (g b); cbn; lia.
Qed.

Lemma filter_none (A : Type) (f : A -> bool) (l : list A) :
  (forall x, In x l -> f x = false) -> filter f l = [].
Proof.
  induction l as [|a l IH]; intros H; cbn; [reflexivity|].
  rewrite (H a (or_introl eq_refl)). apply IH. auto with datatypes.
Qed.

Section Measure.
Variable t : tables.

Lemma pending_le (st st' : sched) :
  (forall x, In x (completed st) -> In x (completed st')) ->
  (pending t st' <= pending t st)%nat.
Proof.
  intros H. unfold pending. apply filter_length_le.
  intros x _ Hx. apply negb_true_iff in Hx. apply negb_true_iff.
  apply inb_not_In in Hx. apply inb_not_In. auto.
Qed.

Lemma pending_lt (st st' : sched) (n : string) :
  (forall x, In x (completed st) -> In x (completed st')) ->
  In n (universe t) -> ~ In n (completed st) -> In n (completed st') ->
  (pending t st' < pending t st)%nat.
Proof.
  intros H Hu Hn Hn'. unfold pending. apply filter_length_lt with (a := n); auto.
  - intros x _ Hx. apply negb_true_iff in Hx. apply negb_true_iff.
    apply inb_not_In in Hx. apply inb_not_In. auto.
  - apply negb_false_iff. now apply inb_In.
  - apply negb_true_iff. now apply inb_not_In.
Qed.

Lemma stale_fresh (st : sched) :
  (forall n, In n (ready st) -> ~ In n (completed st)) -> stale st = 0%nat.
Proof.
  intros H. unfold stale. rewrite filter_none; [reflexivity|].
  intros x Hx. apply inb_not_In. auto.
Qed.

End Measure.

Section Progress.
Variable E : env.
Variable rid : string.
Variable dag : list Edge.

Let t := build dag.
Let U := universe t.

Lemma run_once_shape (node : string) (st : sched) (w : world) :
  wp (run_once E rid node st)
     (fun r w' => match r with
                  | Ok st' => ready st' = ready st
                              /\ (forall x, In x (completed st') <-> x = node \/ In x (completed st))
                              /\ (In node (completed st) -> st' = st)
                  | Raise _ => True
                  | Diverge => False
                  end) w.
Proof.
  unfold wp, run_once, bind, ret. destruct (inb node (completed st)) eqn:Hn; cbn.
  - apply inb_In in Hn. repeat split; auto. intros [->|H]; auto.
  - pose proof (run_node_returns E rid node w) as Hret.
    destruct (run_node E rid node w) as [w' [res|e|]]; cbn in *; [|exact I|congruence].
    split; [reflexivity|]. split; [intros x; apply in_add|].
    intros H. apply inb_not_In in Hn. contradiction.
Qed.

Lemma scan_shape (nodes : list string) :
  forall (st : sched) (pn : list string) (w : world),
    wp (scan E rid t nodes st pn)
       (fun r w' =>
          match r with
          | Ok (st1, pn1, seq) =>
              ready st1 = ready st
              /\ (forall x, In x (completed st) -> In x (completed st1))
              /\ (exists extra, pn1 = pn ++ extra)
              /\ match nodes with
                 | [] => st1 = st /\ pn1 = pn /\ seq = None
                 | node :: _ =>
                     if is_fanout (get_default node [] (adj t))
                     then In node (completed st1) /\ pn1 <> []
                     else st1 = st /\ pn1 = pn /\ seq = Some node
                 end
          | Raise _ => True
          | Diverge => False
          end) w.
Proof.
  induction nodes as [|node rest IH]; intros st pn w; cbn [scan].
  - apply wp_ret. repeat split; auto. exists []. now rewrite app_nil_r.
  - destruct (is_fanout (get_default node [] (adj t))) eqn:Hf.
    2: { apply wp_ret. repeat split; auto. exists []. now rewrite app_nil_r. }
    apply wp_bind. eapply wp_weaken; [apply run_once_shape|].
    intros [st'|e|] w'; cbn beta iota; auto.
    intros (Hr & Hc & _).
    eapply wp_weaken; [apply IH|].
    intros [[[st1 pn1] seq]|e|] w1; cbn beta iota; auto.
    intros (Hr1 & Hc1 & (extra & Hpn) & _).
    split; [congruence|]. split; [|split].
    + intros x Hx. apply Hc1, Hc. now right.
    + exists (map to_node (get_default node [] (adj t)) ++ extra).
      now rewrite Hpn, app_assoc.
    + split; [apply Hc1, Hc; now left|].
      rewrite Hpn. destruct (get_default node [] (adj t)) as [|e0 es]; [discriminate|].
      now destruct pn.
Qed.

Lemma gather_shape (children : list string) (w : world) :
  wp (gather E rid children)
     (fun r w' => match r with
                  | Ok results => List.length results = List.length children
                  | Raise _ => True
                  | Diverge => False
                  end) w.
Proof.
  revert w. induction children as [|child rest IH]; intros w; [reflexivity|].
  unfold wp. cbn [gather].
  pose proof (run_node_returns E rid child w) as Hret.
  destruct (run_node E rid child w) as [w1 [x|e|]]; cbn [fst snd] in *; [| |congruence].
  - specialize (IH w1). unfold wp in IH.
    destruct (gather E rid rest w1) as [w2 [xs|e|]]; cbn [fst snd] in *; auto.
    cbn. congruence.
  - specialize (IH w1). unfold wp in IH.
    now destruct (gather E rid rest w1) as [w2 [xs|e'|]].
Qed.

Lemma append_joins_fresh (comp : list string) (l : list (string * list string)) :
  forall rdy,
    (forall js, In js l -> In js (join_groups t)) ->
    (forall n, In n rdy -> ~ In n comp /\ In n U) ->
    forall n,
      In n (fold_left (fun rdy' js =>
                         let '(join_node, sources) := js in
                         if all_in sources comp && negb (inb join_node comp)
                         then rdy' ++ [join_node] else rdy') l rdy) ->
      ~ In n comp /\ In n U.
Proof.
  induction l as [|[j srcs] l IH]; intros rdy Hl Hrdy n; cbn [fold_left]; [auto|].
  apply IH; [auto with datatypes|].
  intros x Hx. destruct (all_in srcs comp && negb (inb j comp)) eqn:Hc; [|auto].
  apply in_app_or in Hx as [Hx|[<-|[]]]; [auto|].
  apply andb_true_iff in Hc as [_ Hj]. apply negb_true_iff, inb_not_In in Hj.
  split; [exact Hj|]. eapply join_in_universe. apply Hl. now left.
Qed.

(** What the sequential step adds to [ready] is a child of the node,
    not completed. *)
Lemma process_edges_fresh (evs : list Event) (node : string) (comp : list string)
      (edges : list Edge) :
  forall rdy,
    (forall e, In e edges -> In (to_node e) U) ->
    exists added,
      fold_left (process_edge t evs node comp) edges rdy = rdy ++ added
      /\ forall n, In n added -> ~ In n comp /\ In n U.
Proof.
  induction edges as [|edge edges IH]; intros rdy HU; cbn [fold_left].
  - exists []. split; [now rewrite app_nil_r | intros n []].
  - assert (exists one, process_edge t evs node comp rdy edge = rdy ++ one
                        /\ forall n, In n one -> ~ In n comp /\ In n U) as (one & -> & Hone).
    { unfold process_edge.
      assert (forall b : bool,
                 exists one, (if b && negb (inb (to_node edge) rdy)
                                   && negb (inb (to_node edge) comp)
                              then rdy ++ [to_node edge] else rdy) = rdy ++ one
                             /\ forall n, In n one -> ~ In n comp /\ In n U) as Hb.
      { intros b. destruct (b && negb (inb (to_node edge) rdy)
                            && negb (inb (to_node edge) comp)) eqn:Hc.
        - exists [to_node edge]. split; [reflexivity|]. intros n [<-|[]].
          apply andb_true_iff in Hc as [_ Hc]. apply negb_true_iff, inb_not_In in Hc.
          split; [exact Hc | apply HU; now left].
        - exists []. split; [now rewrite app_nil_r | intros n []]. }
      destruct (match on edge with [] => false | _ => negb (matches evs node edge) end).
      - exists []. split; [now rewrite app_nil_r | intros n []].
      - destruct (get (to_node edge) (join_groups t)) as [sources|].
        + apply Hb.
        + apply (Hb true). }
    destruct (IH (rdy ++ one) (fun e He => HU e (or_intror He))) as (more & -> & Hmore).
    exists (one ++ more). split; [now rewrite app_assoc|].
    intros n Hn. apply in_app_or in Hn as [Hn|Hn]; auto.
Qed.

(** Every pass that does not leave the loop lowers the measure. *)
Lemma iteration_progress (st : sched) (w : world) :
  (forall n, In n (ready st) -> In n U) ->
  wp (iteration E rid t st)
     (fun r w' =>
        match r with
        | Ok (st', true) =>
            (forall n, In n (ready st') -> In n U)
            /\ ((pending t st' < pending t st)%nat
                \/ (pending t st' <= pending t st /\ stale st' < stale st)%nat)
        | Ok (_, false) => True
        | Raise _ => True
        | Diverge => False
        end) w.
Proof.
  intros HU. unfold iteration. apply wp_bind.
  eapply wp_weaken; [apply scan_shape|].
  intros [[[st1 pn] seq]|e|] w1; cbn beta iota; auto.
  intros (Hr1 & Hc1 & _ & Hshape).
  destruct pn as [|p pn].
  - (* the sequential step *)
    destruct (ready st) as [|node rest] eqn:Hready.
    { destruct Hshape as (_ & _ & ->). now apply wp_ret. }
    destruct (is_fanout (get_default node [] (adj t))); [now destruct Hshape|].
    destruct Hshape as (-> & _ & ->).
    destruct (String.eqb node "") eqn:Hempty; [now apply wp_ret|].
    apply wp_bind. eapply wp_weaken; [apply run_once_shape|].
    intros [st2|e|] w2; cbn beta iota; auto.
    intros (Hr2 & Hc2 & Hsame).
    apply wp_bind, wp_get_world, wp_ret.
    rewrite Hr2, Hready. cbn [remove_first]. rewrite String.eqb_refl.
    destruct (process_edges_fresh (events_of rid w2) node (completed st2)
                (get_default node [] (adj t)) rest) as (added & Hfold & Hadded).
    { intros e He. apply child_in_universe. now apply (adj_sound dag node e). }
    rewrite Hfold.
    split.
    + cbn [ready with_ready]. intros n Hn. apply in_app_or in Hn as [Hn|Hn].
      * apply HU. now right.
      * now apply Hadded.
    + destruct (in_dec string_dec node (completed st)) as [Hdone|Hnew].
      * right. rewrite (Hsame Hdone). split; [apply Nat.le_refl|].
        unfold stale. cbn [ready with_ready completed]. rewrite Hready.
        rewrite filter_app, length_app. cbn [filter].
        assert (inb node (completed st) = true) as -> by now apply inb_In.
        rewrite (filter_none (fun n => inb n (completed st)) added).
        -- cbn. lia.
        -- intros x Hx. apply inb_not_In. rewrite <- (Hsame Hdone). now apply Hadded.
      * left. apply pending_lt with (n := node); cbn [completed with_ready].
        -- intros x Hx. apply Hc2. now right.
        -- apply HU. now left.
        -- exact Hnew.
        -- apply Hc2. now left.
  - (* a parallel batch *)
    destruct (ready st) as [|node rest] eqn:Hready; [now destruct Hshape|].
    destruct (is_fanout (get_default node [] (adj t))) eqn:Hf;
      [|now destruct Hshape as (_ & [=] & _)].
    destruct Hshape as [Hnode _].
    apply wp_bind. eapply wp_weaken; [apply gather_shape|].
    intros [results|e|] w2; cbn beta iota; auto.
    intros Hlen. apply wp_ret.
    destruct (completed_fold_complete (combine (p :: pn) results) st1) as [Hrdy Hcomp].
    rewrite map_fst_combine in Hcomp by exact Hlen.
    set (st2 := fold_left (fun s nr => complete (fst nr) (snd nr) s)
                          (combine (p :: pn) results) st1) in *.
    assert (forall n, In n (ready (with_ready
               (append_joins t (completed st2)
                  (filter (fun n => negb (inb n (p :: pn)) && negb (inb n (completed st2)))
                          (ready st2))) st2)) ->
                      ~ In n (completed st2) /\ In n U) as Hfresh.
    { cbn [ready with_ready]. apply append_joins_fresh; [auto|].
      intros n Hn. apply filter_In in Hn as [Hn Hb].
      apply andb_true_iff in Hb as [_ Hb]. apply negb_true_iff, inb_not_In in Hb.
      split; [exact Hb|]. apply HU. rewrite <- Hr1, <- Hrdy. exact Hn. }
    split; [intros n Hn; now apply Hfresh|].
    assert (forall x, In x (completed st) -> In x (completed st2)) as Hmono
        by (intros x Hx; apply Hcomp; right; now apply Hc1).
    destruct (in_dec string_dec node (completed st)) as [Hdone|Hnew].
    + right. split; [now apply pending_le|].
      rewrite stale_fresh by (intros n Hn; now apply Hfresh).
      unfold stale. rewrite Hready. cbn [filter].
      assert (inb node (completed st) = true) as -> by now apply inb_In.
      cbn. lia.
    + left. apply pending_lt with (n := node); cbn [completed with_ready]; auto.
      * apply HU. now left.
      * apply Hcomp. now right.
Qed.

(** With enough passes allowed, the loop ends. *)
Lemma loop_terminates (st : sched) (w : world) :
  (forall n, In n (ready st) -> In n U) ->
  exists fuel, snd (loop E rid t fuel st w) <> Diverge.
Proof.
  remember (pending t st) as c eqn:Hc. revert st w Hc.
  induction c as [c IHc] using lt_wf_ind. intros st w Hc.
  remember (stale st) as d eqn:Hd. revert st w Hc Hd.
  induction d as [d IHd] using lt_wf_ind. intros st w Hc Hd HU.
  pose proof (iteration_progress st w HU) as Hstep. unfold wp in Hstep.
  destruct (ready st) as [|n0 rdy] eqn:Hready.
  - exists 0%nat. cbn [loop]. rewrite Hready. discriminate.
  - destruct (iteration E rid t st w) as [w' [[st' again]|e|]] eqn:Hit;
      cbn [fst snd] in Hstep; [| |contradiction].
    + destruct again.
      * destruct Hstep as [HU' [Hlt|[Hle Hlt]]].
        -- destruct (IHc (pending t st') ltac:(lia) st' w' eq_refl HU') as [fuel Hfuel].
           exists (S fuel). cbn [loop]. rewrite Hready. unfold bind. now rewrite Hit.
        -- assert (pending t st' = c \/ (pending t st' < c)%nat) as [Heq|Hlt'] by lia.
           ++ destruct (IHd (stale st') ltac:(lia) st' w' (eq_sym Heq) eq_refl HU')
                as [fuel Hfuel].
              exists (S fuel). cbn [loop]. rewrite Hready. unfold bind. now rewrite Hit.
           ++ destruct (IHc (pending t st') Hlt' st' w' eq_refl HU') as [fuel Hfuel].
              exists (S fuel). cbn [loop]. rewrite Hready. unfold bind. now rewrite Hit.
      * exists 1%nat. cbn [loop]. rewrite Hready. unfold bind. rewrite Hit. discriminate.
    + exists 1%nat. cbn [loop]. rewrite Hready. unfold bind. rewrite Hit. discriminate.
Qed.

End Progress.

Section Termination.
Variable E : env.
Variable rid : string.

Lemma loop_more_fuel (t : tables) (fuel : nat) :
  forall (st : sched) (w : world),
    snd (loop E rid t fuel st w) <> Diverge ->
    forall k, loop E rid t (fuel + k) st w = loop E rid t fuel st w.
Proof.
  induction fuel as [|fuel IH]; intros st w Hret k.
  - destruct (ready st) as [|n0 rdy] eqn:Hr.
    + destruct k; cbn [Nat.add loop]; now rewrite Hr.
    + exfalso. apply Hret. cbn [loop]. now rewrite Hr.
  - cbn [Nat.add loop] in *. destruct (ready st); [reflexivity|].
    unfold bind in *. destruct (iteration E rid t st w) as [w' [[st' again]|e|]]; auto.
    destruct again; cbn [fst snd] in *; auto.
Qed.

Lemma run_graph_unfold (fuel : nat) (run : Run) (g : Graph) (w : world) :
  get (graph run) (graphs w) = Some g ->
  run_graph E fuel rid run w
  = match loop E rid (build (dag g)) fuel (initial g) (started E rid g w) with
    | (w', Ok st) =>
        (emitted E rid "system" "run_completed"
                 [("completed_nodes", PyList (map PyStr (completed st)))]
                 (fst (set_status rid "succeeded" w')), Ok tt)
    | (w', Raise e) => (w', Raise e)
    | (w', Diverge) => (w', Diverge)
    end.
Proof.
  intros Hg. unfold run_graph, bind, lookup_graph. rewrite Hg.
  change (set_status rid "running" w) with (fst (set_status rid "running" w), Ok tt).
  cbn iota. rewrite emit_event_run. fold (started E rid g w). fold (initial g).
  destruct (loop E rid (build (dag g)) fuel (initial g) (started E rid g w))
    as [w' [st|e|]]; reflexivity.
Qed.

(** For every run and every state of the stores there is a bound on the
    loop with which [execute_graph] comes back, returning or raising. *)
Theorem execute_graph_terminates (w : world) :
  exists fuel, snd (execute_graph E fuel rid w) <> Diverge.
Proof.
  unfold execute_graph. destruct (get rid (runs w)) as [run|]; [|exists 0%nat; discriminate].
  destruct (get (graph run) (graphs w)) as [g|] eqn:Hg.
  - destruct (loop_terminates E rid (dag g) (initial g) (started E rid g w)) as [fuel Hfuel].
    { intros n Hn. now apply start_in_universe. }
    exists fuel. unfold try_except. rewrite (@run_graph_unfold fuel run g w Hg).
    destruct (loop E rid (build (dag g)) fuel (initial g) (started E rid g w))
      as [w' [st|e|]]; cbn in *; congruence.
  - exists 0%nat. unfold try_except, run_graph, bind, lookup_graph. rewrite Hg. discriminate.
Qed.

(** A larger bound changes nothing once the call comes back. *)
Theorem execute_graph_more_fuel (fuel : nat) (w : world) :
  snd (execute_graph E fuel rid w) <> Diverge ->
  forall k, execute_graph E (fuel + k) rid w = execute_graph E fuel rid w.
Proof.
  unfold execute_graph. destruct (get rid (runs w)) as [run|]; [|reflexivity].
  destruct (get (graph run) (graphs w)) as [g|] eqn:Hg.
  - unfold try_except. intros Hret k. rewrite !(@run_graph_unfold _ run g w Hg) in *.
    rewrite loop_more_fuel; [reflexivity|].
    destruct (loop E rid (build (dag g)) fuel (initial g) (started E rid g w))
      as [w' [st|e|]]; cbn in *; congruence.
  - intros _ k. unfold try_except, run_graph, bind, lookup_graph. now rewrite Hg.
Qed.

End Termination.

(** ** The properties on concrete runs *)

Section Concrete.
Import Demo.
Local Open Scope Z_scope.

(** C1, as stated, fails: with the budget of the registered profile set
    to 10 and nothing to trim, the total is the 17 tokens of
    policy_docs. *)
Lemma budget_law_counterexample :
  ~ (Context.total_tokens (Context.ctx_manifest (ctx [] 10))
     <= Context.budget_of "reviewer-default" (profile 10)).
Proof. vm_compute. intros H. apply H. reflexivity. Qed.

Lemma budget_law_witness :
  Context.total_tokens (Context.ctx_manifest (ctx sample_repo 40)) <= 40
  /\ Context.drops (Context.ctx_manifest (ctx sample_repo 40)) <> [].
Proof.
  destruct (budget_law (SAFE_ROOT env0) sample_repo run1 "planner" "reviewer-default" []
                       (profile 40)) as (_ & Hfit & Hover).
  split.
  - apply Hfit. vm_compute. discriminate.
  - apply Hover. vm_compute. reflexivity.
Defined.

(** C8, as stated, fails: the scratchpad of a run without events prints
    as two characters; its estimate is 0, the ceiling of a quarter of 2
    is 1. *)
Lemma estimate_ceiling_counterexample :
  Context.token_estimate "scratchpad" (Context.ctx_manifest (ctx [] 120000))
  <> ceil_quarter (len (py_str (Context.section "scratchpad" (ctx [] 120000)))).
Proof. vm_compute. discriminate. Qed.

(** C3: the guard compares texts, so a path that resolves into a
    directory next to the safe root whose name begins with the name of
    the safe root passes it: [read] returns the content of a file outside
    the safe root and [write] overwrites it. *)
Theorem sibling_directory_escapes :
  lies_under (SAFE_ROOT env0)
             (Files.full_path (SAFE_ROOT env0) "../sample_repo_evil/secret.txt") = false
  /\ Files.read (SAFE_ROOT env0) disk_with_sibling "../sample_repo_evil/secret.txt"
     = Ok [("content", PyStr "secret"); ("path", PyStr "../sample_repo_evil/secret.txt")]
  /\ get sibling_secret
         (fst (Files.write (SAFE_ROOT env0) disk_with_sibling
                           "../sample_repo_evil/secret.txt" "overwritten"))
     = Some (Files.File "overwritten").
Proof. repeat split; reflexivity. Qed.

(** C7, as stated, fails: with [app.py] a directory, the read in the
    body of the [py_fixer] handler raises; [run_node] raises with it and
    the journal holds neither an error event nor [node_done]. *)
Lemma handler_exception_counterexample :
  snd (run_node env0 "run-1" "py_fixer" (world_on broken_repo)) = Raise (OSError app_py)
  /\ brief (events_of "run-1" (fst (run_node env0 "run-1" "py_fixer" (world_on broken_repo))))
     = [("py_fixer", "context_compiled")].
Proof. split; reflexivity. Qed.

Lemma handler_exception_propagates_witness :
  snd (run_node env0 "run-1" "py_fixer" (world_on broken_repo)) = Raise (OSError app_py)
  /\ exists c, is_event "run-1" "py_fixer" "context_compiled" c
               /\ events_of "run-1" (fst (run_node env0 "run-1" "py_fixer" (world_on broken_repo)))
                  = events_of "run-1" (world_on broken_repo) ++ [c].
Proof.
  apply (proj1 (@handler_exception_propagates env0 "run-1" "py_fixer" run1
                  (world_on broken_repo) eq_refl) (OSError app_py)).
  reflexivity.
Defined.

(** C4, as stated, fails: the only edge of the graph is a fan-out edge
    gated on an event type that nothing emits; its child [fe_fixer] is
    dispatched all the same. *)
Lemma gated_fanout_counterexample :
  let journal := events_of "run-1" (fst (execute_graph env0 20 "run-1" (world_with gated_fanout))) in
  matches journal "planner" (App.mk_edge "planner" "fe_fixer" ["never_emitted"] true None) = false
  /\ brief journal
     = [("system", "run_started");
        ("planner", "context_compiled"); ("planner", "plan_ready"); ("planner", "node_done");
        ("fe_fixer", "context_compiled"); ("fe_fixer", "patch_created"); ("fe_fixer", "node_done");
        ("system", "run_completed")].
Proof. split; vm_compute; reflexivity. Qed.

(** In the sequential step a satisfied gate is not enough: the child
    stays off [ready] while one of its join sources is not completed. *)
Example satisfied_gate_waits_for_join :
  let t := build (dag gated_join) in
  let edge := App.mk_edge "planner" "aggregator" ["plan_ready"] false (Some "all") in
  let journal := events_of "run-1" (fst (run_node env0 "run-1" "planner" (world_with gated_join))) in
  matches journal "planner" edge = true
  /\ process_edge t journal "planner" ["planner"] ["fe_fixer"] edge = ["fe_fixer"].
Proof. split; vm_compute; reflexivity. Qed.

(** C5, as stated, fails: [aggregator] joins on [fe_fixer] and is also a
    fan-out child of [planner]; it is dispatched with the batch, before
    [fe_fixer] has run at all. *)
Lemma join_bypassed_counterexample :
  brief (events_of "run-1" (fst (execute_graph env0 20 "run-1" (world_with fanout_into_join))))
  = [("system", "run_started");
     ("planner", "context_compiled"); ("planner", "plan_ready"); ("planner", "node_done");
     ("aggregator", "context_compiled"); ("aggregator", "patch_selected");
     ("aggregator", "node_done");
     ("fe_fixer", "context_compiled"); ("fe_fixer", "patch_created"); ("fe_fixer", "node_done");
     ("system", "run_completed")].
Proof. vm_compute. reflexivity. Qed.

Lemma join_barrier_witness :
  exists tr,
    events_of "run-1" parent_done = events_of "run-1" (world_on sample_repo) ++ tr
    /\ forall edge, In edge (dag App.default_graph) -> to_node edge = "aggregator" ->
       join edge = Some "all" ->
       forall pre e post,
         tr = pre ++ e :: post -> step e = "aggregator" -> type e = "context_compiled" ->
         done_in pre (from_node edge).
Proof.
  apply (@join_barrier env0 20 "run-1" (world_on sample_repo) run1 App.default_graph "aggregator").
  - reflexivity.
  - reflexivity.
  - intros e He Hto. cbn in He.
    repeat (destruct He as [<-|He]; [try discriminate Hto; reflexivity|]). destruct He.
Defined.

Lemma replay_prefix_law_witness :
  let child := replay_id "run-1" "tester" in
  let w' := fst (replay_from env0 20 "run-1" "tester" parent_done) in
  firstn 16 (events_of child w') = firstn 16 (events_of "run-1" parent_done)
  /\ (exists tr, events_of child w' = firstn 16 (events_of "run-1" parent_done) ++ tr
                 /\ forall e, In e tr -> run_id e = child)
  /\ events_of "run-1" w' = events_of "run-1" parent_done
  /\ forall r, r <> child -> get r (events w') = get r (events parent_done).
Proof.
  apply (@replay_prefix_law env0 20 "run-1" "tester"
           {| id := "run-1"; graph := "git-to-prod-multi"; inputs := PyDict [];
              status := "succeeded"; created_at := "t"; parent_run := None |}
           parent_done 16%nat).
  - reflexivity.
  - split.
    + eexists. split; [vm_compute; reflexivity | reflexivity].
    + intros i e Hi.
      do 16 (destruct i as [|i]; [vm_compute; intros [= <-]; discriminate|]).
      exfalso. revert Hi. clear. intros Hi. do 16 apply Nat.succ_lt_mono in Hi.
      inversion Hi.
Defined.

(** C2: the child run starts with an empty completed set whatever the
    copied prefix holds.  After a replay of the finished default run
    from [tester], the 16 copied events include [node_done] of
    [planner], and the events the child appends begin with a second
    execution of [planner]; all eight nodes run again.  After a replay
    from a step that does not occur, the 26 events of the parent are
    copied and again all eight nodes are executed. *)
Theorem replay_reexecutes_everything :
  let copied := prefix_until "tester" (events_of "run-1" parent_done) in
  let child := events_of "run-1-replay-tester"
                         (fst (replay_from env0 20 "run-1" "tester" parent_done)) in
  let orphan := events_of "run-1-replay-deploy"
                          (fst (replay_from env0 20 "run-1" "deploy" parent_done)) in
  In ("planner", "node_done") (brief copied)
  /\ firstn 16 child = copied
  /\ brief (skipn 16 child) = brief (events_of "run-1" parent_done)
  /\ prefix_until "deploy" (events_of "run-1" parent_done) = events_of "run-1" parent_done
  /\ brief (skipn 26 orphan) = brief (events_of "run-1" parent_done).
Proof. vm_compute. repeat split; auto 10. Qed.

(** C9: the id of the child is a function of the parent id and the
    step.  Replaying the finished default run from [tester] twice
    returns the same id both times; the second call finds that id in the
    run store and replaces the record and the journal the first call
    left under it, so the store holds two runs, not three. *)
Theorem replay_twice_same_child :
  let first := replay_from env0 20 "run-1" "tester" parent_done in
  let second := replay_from env0 20 "run-1" "tester" (fst first) in
  snd first = Ok "run-1-replay-tester"
  /\ snd second = Ok "run-1-replay-tester"
  /\ mem "run-1-replay-tester" (runs parent_done) = false
  /\ mem "run-1-replay-tester" (runs (fst first)) = true
  /\ keys (runs (fst second)) = ["run-1"; "run-1-replay-tester"]
  /\ get "run-1-replay-tester" (runs (fst second)) <> get "run-1-replay-tester" (runs (fst first))
  /\ events_of "run-1-replay-tester" (fst second)
     <> events_of "run-1-replay-tester" (fst first)
  /\ List.length (get_default "run-1-replay-tester" [] (journal_files (fst second))) = 52%nat.
Proof. vm_compute. repeat split; discriminate. Qed.

End Concrete.

(* ================================================================== *)
(** * Further properties of the code *)
(* ================================================================== *)

(** ** engine.py: what the tables of the scheduler hold *)

Lemma get_default_set (A : Type) (k n : string) (v dflt : A) (d : dict A) :
  get_default n dflt (set k v d) = if String.eqb n k then v else get_default n dflt d.
Proof.
  unfold get_default. destruct (String.eqb n k) eqn:Hn.
  - apply String.eqb_eq in Hn. subst. now rewrite get_set_same.
  - apply String.eqb_neq in Hn. now rewrite get_set_other.
Qed.

Section TablesContent.
Variable dag : list Edge.

(** X1: [adj[n]] is the list of the edges of the graph that leave [n],
    in the order of the edge list. *)
Theorem adj_is_outgoing (n : string) :
  get_default n [] (adj (build dag)) = filter (fun e => String.eqb (from_node e) n) dag.
Proof.
  unfold build.
  assert (forall l t, get_default n [] (adj (fold_left add_edge l t))
                      = get_default n [] (adj t)
                        ++ filter (fun e => String.eqb (from_node e) n) l) as H.
  { induction l as [|e l IH]; intros t; cbn [fold_left filter]; [now rewrite app_nil_r|].
    rewrite IH. unfold add_edge at 1; cbn [adj]. rewrite get_default_set.
    rewrite (String.eqb_sym n). destruct (String.eqb (from_node e) n) eqn:Hn.
    - apply String.eqb_eq in Hn. subst n. now rewrite <- app_assoc.
    - reflexivity. }
  apply (H dag {| adj := []; in_degree := []; join_groups := [] |}).
Qed.

(** X2: [join_groups[n]] lists, in the order of the edge list, the
    source of every edge into [n] whose [join] is a non-empty string,
    whatever that string is. *)
Theorem join_groups_is_join_sources (n : string) :
  get_default n [] (join_groups (build dag))
  = map from_node (filter (fun e => has_join e && String.eqb (to_node e) n) dag).
Proof.
  unfold build.
  assert (forall l t, get_default n [] (join_groups (fold_left add_edge l t))
                      = get_default n [] (join_groups t)
                        ++ map from_node
                             (filter (fun e => has_join e && String.eqb (to_node e) n) l)) as H.
  { induction l as [|e l IH]; intros t; cbn [fold_left filter map]; [now rewrite app_nil_r|].
    rewrite IH. unfold add_edge at 1; cbn [join_groups].
    destruct (has_join e); cbn [andb]; [|reflexivity].
    rewrite get_default_set, (String.eqb_sym n).
    destruct (String.eqb (to_node e) n) eqn:Hn; [|reflexivity].
    apply String.eqb_eq in Hn. subst n. cbn [map]. now rewrite <- app_assoc. }
  apply (H dag {| adj := []; in_degree := []; join_groups := [] |}).
Qed.

Lemma in_degree_counts (n : string) :
  get_default n 0%nat (in_degree (build dag))
  = List.length (filter (fun e => String.eqb (to_node e) n) dag).
Proof.
  unfold build.
  assert (forall l t, get_default n 0%nat (in_degree (fold_left add_edge l t))
                      = (get_default n 0%nat (in_degree t)
                         + List.length (filter (fun e => String.eqb (to_node e) n) l))%nat) as H.
  { induction l as [|e l IH]; intros t; cbn [fold_left filter]; [cbn; lia|].
    rewrite IH. clear IH.
    assert (get_default n 0%nat (in_degree (add_edge t e))
            = (get_default n 0%nat (in_degree t)
               + if String.eqb (to_node e) n then 1 else 0)%nat) as ->.
    { unfold add_edge; cbn [in_degree].
      set (deg := set (to_node e) (get_default (to_node e) 0 (in_degree t) + 1)%nat
                      (in_degree t)).
      assert (get_default n 0%nat deg
              = (get_default n 0%nat (in_degree t)
                 + if String.eqb (to_node e) n then 1 else 0)%nat) as Hdeg.
      { subst deg. rewrite get_default_set, (String.eqb_sym n).
        destruct (String.eqb (to_node e) n) eqn:Hn; [|lia].
        apply String.eqb_eq in Hn. now subst n. }
      destruct (mem (from_node e) deg) eqn:Hf; [exact Hdeg|].
      rewrite get_default_set. destruct (String.eqb n (from_node e)) eqn:Hnf; [|exact Hdeg].
      apply String.eqb_eq in Hnf. subst n. rewrite <- Hdeg.
      unfold mem in Hf. unfold get_default. now destruct (get (from_node e) deg). }
    destruct (String.eqb (to_node e) n); cbn [List.length]; lia. }
  rewrite (H dag {| adj := []; in_degree := []; join_groups := [] |}). reflexivity.
Qed.

Lemma in_degree_keys (n : string) :
  mem n (in_degree (build dag)) = true
  <-> exists e, In e dag /\ (from_node e = n \/ to_node e = n).
Proof.
  unfold build.
  assert (forall l t, mem n (in_degree (fold_left add_edge l t)) = true
                      <-> mem n (in_degree t) = true
                          \/ exists e, In e l /\ (from_node e = n \/ to_node e = n)) as H.
  { induction l as [|e l IH]; intros t; cbn [fold_left].
    - split; [auto|]. intros [H|(e & [] & _)]. exact H.
    - rewrite IH. clear IH.
      assert (mem n (in_degree (add_edge t e)) = true
              <-> mem n (in_degree t) = true \/ from_node e = n \/ to_node e = n) as ->.
      { unfold add_edge; cbn [in_degree].
        set (deg := set (to_node e) (get_default (to_node e) 0 (in_degree t) + 1)%nat
                        (in_degree t)).
        assert (mem n deg = true <-> n = to_node e \/ mem n (in_degree t) = true) as Hdeg
            by apply mem_set.
        destruct (mem (from_node e) deg) eqn:Hf.
        - rewrite Hdeg. split; [intuition|].
          intros [H|[H|H]]; auto. subst n. now apply Hdeg.
        - rewrite mem_set, Hdeg. intuition. }
      split.
      + intros [[H|H]|(x & Hx & Hn)]; auto.
        * right. exists e. auto with datatypes.
        * right. exists x. auto with datatypes.
      + intros [H|(x & [->|Hx] & Hn)]; auto. right. eauto. }
  rewrite (H dag {| adj := []; in_degree := []; join_groups := [] |}).
  split; [intros [K|K]; [discriminate | exact K] | auto].
Qed.

(** X3: the nodes the scheduler starts from are exactly the nodes that
    some edge leaves and no edge enters. *)
Theorem start_nodes_are_sources (n : string) :
  In n (start_nodes (build dag))
  <-> (exists e, In e dag /\ from_node e = n) /\ forall e, In e dag -> to_node e <> n.
Proof.
  assert (In n (start_nodes (build dag))
          <-> mem n (in_degree (build dag)) = true
              /\ get_default n 0%nat (in_degree (build dag)) = 0%nat) as ->.
  { unfold start_nodes. rewrite in_map_iff. split.
    - intros ([k d] & <- & Hf). apply filter_In in Hf as [Hin Hd]. cbn in *.
      apply Nat.eqb_eq in Hd. subst d.
      pose proof (get_of_In _ _ _ (in_degree_keys_nodup dag) Hin) as Hg.
      unfold mem, get_default. now rewrite Hg.
    - intros [Hm Hd]. unfold mem, get_default in *.
      destruct (get n (in_degree (build dag))) as [d|] eqn:Hg; [|discriminate].
      subst d. exists (n, 0%nat). split; [reflexivity|].
      apply filter_In. split; [now apply get_In | reflexivity]. }
  rewrite in_degree_keys, in_degree_counts. split.
  - intros [(e & He & Hn) Hcount].
    assert (forall x, In x dag -> to_node x <> n) as Hno.
    { intros x Hx Hto.
      assert (In x (filter (fun e => String.eqb (to_node e) n) dag)) as Hf
          by (apply filter_In; split; [exact Hx | now apply String.eqb_eq]).
      destruct (filter (fun e => String.eqb (to_node e) n) dag); [destruct Hf | discriminate]. }
    split; [|exact Hno]. exists e. split; [exact He|].
    destruct Hn as [Hn|Hn]; [exact Hn | now apply Hno in He].
  - intros [(e & He & Hn) Hno]. split; [eauto|].
    rewrite filter_none; [reflexivity|].
    intros x Hx. apply String.eqb_neq. auto.
Qed.

End TablesContent.

(** ** tools/security.py, tools/tests.py: text *)

Lemma append_assoc (a b c : string) : (a +s+ b) +s+ c = a +s+ b +s+ c.
Proof. induction a as [|x a IH]; cbn; [reflexivity | now rewrite IH]. Qed.

Lemma append_empty_r (a : string) : a +s+ "" = a.
Proof. induction a as [|x a IH]; cbn; [reflexivity | now rewrite IH]. Qed.

Lemma prefix_spec (a b : string) :
  String.prefix a b = true <-> exists post, b = a +s+ post.
Proof.
  revert a. induction b as [|y b IH]; intros [|x a]; cbn.
  - split; [intros _; now exists "" | reflexivity].
  - split; [discriminate | intros (post & H); discriminate].
  - split; [intros _; now exists (String y b) | reflexivity].
  - destruct (ascii_dec x y) as [->|Hne].
    + rewrite IH. split; intros (post & H); exists post; congruence.
    + split; [discriminate | intros (post & H); congruence].
Qed.

(** [sub in s] is true exactly when [sub] occurs in [s]. *)
Lemma contains_spec (sub s : string) : contains sub s = true <-> occurs sub s.
Proof.
  unfold occurs. induction s as [|c s IH].
  - cbn [contains]. rewrite orb_false_r, prefix_spec. split.
    + intros (post & H). exists "", post. exact H.
    + intros (pre & post & H). destruct pre; [now exists post|discriminate].
  - cbn [contains]. rewrite orb_true_iff, prefix_spec, IH. split.
    + intros [(post & H)|(pre & post & H)].
      * exists "", post. exact H.
      * exists (String c pre), post. cbn. now rewrite H.
    + intros (pre & post & H). destruct pre as [|x pre].
      * left. now exists post.
      * right. cbn in H. inversion H. now exists pre, post.
Qed.

(** X4: [scan_text] answers ok exactly when no blocked pattern occurs
    in the text, and otherwise reports the first pattern of the list that
    occurs, the ones before it not occurring. *)
Theorem scan_text_first_match (text : string) (block_patterns : list string) :
  (Security.scan_text text block_patterns = [("ok", PyBool true)]
   /\ forall p, In p block_patterns -> ~ occurs p text)
  \/ exists before pattern after,
       block_patterns = before ++ pattern :: after
       /\ (forall p, In p before -> ~ occurs p text)
       /\ occurs pattern text
       /\ Security.scan_text text block_patterns
          = [("error", PyStr ("blocked pattern found: " +s+ pattern))].
Proof.
  induction block_patterns as [|p ps IH]; cbn [Security.scan_text].
  - left. split; [reflexivity | intros p []].
  - destruct (contains p text) eqn:Hp.
    + right. exists [], p, ps. repeat split; [intros q [] | now apply contains_spec].
    + assert (~ occurs p text) as Hno by (rewrite <- contains_spec; congruence).
      destruct IH as [[Hok Hall]|(before & q & after & -> & Hb & Hq & Hres)].
      * left. split; [exact Hok|]. intros x [<-|Hx]; auto.
      * right. exists (p :: before), q, after. repeat split; auto.
        intros x [<-|Hx]; auto.
Qed.

Lemma substring_all (s : string) : substring 0 (String.length s) s = s.
Proof. induction s as [|c s IH]; cbn; [reflexivity | now rewrite IH]. Qed.

Lemma substring_suffix (s : string) :
  forall n, (n <= String.length s)%nat ->
            exists pre, s = pre +s+ substring n (String.length s - n) s
                        /\ String.length pre = n.
Proof.
  induction s as [|c s IH]; intros n Hn.
  - exists "". cbn in Hn. assert (n = 0%nat) as -> by lia. now split.
  - destruct n as [|n].
    + exists "". rewrite Nat.sub_0_r, substring_all. now split.
    + cbn in Hn. destruct (@IH n ltac:(lia)) as (pre & Hpre & Hlen).
      exists (String c pre). cbn. split; [now rewrite <- Hpre | now rewrite Hlen].
Qed.

(** X5: [run] reports the verdict of pytest, and the output it returns
    is the output of pytest when that has at most 2000 characters, and
    otherwise three dots followed by its last 2000 characters: never more
    than 2003 characters. *)
Theorem tests_run_output_bounded (E : env) (fs : Files.filesystem) :
  let result := Tests.run E fs in
  let output := snd (pytest E fs) in
  get "passed" result = Some (PyBool (fst (pytest E fs)))
  /\ exists shown,
       get "output" result = Some (PyStr shown)
       /\ (String.length shown <= 2003)%nat
       /\ ((String.length output <= 2000)%nat -> shown = output)
       /\ ((2000 < String.length output)%nat ->
           exists cut kept, output = cut +s+ kept /\ String.length kept = 2000%nat
                            /\ shown = "..." +s+ kept).
Proof.
  cbn zeta. unfold Tests.run. destruct (pytest E fs) as [passed output]. cbn [fst snd].
  destruct (2000 <? String.length output)%nat eqn:Hlong.
  - apply Nat.ltb_lt in Hlong.
    destruct (@substring_suffix output (String.length output - 2000)%nat ltac:(lia))
      as (cut & Hcut & Hlen).
    replace (String.length output - (String.length output - 2000))%nat with 2000%nat
      in Hcut by lia.
    assert (String.length (Tests.tail_chars 2000 output) = 2000%nat) as Hkept.
    { unfold Tests.tail_chars. apply (f_equal String.length) in Hcut.
      rewrite length_append in Hcut. lia. }
    split; [reflexivity|]. eexists. split; [reflexivity|]. split; [|split].
    + change (String.length ("..." +s+ Tests.tail_chars 2000 output) <= 2003)%nat.
      rewrite length_append, Hkept. cbn. lia.
    + lia.
    + intros _. exists cut, (Tests.tail_chars 2000 output). auto.
  - apply Nat.ltb_ge in Hlong.
    split; [reflexivity|]. exists output. repeat split; auto; lia.
Qed.

(** ** tools/files.py: paths and the disk *)

Section FilesFacts.
Variable root : list string.

Lemma in_removelast (A : Type) (x : A) (l : list A) : In x (removelast l) -> In x l.
Proof.
  induction l as [|a l IH]; cbn; [auto|].
  destruct l as [|b l]; [intros [] | intros [->|H]; auto].
Qed.

Lemma resolve_from (ps : list string) :
  forall stack,
    (forall c, In c stack -> c <> "..") ->
    forall c, In c (fold_left (fun stack c => if String.eqb c ".." then removelast stack
                                               else stack ++ [c]) ps stack) ->
              c <> "..".
Proof.
  induction ps as [|p ps IH]; intros stack Hst; cbn [fold_left]; [exact Hst|].
  apply IH. destruct (String.eqb p "..") eqn:Hp.
  - intros c Hc. apply Hst. now apply in_removelast.
  - apply String.eqb_neq in Hp. intros c Hc.
    apply in_app_or in Hc as [Hc|[<-|[]]]; auto.
Qed.

(** X6: no [..] component survives [resolve()]: the path [read] and
    [write] test and open never contains one, whatever the argument. *)
Theorem full_path_has_no_dotdot (path c : string) :
  In c (Files.full_path root path) -> c <> "..".
Proof.
  unfold Files.full_path, Files.resolve. apply resolve_from. intros x [].
Qed.

Lemma resolve_plain (ps : list string) :
  (forall c, In c ps -> c <> "..") -> Files.resolve ps = ps.
Proof.
  unfold Files.resolve.
  assert (forall l stack, (forall c, In c l -> c <> "..") ->
            fold_left (fun stack c => if String.eqb c ".." then removelast stack
                                      else stack ++ [c]) l stack = stack ++ l) as H.
  { induction l as [|p l IH]; intros stack Hl; cbn [fold_left]; [now rewrite app_nil_r|].
    assert (String.eqb p ".." = false) as -> by (apply String.eqb_neq, Hl; now left).
    rewrite IH by auto with datatypes. now rewrite <- app_assoc. }
  intros Hps. now rewrite H.
Qed.

Lemma lies_under_split (p : list string) :
  forall r, lies_under r p = true <-> exists rest, p = r ++ rest.
Proof.
  induction p as [|c p IH]; intros [|x r]; cbn.
  - split; [now exists [] | reflexivity].
  - split; [discriminate | intros (rest & H); discriminate].
  - split; [now exists (c :: p) | reflexivity].
  - rewrite andb_true_iff, String.eqb_eq, IH. split.
    + intros [-> (rest & ->)]. now exists rest.
    + intros (rest & H). inversion H. eauto.
Qed.

Lemma concat_app_prefix (r rest : list string) :
  exists post, String.concat "/" (r ++ rest) = String.concat "/" r +s+ post.
Proof.
  induction r as [|x r IH].
  - now exists (String.concat "/" rest).
  - destruct r as [|y r].
    + destruct rest as [|z rest]; cbn.
      * exists "". now rewrite append_empty_r.
      * now eexists.
    + destruct IH as (post & IH). exists post.
      change (x +s+ "/" +s+ String.concat "/" ((y :: r) ++ rest)
              = (x +s+ "/" +s+ String.concat "/" (y :: r)) +s+ post).
      now rewrite IH, !append_assoc.
Qed.

Lemma inside_of_lies_under (path : string) :
  lies_under root (Files.full_path root path) = true -> Files.inside root path = true.
Proof.
  intros H. apply lies_under_split in H as (rest & H).
  unfold Files.inside. rewrite H. apply prefix_spec.
  destruct (concat_app_prefix root rest) as (post & Hpost).
  exists post. unfold Files.path_str. now rewrite Hpost, append_assoc.
Qed.

Lemma not_escape_error (path : string) :
  "embedded null byte" <> "path " +s+ path +s+ " escapes safe root".
Proof. cbn. discriminate. Qed.

Lemma read_accepted (fs : Files.filesystem) (path msg : string) :
  Files.inside root path = true ->
  Files.read root fs path = Raise (ValueError msg) ->
  has_char Files.nul path = true /\ msg = "embedded null byte".
Proof.
  intros Hin. unfold Files.read. rewrite Hin. cbn [negb].
  destruct (has_char Files.nul path); [intros [= <-]; now split|].
  destruct (get (Files.path_str (Files.full_path root path)) fs) as [[c|]|]; discriminate.
Qed.

Lemma write_accepted (fs : Files.filesystem) (path content msg : string) :
  Files.inside root path = true ->
  snd (Files.write root fs path content) = Raise (ValueError msg) ->
  has_char Files.nul path = true /\ msg = "embedded null byte".
Proof.
  intros Hin. unfold Files.write, Files.mkdir_parents. rewrite Hin. cbn [negb].
  destruct (has_char Files.nul path); [intros [= <-]; now split|].
  destruct (find _ _).
  - cbn [snd]. destruct (String.eqb _ _); discriminate.
  - destruct (get _ _) as [[c|]|]; discriminate.
Qed.

(** X7: the guard has no false alarm: for a path that resolves to the
    safe root or below it the test of the guard is true, and neither
    [read] nor [write] raises the error of the guard. *)
Theorem guard_accepts_inside (fs : Files.filesystem) (path content : string) :
  lies_under root (Files.full_path root path) = true ->
  Files.inside root path = true
  /\ Files.read root fs path
     <> Raise (ValueError ("path " +s+ path +s+ " escapes safe root"))
  /\ snd (Files.write root fs path content)
     <> Raise (ValueError ("path " +s+ path +s+ " escapes safe root")).
Proof.
  intros H. pose proof (inside_of_lies_under path H) as Hin. split; [exact Hin|].
  split; intros Hr.
  - apply (read_accepted _ _ Hin) in Hr as [_ Hr]. symmetry in Hr.
    now apply not_escape_error in Hr.
  - apply (write_accepted _ _ _ Hin) in Hr as [_ Hr]. symmetry in Hr.
    now apply not_escape_error in Hr.
Qed.

(** X8: under a safe root without [..], a relative path without [..]
    and without NUL resolves to the safe root followed by the parts of
    the path and passes the guard: neither [read] nor [write] raises
    the error of the guard on it. *)
Theorem plain_relative_path_accepted (fs : Files.filesystem) (path content : string) :
  (forall c, In c root -> c <> "..") ->
  Files.is_absolute path = false ->
  (forall c, In c (Files.parts path) -> c <> "..") ->
  has_char Files.nul path = false ->
  Files.full_path root path = root ++ Files.parts path
  /\ Files.inside root path = true
  /\ Files.read root fs path
     <> Raise (ValueError ("path " +s+ path +s+ " escapes safe root"))
  /\ snd (Files.write root fs path content)
     <> Raise (ValueError ("path " +s+ path +s+ " escapes safe root")).
Proof.
  intros Hroot Hrel Hparts Hnul.
  assert (Files.full_path root path = root ++ Files.parts path) as Hfull.
  { unfold Files.full_path, Files.joinpath. rewrite Hrel. apply resolve_plain.
    intros c Hc. apply in_app_or in Hc as [Hc|Hc]; auto. }
  assert (Files.inside root path = true) as Hin.
  { apply inside_of_lies_under. rewrite Hfull. apply lies_under_split.
    now exists (Files.parts path). }
  split; [exact Hfull|]. split; [exact Hin|]. split; intros Hr.
  - apply (read_accepted _ _ Hin) in Hr as [Hr _]. congruence.
  - apply (write_accepted _ _ _ Hin) in Hr as [Hr _]. congruence.
Qed.

Lemma universal_newlines_plain (s : string) :
  has_char Files.cr s = false -> Files.universal_newlines s = s.
Proof.
  induction s as [|c s IH]; cbn [has_char Files.universal_newlines]; [reflexivity|].
  intros H. apply orb_false_iff in H as [Hc Hs].
  rewrite Ascii.eqb_sym, Hc. now rewrite IH.
Qed.

(** X9: after a [write] that returns, on a path within the limits of
    the file system that does not name a directory, [read] of the same
    path returns the text written as text mode reads it: with [\r\n]
    and [\r] read as [\n], and so the very text when it holds no
    [\r]. *)
Theorem write_then_read (fs : Files.filesystem) (path content : string) (r : dict pyval) :
  nothing_below fs (Files.path_str (Files.full_path root path)) ->
  within_limits (Files.full_path root path) = true ->
  snd (Files.write root fs path content) = Ok r ->
  r = [("ok", PyBool true); ("path", PyStr path); ("bytes", PyInt (len content))]
  /\ Files.read root (fst (Files.write root fs path content)) path
     = Ok [("content", PyStr (Files.universal_newlines content)); ("path", PyStr path)]
  /\ (has_char Files.cr content = false ->
      Files.read root (fst (Files.write root fs path content)) path
      = Ok [("content", PyStr content); ("path", PyStr path)]).
Proof.
  intros _ _. unfold Files.write, Files.read.
  destruct (has_char Files.nul path); [discriminate|].
  destruct (negb (Files.inside root path)) eqn:Hin; [discriminate|].
  destruct (Files.mkdir_parents fs (Files.full_path root path)) as [fs1 [u|e|]];
    try discriminate.
  destruct (get (Files.path_str (Files.full_path root path)) fs1) as [[c|]|];
    cbn [fst snd]; try discriminate; intros [= <-];
    (split; [reflexivity|]); rewrite get_set_same;
    (split; [reflexivity|]); intros Hcr; now rewrite universal_newlines_plain.
Qed.

Lemma mkdir_keeps_files (fs : Files.filesystem) (ps : list string) (k c : string) :
  get k fs = Some (Files.File c) ->
  get k (fst (Files.mkdir_parents fs ps)) = Some (Files.File c).
Proof.
  intros Hk. unfold Files.mkdir_parents.
  destruct (find (Files.is_file fs) (Files.ancestors [] ps)) eqn:Hfind; [exact Hk|].
  cbn [fst].
  assert (forall l fs', (forall a, In a l -> Files.path_str a <> k) ->
                        get k (fold_left (fun fs' a => set (Files.path_str a) Files.Dir fs') l fs')
                        = get k fs') as H.
  { induction l as [|a l IH]; intros fs' Hl; cbn [fold_left]; [reflexivity|].
    rewrite IH by auto with datatypes. apply get_set_other.
    intros Heq. apply (Hl a); auto with datatypes. }
  rewrite H; [exact Hk|].
  intros a Ha Heq. pose proof (find_none _ _ Hfind a Ha) as Hnot.
  unfold Files.is_file in Hnot. rewrite Heq, Hk in Hnot. discriminate.
Qed.

Lemma write_keeps_file (fs : Files.filesystem) (path content k c : string) :
  k <> Files.path_str (Files.full_path root path) ->
  get k fs = Some (Files.File c) ->
  get k (fst (Files.write root fs path content)) = Some (Files.File c).
Proof.
  intros Hne Hk. unfold Files.write.
  destruct (has_char Files.nul path); [exact Hk|].
  destruct (negb (Files.inside root path)); [exact Hk|].
  pose proof (mkdir_keeps_files fs (Files.full_path root path) k Hk) as Hmk.
  destruct (Files.mkdir_parents fs (Files.full_path root path)) as [fs1 [u|e|]];
    cbn [fst] in *; try exact Hmk.
  destruct (get (Files.path_str (Files.full_path root path)) fs1) as [[x|]|];
    cbn [fst]; try exact Hmk; now rewrite get_set_other.
Qed.

Lemma mkdir_keeps_entries (fs : Files.filesystem) (ps : list string) (k : string)
      (e : Files.entry) :
  get k fs = Some e -> get k (fst (Files.mkdir_parents fs ps)) = Some e.
Proof.
  intros Hk. unfold Files.mkdir_parents.
  destruct (find (Files.is_file fs) (Files.ancestors [] ps)) eqn:Hfind; [exact Hk|].
  cbn [fst].
  assert (forall l fs', (forall a, In a l -> Files.path_str a = k -> e = Files.Dir) ->
                        get k fs' = Some e ->
                        get k (fold_left (fun fs' a => set (Files.path_str a) Files.Dir fs') l fs')
                        = Some e) as H.
  { induction l as [|a l IH]; intros fs' Hl Hfs'; cbn [fold_left]; [exact Hfs'|].
    apply IH; [intros a' Ha'; apply Hl; now right|].
    destruct (String.eqb k (Files.path_str a)) eqn:Heq.
    - apply String.eqb_eq in Heq.
      rewrite (Hl a (or_introl eq_refl) (eq_sym Heq)), Heq. apply get_set_same.
    - apply String.eqb_neq in Heq. now rewrite get_set_other. }
  apply H; [|exact Hk].
  intros a Ha Heq. pose proof (find_none _ _ Hfind a Ha) as Hnot.
  unfold Files.is_file in Hnot. rewrite Heq, Hk in Hnot.
  destruct e; [discriminate | reflexivity].
Qed.

(** X10: whatever the outcome of a [write], every entry of the disk
    other than the file it opens is as it was: every other file keeps
    its content and every directory stays a directory. *)
Theorem write_keeps_other_files (fs : Files.filesystem) (path content k : string)
        (e : Files.entry) :
  k <> Files.path_str (Files.full_path root path) ->
  get k fs = Some e ->
  get k (fst (Files.write root fs path content)) = Some e.
Proof.
  intros Hne Hk. unfold Files.write.
  destruct (has_char Files.nul path); [exact Hk|].
  destruct (negb (Files.inside root path)); [exact Hk|].
  pose proof (mkdir_keeps_entries fs (Files.full_path root path) k Hk) as Hmk.
  destruct (Files.mkdir_parents fs (Files.full_path root path)) as [fs1 [u|x|]];
    cbn [fst] in *; try exact Hmk.
  destruct (get (Files.path_str (Files.full_path root path)) fs1) as [[x|]|];
    cbn [fst]; try exact Hmk; now rewrite get_set_other.
Qed.

End FilesFacts.

(** ** engine.py: the run record, the journal and its file *)

Lemma set_set (A : Type) (k : string) (v v' : A) (d : dict A) :
  set k v (set k v' d) = set k v d.
Proof.
  induction d as [|[k0 v0] d IH]; cbn.
  - now rewrite String.eqb_refl.
  - destruct (String.eqb k k0) eqn:Hk; cbn; rewrite ?String.eqb_refl, ?Hk; congruence.
Qed.

Section RunOutcome.
Variable E : env.
Variable rid : string.

Lemma execute_graph_unfold (fuel : nat) (run : Run) (g : Graph) (w : world) :
  get rid (runs w) = Some run -> get (graph run) (graphs w) = Some g ->
  execute_graph E fuel rid w
  = match loop E rid (build (dag g)) fuel (initial g) (started E rid g w) with
    | (w', Ok st) =>
        (emitted E rid "system" "run_completed"
                 [("completed_nodes", PyList (map PyStr (completed st)))]
                 (fst (set_status rid "succeeded" w')), Ok tt)
    | (w', Raise e) =>
        (emitted E rid "system" "run_failed" [("error", PyStr (exn_str e))]
                 (fst (set_status rid "failed" w')), Raise e)
    | (w', Diverge) => (w', Diverge)
    end.
Proof.
  intros Hrun Hg. unfold execute_graph. rewrite Hrun. unfold try_except.
  rewrite (@run_graph_unfold E rid fuel run g w Hg).
  destruct (loop E rid (build (dag g)) fuel (initial g) (started E rid g w))
    as [w' [st|e|]]; reflexivity.
Qed.

Lemma execute_graph_no_graph (fuel : nat) (run : Run) (w : world) :
  get rid (runs w) = Some run -> get (graph run) (graphs w) = None ->
  execute_graph E fuel rid w
  = (emitted E rid "system" "run_failed" [("error", PyStr (str_repr (graph run)))]
             (fst (set_status rid "failed" w)), Raise (KeyError (graph run))).
Proof.
  intros Hrun Hg. unfold execute_graph. rewrite Hrun.
  unfold try_except, run_graph, bind, lookup_graph. rewrite Hg. reflexivity.
Qed.

Lemma set_status_runs (s : string) (run : Run) (w : world) :
  get rid (runs w) = Some run ->
  runs (fst (set_status rid s w)) = set rid (with_status s run) (runs w).
Proof. intros H. unfold set_status, modify. cbn [fst]. now rewrite H. Qed.

Lemma runs_run_node (node : string) (w : world) :
  runs (fst (run_node E rid node w)) = runs w.
Proof.
  destruct (get rid (runs w)) as [run|] eqn:Hrun.
  - destruct (run_node_trace E rid node _ Hrun) as (tr & _ & _ & (H & _)). exact H.
  - now rewrite (run_node_missing E rid node _ Hrun).
Qed.

Lemma runs_loop (dag : list Edge) (fuel : nat) (st : sched) (w : world) :
  runs (fst (loop E rid (build dag) fuel st w)) = runs w.
Proof.
  assert (wp (loop E rid (build dag) fuel st)
             (fun r w' => match r with Ok _ => runs w' = runs w | _ => runs w' = runs w end) w)
    as L.
  { apply loop_inv with (Keeps := fun _ w' => runs w' = runs w) (May := fun _ _ => True);
      auto using join_keys_nodup.
    intros n c w' Hw' _. split; [|intros _ _]; now rewrite runs_run_node. }
  unfold wp in L. now destruct (snd (loop E rid (build dag) fuel st w)).
Qed.

Lemma run_store_after (fuel : nat) (run : Run) (w : world) :
  get rid (runs w) = Some run ->
  runs (fst (execute_graph E fuel rid w))
  = set rid (with_status match snd (execute_graph E fuel rid w) with
                         | Ok _ => "succeeded"
                         | Raise _ => "failed"
                         | Diverge => "running"
                         end run) (runs w).
Proof.
  intros Hrun. destruct (get (graph run) (graphs w)) as [g|] eqn:Hg.
  - rewrite (execute_graph_unfold fuel _ Hrun Hg).
    pose proof (runs_loop (dag g) fuel (initial g) (started E rid g w)) as Hruns.
    assert (runs (started E rid g w) = set rid (with_status "running" run) (runs w)) as Hst
      by (unfold started; apply (set_status_runs "running" _ Hrun)).
    rewrite Hst in Hruns.
    assert (forall w', runs w' = set rid (with_status "running" run) (runs w) ->
              forall s, runs (fst (set_status rid s w')) = set rid (with_status s run) (runs w))
      as Hset.
    { intros w' Hw' s.
      rewrite (@set_status_runs s (with_status "running" run) w')
        by (rewrite Hw'; apply get_set_same).
      rewrite Hw'. apply set_set. }
    destruct (loop E rid (build (dag g)) fuel (initial g) (started E rid g w))
      as [w' [st|e|]]; cbn [fst snd] in *; [apply (Hset w' Hruns) .. | exact Hruns].
  - rewrite (execute_graph_no_graph fuel _ Hrun Hg). cbn [fst snd].
    apply (set_status_runs "failed" _ Hrun).
Qed.

(** X11: [execute_graph] leaves the run record with status [succeeded]
    when it returns and [failed] when it raises; nothing else of the
    record changes, no other run record changes, and no record is added
    or removed. *)
Theorem status_follows_outcome (fuel : nat) (run : Run) (w : world) :
  get rid (runs w) = Some run ->
  let w' := fst (execute_graph E fuel rid w) in
  match snd (execute_graph E fuel rid w) with
  | Ok _ => runs w' = set rid (with_status "succeeded" run) (runs w)
  | Raise _ => runs w' = set rid (with_status "failed" run) (runs w)
  | Diverge => True
  end.
Proof.
  intros Hrun w'. subst w'. rewrite (run_store_after fuel _ Hrun).
  now destruct (snd (execute_graph E fuel rid w)).
Qed.

(** X12: for every run and every state of the stores there is a bound
    on the scheduler loop from which on [execute_graph] comes back,
    returning or raising, with one and the same outcome and stores. *)
Theorem execute_graph_comes_back (w : world) :
  exists fuel, forall k,
    snd (execute_graph E (fuel + k) rid w) <> Diverge
    /\ execute_graph E (fuel + k) rid w = execute_graph E fuel rid w.
Proof.
  destruct (execute_graph_terminates E rid w) as [fuel Hfuel]. exists fuel. intros k.
  rewrite (execute_graph_more_fuel E rid fuel w Hfuel k). now split.
Qed.

Lemma disk_of_emitted (node ty : string) (d : dict pyval) (w : world) :
  disk_of rid (emitted E rid node ty d w) = disk_of rid w ++ [stamp E rid node ty d w].
Proof.
  unfold disk_of at 1, get_default. simpl. now rewrite get_set_same.
Qed.

Lemma synced_refl (w0 : world) : synced rid w0 w0.
Proof.
  split; [exists []; split; now rewrite app_nil_r | reflexivity].
Qed.

Lemma synced_emitted (w0 : world) (node ty : string) (d : dict pyval) (w : world) :
  synced rid w0 w -> synced rid w0 (emitted E rid node ty d w).
Proof.
  intros [(tr & Hev & Hdisk) Hfr]. split.
  - exists (tr ++ [stamp E rid node ty d w]). split.
    + now rewrite events_of_emitted, Hev, app_assoc.
    + now rewrite disk_of_emitted, Hdisk, app_assoc.
  - intros r Hr. rewrite <- (Hfr r Hr). simpl. now apply get_set_other.
Qed.

Lemma synced_quiet (w0 w w' : world) :
  events w' = events w -> journal_files w' = journal_files w ->
  synced rid w0 w -> synced rid w0 w'.
Proof.
  intros He Hj [(tr & Hev & Hdisk) Hfr]. unfold synced, logged, events_of, disk_of in *.
  rewrite He, Hj. eauto.
Qed.

Lemma synced_run_node (w0 : world) (node : string) (w : world) :
  synced rid w0 w -> synced rid w0 (fst (run_node E rid node w)).
Proof.
  intros H. destruct (get rid (runs w)) as [run|] eqn:Hrun.
  - rewrite (run_node_unfold E rid node _ Hrun).
    pose proof (handler_spec E rid node (before_handler E rid node run w)) as Hh.
    unfold wp in Hh.
    assert (synced rid w0 (before_handler E rid node run w)) as Hb
      by (unfold before_handler; now apply synced_emitted).
    destruct (handler E rid node (before_handler E rid node run w)) as [w2 [res|e|]];
      cbn [fst snd] in *; [| |contradiction].
    + destruct Hh as (w1 & ty & (_ & _ & He & _ & Hj) & _ & ->).
      do 2 apply synced_emitted. now apply (@synced_quiet w0 _ w1 He Hj).
    + destruct Hh as (_ & _ & He & _ & Hj). now apply (@synced_quiet w0 _ w2 He Hj).
  - now rewrite (run_node_missing E rid node _ Hrun).
Qed.

Lemma synced_loop (w0 : world) (dag : list Edge) (fuel : nat) (st : sched) (w : world) :
  synced rid w0 w -> synced rid w0 (fst (loop E rid (build dag) fuel st w)).
Proof.
  intros H.
  assert (wp (loop E rid (build dag) fuel st)
             (fun r w' => match r with Ok _ => synced rid w0 w' | _ => synced rid w0 w' end) w)
    as L.
  { apply loop_inv with (Keeps := fun _ => synced rid w0) (May := fun _ _ => True);
      auto using join_keys_nodup.
    intros n c w' Hw' _. split; [|intros _ _]; now apply synced_run_node. }
  unfold wp in L. now destruct (snd (loop E rid (build dag) fuel st w)).
Qed.

Lemma synced_set_status (w0 : world) (s : string) (w : world) :
  synced rid w0 w -> synced rid w0 (fst (set_status rid s w)).
Proof.
  unfold set_status, modify. cbn [fst]. now destruct (get rid (runs w)).
Qed.

Lemma synced_execute_graph (w0 : world) (fuel : nat) (w : world) :
  synced rid w0 w -> synced rid w0 (fst (execute_graph E fuel rid w)).
Proof.
  intros H. destruct (get rid (runs w)) as [run|] eqn:Hrun.
  2: { unfold execute_graph. now rewrite Hrun. }
  destruct (get (graph run) (graphs w)) as [g|] eqn:Hg.
  - rewrite (execute_graph_unfold fuel _ Hrun Hg).
    assert (synced rid w0 (started E rid g w)) as Hs
      by (unfold started; now apply synced_emitted, synced_set_status).
    pose proof (synced_loop (dag g) fuel (initial g) Hs) as Hl.
    destruct (loop E rid (build (dag g)) fuel (initial g) (started E rid g w))
      as [w' [st|e|]]; cbn [fst snd] in *;
      [now apply synced_emitted, synced_set_status .. | exact Hl].
  - rewrite (execute_graph_no_graph fuel _ Hrun Hg). cbn [fst].
    now apply synced_emitted, synced_set_status.
Qed.

(** X13: for a run id that is one plain path component, and whatever
    the outcome, [execute_graph] appends the same events, in the same
    order, to the journal of the run in memory and to its
    [events.jsonl], and leaves the journal file of every other run with
    such an id as it is. *)
Theorem journal_file_follows_journal (fuel : nat) (w : world) :
  plain_id rid = true ->
  let w' := fst (execute_graph E fuel rid w) in
  (exists tr, events_of rid w' = events_of rid w ++ tr
              /\ disk_of rid w' = disk_of rid w ++ tr)
  /\ forall r, plain_id r = true -> r <> rid ->
                get r (journal_files w') = get r (journal_files w).
Proof.
  intros _ w'. subst w'.
  destruct (synced_execute_graph fuel (synced_refl w)) as [Htr Hothers].
  split; [exact Htr | intros r _ Hr; now apply Hothers].
Qed.

Lemma events_of_set_status (s : string) (w : world) :
  events_of rid (fst (set_status rid s w)) = events_of rid w.
Proof. unfold set_status, modify. cbn [fst]. now destruct (get rid (runs w)). Qed.

(** X14: when the graph of the run is registered, the events
    [execute_graph] appends to the journal begin with [run_started],
    which names the graph, and, once the call comes back, end with
    [run_completed] when it returns and with [run_failed], which holds
    a text under [error], when it raises. *)
Theorem journal_is_bracketed (fuel : nat) (run : Run) (g : Graph) (w : world) :
  get rid (runs w) = Some run -> get (graph run) (graphs w) = Some g ->
  let w' := fst (execute_graph E fuel rid w) in
  match snd (execute_graph E fuel rid w) with
  | Ok _ =>
      exists s tr f, events_of rid w' = events_of rid w ++ s :: tr ++ [f]
                     /\ is_event rid "system" "run_started" s
                     /\ data s = [("graph", PyStr (g_name g))]
                     /\ is_event rid "system" "run_completed" f
  | Raise e =>
      exists s tr f, events_of rid w' = events_of rid w ++ s :: tr ++ [f]
                     /\ is_event rid "system" "run_started" s
                     /\ data s = [("graph", PyStr (g_name g))]
                     /\ is_event rid "system" "run_failed" f
                     /\ exists msg, data f = [("error", PyStr msg)]
  | Diverge => True
  end.
Proof.
  intros Hrun Hg w'. subst w'. rewrite (execute_graph_unfold fuel _ Hrun Hg).
  destruct (synced_loop (dag g) fuel (initial g) (synced_refl (started E rid g w)))
    as [(tr & Hev & _) _].
  unfold started in Hev at 2. rewrite events_of_emitted, events_of_set_status in Hev.
  destruct (loop E rid (build (dag g)) fuel (initial g) (started E rid g w))
    as [w1 [st|e|]]; cbn [fst snd] in *; [| |exact I].
  - eexists _, tr, _. rewrite events_of_emitted, events_of_set_status, Hev, <- !app_assoc.
    split; [reflexivity|]. repeat split.
  - eexists _, tr, _. rewrite events_of_emitted, events_of_set_status, Hev, <- !app_assoc.
    split; [reflexivity|]. repeat split. eexists. reflexivity.
Qed.


End RunOutcome.

(** ** engine.py: more on replay *)

Section ReplayStores.
Variable E : env.
Variable fuel : nat.
Variables rid from_step : string.

Let child := replay_id rid from_step.

(** The record [replay_from] stores for the child before it executes. *)
Let child_run (run : Run) (w : world) : Run :=
  {| id := child; graph := graph run; inputs := inputs run; status := "pending";
     created_at := utcnow E (clock w); parent_run := Some rid |}.

Lemma replay_from_world (run : Run) (w : world) :
  get rid (runs w) = Some run ->
  exists w2,
    replay_from E fuel rid from_step w
    = match execute_graph E fuel child w2 with
      | (w', Ok _) => (w', Ok child)
      | (w', Raise e) => (w', Raise e)
      | (w', Diverge) => (w', Diverge)
      end
    /\ runs w2 = set child (child_run run w) (runs w)
    /\ events_of child w2 = prefix_until from_step (events_of rid w)
    /\ journal_files w2 = journal_files w.
Proof.
  intros Hrun. unfold replay_from, bind, lookup_run. rewrite Hrun. cbn [now modify].
  fold child.
  match goal with |- context [execute_graph E fuel child ?w2] => exists w2 end.
  split; [|split; [|split]].
  - now destruct (execute_graph E fuel child _) as [w' [u|e|]].
  - reflexivity.
  - unfold events_of at 1, get_default. cbn. now rewrite get_set_same.
  - reflexivity.
Qed.

Lemma fst_replay (w2 : world) :
  fst match execute_graph E fuel child w2 with
      | (w', Ok _) => (w', Ok child)
      | (w', Raise e) => (w', Raise e)
      | (w', Diverge) => (w', Diverge)
      end
  = fst (execute_graph E fuel child w2).
Proof. now destruct (execute_graph E fuel child w2) as [w' [u|e|]]. Qed.

(** X16: when the id of the child is one plain path component, the
    events [replay_from] copies from the parent reach the child's
    journal in memory only.  The child's [events.jsonl] gains the events
    of the child's own execution and none of the copied ones, and the
    journal file of every other run with such an id is as it was. *)
Theorem replay_prefix_stays_in_memory (run : Run) (w : world) :
  plain_id child = true ->
  get rid (runs w) = Some run ->
  let w' := fst (replay_from E fuel rid from_step w) in
  (exists tr, events_of child w' = prefix_until from_step (events_of rid w) ++ tr
              /\ disk_of child w' = disk_of child w ++ tr)
  /\ forall r, plain_id r = true -> r <> child ->
                get r (journal_files w') = get r (journal_files w).
Proof.
  intros _ Hrun w'. subst w'.
  destruct (@replay_from_world run w Hrun) as (w2 & -> & _ & Hev & Hj). rewrite fst_replay.
  destruct (synced_execute_graph E fuel (synced_refl child w2)) as [(tr & He & Hd) Hfr].
  split.
  - exists tr. rewrite He, Hd, Hev. unfold disk_of. now rewrite Hj.
  - intros r _ Hr. rewrite (Hfr r Hr). now rewrite Hj.
Qed.

(** X17: once [replay_from] comes back, the run store holds under the
    child's id a record with the parent's graph and inputs, the parent
    as [parent_run], and the status of the child's execution; the id is
    returned when that execution returned; the parent's record is as it
    was. *)
Theorem replay_child_record (run : Run) (w : world) :
  get rid (runs w) = Some run ->
  let w' := fst (replay_from E fuel rid from_step w) in
  let record s := {| id := child; graph := graph run; inputs := inputs run; status := s;
                     created_at := utcnow E (clock w); parent_run := Some rid |} in
  match snd (replay_from E fuel rid from_step w) with
  | Ok new_run_id => new_run_id = child /\ get child (runs w') = Some (record "succeeded")
  | Raise _ => get child (runs w') = Some (record "failed")
  | Diverge => True
  end
  /\ get rid (runs w') = Some run.
Proof.
  intros Hrun w' record. subst w'.
  destruct (@replay_from_world run w Hrun) as (w2 & -> & Hruns & _ & _).
  assert (get child (runs w2) = Some (child_run run w)) as Hchild
    by (rewrite Hruns; apply get_set_same).
  pose proof (@run_store_after E child fuel _ w2 Hchild) as Hstore.
  assert (child <> rid) as Hne by apply replay_id_fresh_of_parent.
  assert (rid <> child) as Hne' by congruence.
  destruct (execute_graph E fuel child w2) as [w' [u|e|]]; cbn [fst snd] in *;
    rewrite Hstore, Hruns; rewrite ?get_set_same, !get_set_other by exact Hne';
    auto.
Qed.

(** X18: [replay_from] on a run that is not in the run store raises
    [KeyError] for its id; no child is created and the stores, the
    journals and the clock are as they were. *)
Theorem replay_of_unknown_run (w : world) :
  get rid (runs w) = None ->
  replay_from E fuel rid from_step w = (w, Raise (KeyError rid)).
Proof.
  intros Hrun. unfold replay_from, bind, lookup_run. now rewrite Hrun.
Qed.

End ReplayStores.

(** X19: [prefix_until] cuts the journal in two: the events copied, none
    of which has step [from_step], and the rest, which is empty or
    begins with an event of that step. *)
Theorem prefix_until_cuts_at_first (from_step : string) (evs : list Event) :
  exists rest,
    evs = prefix_until from_step evs ++ rest
    /\ (forall e, In e (prefix_until from_step evs) -> step e <> from_step)
    /\ match rest with
       | [] => True
       | e :: _ => step e = from_step
       end.
Proof.
  induction evs as [|a evs (rest & Hsplit & Hpre & Hrest)]; cbn [prefix_until].
  - exists []. repeat split. intros e [].
  - destruct (String.eqb (step a) from_step) eqn:Ha.
    + exists (a :: evs). repeat split; [intros e [] | now apply String.eqb_eq].
    + exists rest. split; [cbn; congruence|]. split; [|exact Hrest].
      intros e [<-|He]; [now apply String.eqb_neq | auto].
Qed.

(** ** engine.py: what the nodes do to the repository *)

Section Repository.
Variable E : env.
Variable rid : string.

(** The text of the path a handler's [files.write] opens. *)
Let target (path : string) : string :=
  Files.path_str (Files.full_path (SAFE_ROOT E) path).

Lemma handler_keeps_repo (node : string) (w : world) :
  ~ In node writers -> repo (fst (handler E rid node w)) = repo w.
Proof.
  intros Hw. unfold handler.
  destruct (String.eqb node "planner") eqn:?; [reflexivity|].
  destruct (String.eqb node "py_fixer") eqn:Hn.
  { apply String.eqb_eq in Hn. exfalso. apply Hw. subst. cbn. auto. }
  clear Hn. destruct (String.eqb node "fe_fixer") eqn:?; [reflexivity|].
  destruct (String.eqb node "test_writer") eqn:Hn.
  { apply String.eqb_eq in Hn. exfalso. apply Hw. subst. cbn. auto. }
  clear Hn. destruct (String.eqb node "aggregator") eqn:?.
  { unfold bind, get_world, lift. now destruct (collect_patches (events_of rid w)). }
  destruct (String.eqb node "tester") eqn:?.
  { unfold bind, get_world. now destruct (truthy _). }
  destruct (String.eqb node "security") eqn:?; [reflexivity|].
  destruct (String.eqb node "release") eqn:Hn; [|reflexivity].
  apply String.eqb_eq in Hn. exfalso. apply Hw. subst. cbn. auto.
Qed.


Variables (k c : string).
Hypothesis not_app : k <> target "app.py".
Hypothesis not_test : k <> target "tests/test_app.py".
Hypothesis not_changelog : k <> target "CHANGELOG.md".

Let kept (w : world) : Prop := get k (repo w) = Some (Files.File c).

Lemma wp_write_keeps (path content : string) (Q : result (dict pyval) -> world -> Prop)
      (w : world) :
  kept w -> k <> target path ->
  (forall fs r, get k fs = Some (Files.File c) -> Q r (with_repo fs w)) ->
  wp (files_write E path content) Q w.
Proof.
  intros Hk Hne H. unfold wp, files_write.
  pose proof (@write_keeps_file (SAFE_ROOT E) (repo w) path content k c Hne Hk) as Hw.
  destruct (Files.write (SAFE_ROOT E) (repo w) path content) as [fs r]. now apply H.
Qed.

Ltac keep_go :=
  repeat match goal with
    | |- wp (bind _ _) _ _ => apply wp_bind
    | |- wp (ret _) _ _ => apply wp_ret
    | |- wp (modify _) _ _ => apply wp_modify
    | |- wp get_world _ _ => apply wp_get_world
    | |- wp (now _) _ _ => apply wp_now
    | |- wp (emit_event _ _ _ _ _) _ _ => apply wp_emit
    | |- wp (lift _) _ _ => apply wp_lift
    | |- wp (save_artifact _ _ _) _ _ => unfold save_artifact
    | |- wp (files_read _ _) _ _ => apply wp_read; intros [?|?|] _
    | |- wp (files_write _ _ _) _ _ =>
        apply wp_write_keeps; [assumption | assumption | intros ? [?|?|] ?]
    | |- wp (match get "content" ?d with _ => _ end) _ _ => destruct (get "content" d)
    | |- wp (if ?b then _ else _) _ _ => destruct b
    | |- kept _ => assumption
    | |- get _ (repo _) = Some _ => assumption
    end.

Lemma handler_keeps_file (node : string) (w : world) :
  kept w -> wp (handler E rid node) (fun _ w' => kept w') w.
Proof.
  intros Hk. unfold kept in *. unfold handler.
  destruct (String.eqb node "planner"); [keep_go|].
  destruct (String.eqb node "py_fixer"); [keep_go|].
  destruct (String.eqb node "fe_fixer"); [keep_go|].
  destruct (String.eqb node "test_writer"); [keep_go|].
  destruct (String.eqb node "aggregator").
  { keep_go. destruct (collect_patches (events_of rid w)); keep_go. }
  destruct (String.eqb node "tester"); [keep_go|].
  destruct (String.eqb node "security"); [keep_go|].
  destruct (String.eqb node "release"); keep_go.
Qed.

Lemma run_node_keeps_file (node : string) (w : world) :
  kept w -> kept (fst (run_node E rid node w)).
Proof.
  intros Hk. destruct (get rid (runs w)) as [run|] eqn:Hrun.
  - rewrite (run_node_unfold E rid node _ Hrun).
    assert (kept (before_handler E rid node run w)) as Hb by exact Hk.
    pose proof (handler_keeps_file node Hb) as Hh. unfold wp in Hh.
    destruct (handler E rid node (before_handler E rid node run w)) as [w2 [res|e|]];
      exact Hh.
  - now rewrite (run_node_missing E rid node _ Hrun).
Qed.

Lemma loop_keeps_file (dag : list Edge) (fuel : nat) (st : sched) (w : world) :
  kept w -> kept (fst (loop E rid (build dag) fuel st w)).
Proof.
  intros H.
  assert (wp (loop E rid (build dag) fuel st)
             (fun r w' => match r with Ok _ => kept w' | _ => kept w' end) w) as L.
  { apply loop_inv with (Keeps := fun _ => kept) (May := fun _ _ => True);
      auto using join_keys_nodup.
    intros n c' w' Hw' _. split; [|intros _ _]; now apply run_node_keeps_file. }
  unfold wp in L. now destruct (snd (loop E rid (build dag) fuel st w)).
Qed.

Lemma set_status_keeps_file (s : string) (w : world) :
  kept w -> kept (fst (set_status rid s w)).
Proof. unfold set_status, modify. cbn [fst]. now destruct (get rid (runs w)). Qed.

Lemma execute_graph_keeps_file (fuel : nat) (w : world) :
  kept w -> kept (fst (execute_graph E fuel rid w)).
Proof.
  intros H. destruct (get rid (runs w)) as [run|] eqn:Hrun.
  2: { unfold execute_graph. now rewrite Hrun. }
  destruct (get (graph run) (graphs w)) as [g|] eqn:Hg.
  - rewrite (@execute_graph_unfold E rid fuel run g w Hrun Hg).
    assert (kept (started E rid g w)) as Hs
      by (unfold started; apply (set_status_keeps_file "running" H)).
    pose proof (loop_keeps_file (dag g) fuel (initial g) Hs) as Hl.
    destruct (loop E rid (build (dag g)) fuel (initial g) (started E rid g w))
      as [w' [st|e|]]; cbn [fst snd] in *;
      [apply (set_status_keeps_file "succeeded" Hl)
      |apply (set_status_keeps_file "failed" Hl) | exact Hl].
  - rewrite (@execute_graph_no_graph E rid fuel run w Hrun Hg).
    apply (set_status_keeps_file "failed" H).
Qed.

End Repository.


(** ** engine.py: the aggregator's choice *)

(** X22: the aggregator collects, in journal order, the [patch] entry
    of every [patch_created] event of [py_fixer] whose [success] entry
    is true; it raises [KeyError] exactly when one of these events has
    no [patch] entry. *)
Theorem collect_patches_spec (evs : list Event) :
  let successful e := String.eqb (step e) "py_fixer" && String.eqb (type e) "patch_created"
                      && truthy (get_default "success" PyNone (data e)) in
  match collect_patches evs with
  | Ok ps => map (fun e => get "patch" (data e)) (filter successful evs) = map Some ps
  | Raise x => x = KeyError "patch"
               /\ exists e, In e evs /\ successful e = true /\ get "patch" (data e) = None
  | Diverge => False
  end.
Proof.
  intros successful. induction evs as [|a evs IH]; cbn [collect_patches filter].
  - reflexivity.
  - fold (successful a). destruct (successful a) eqn:Ha.
    + destruct (get "patch" (data a)) as [p|] eqn:Hp.
      * destruct (collect_patches evs) as [ps|x|]; [| |contradiction].
        -- cbn [map]. now rewrite Hp, IH.
        -- destruct IH as (-> & e & He & Hs & Hn). split; [reflexivity|].
           exists e. auto with datatypes.
      * split; [reflexivity|]. exists a. auto with datatypes.
    + destruct (collect_patches evs) as [ps|x|]; [exact IH| |contradiction].
      destruct IH as (-> & e & He & Hs & Hn). split; [reflexivity|].
      exists e. auto with datatypes.
Qed.

(** ** context.py: what the bundle holds *)

(** X23: the scratchpad of a compiled context lists the last five events
    of the journal, or all of them when there are fewer, in journal
    order, each as its step, type and data. *)
Theorem scratchpad_is_last_five (evs : list Event) :
  exists older recent,
    evs = older ++ recent
    /\ List.length recent = Nat.min 5 (List.length evs)
    /\ Context.scratchpad evs
       = PyList (map (fun e => PyDict [("step", PyStr (step e)); ("type", PyStr (type e));
                                       ("data", PyDict (data e))]) recent).
Proof.
  unfold Context.scratchpad, last_n.
  destruct (5 <? List.length evs)%nat eqn:Hlen.
  - apply Nat.ltb_lt in Hlen.
    exists (firstn (List.length evs - 5) evs), (skipn (List.length evs - 5) evs).
    split; [now rewrite firstn_skipn|]. split; [|reflexivity].
    rewrite length_skipn. lia.
  - apply Nat.ltb_ge in Hlen. exists [], evs. repeat split. lia.
Qed.

Section ContextBundle.
Local Open Scope Z_scope.
Import Context.

Variables (root : list string) (fs : Files.filesystem) (run : Run).
Variables (step profile_name : string) (events : list Event).
Variable context_profiles : dict ContextProfile.

Let c := compile_context root fs run step profile_name events context_profiles.

(** X24: enforcing the budget never alters the scratchpad or the policy
    documents of the bundle.  The repository snippets are complete
    when [drops] is empty; when [drops] is not empty they are the empty
    mapping, with estimate 0, or the first [4 * token_estimate]
    characters of their text, which is longer. *)
Theorem budget_touches_repo_snippets_only :
  section "scratchpad" c = scratchpad events
  /\ section "policy_docs" c = policy_docs
  /\ (drops (ctx_manifest c) = [] -> section "repo_snippets" c = repo_snippets root fs)
  /\ (drops (ctx_manifest c) <> [] ->
      (drops (ctx_manifest c) = ["repo_snippets dropped entirely"]
       /\ section "repo_snippets" c = PyDict []
       /\ token_estimate "repo_snippets" (ctx_manifest c) = 0)
      \/ exists n, Z.of_nat n = 4 * token_estimate "repo_snippets" (ctx_manifest c)
                   /\ (n < String.length (py_str (repo_snippets root fs)))%nat
                   /\ section "repo_snippets" c
                      = PyStr (substring 0 n (py_str (repo_snippets root fs)))).
Proof.
  subst c. unfold compile_context.
  set (budget := budget_of profile_name context_profiles).
  set (sp_est := estimate (scratchpad events)).
  set (rs_est := estimate (repo_snippets root fs)).
  set (pd_est := estimate policy_docs).
  destruct (sp_est + rs_est + pd_est >? budget) eqn:Hover.
  2: { repeat split; auto. intros H. now contradiction H. }
  destruct (rs_est >? sp_est + rs_est + pd_est - budget) eqn:Htrim.
  2: { repeat split; [discriminate|]. intros _. left. repeat split. }
  destruct (len (py_str (repo_snippets root fs))
            >? (rs_est - (sp_est + rs_est + pd_est - budget)) * 4) eqn:Hcut.
  2: { repeat split; auto. intros H. now contradiction H. }
  repeat split; [discriminate|]. intros _. right.
  exists (Z.to_nat ((rs_est - (sp_est + rs_est + pd_est - budget)) * 4)).
  apply Z.gtb_lt in Htrim. apply Z.gtb_lt in Hcut. unfold len in Hcut.
  split; [|split; [lia | reflexivity]].
  change (token_estimate "repo_snippets" _)
    with (rs_est - (sp_est + rs_est + pd_est - budget)).
  rewrite Z2Nat.id; lia.
Qed.

End ContextBundle.

(** ** engine.py: what [run_completed] reports *)

Section CompletedNodes.
Variable E : env.
Variable rid : string.
Variable j0 : list Event.

Let Done (c : list string) (w : world) : Prop :=
  exists tr, events_of rid w = j0 ++ tr /\ forall n, In n c -> done_in tr n.

Lemma Done_mono (c c' : list string) (w : world) :
  (forall n, In n c' -> In n c) -> Done c w -> Done c' w.
Proof. intros Hc (tr & H1 & H2). exists tr. auto. Qed.

Lemma Done_run (n : string) (c : list string) (w : world) :
  Done c w ->
  Done c (fst (run_node E rid n w))
  /\ forall res, snd (run_node E rid n w) = Ok res -> Done (n :: c) (fst (run_node E rid n w)).
Proof.
  intros (tr & Hev & Hdone).
  destruct (get rid (runs w)) as [run|] eqn:Hrun.
  - destruct (run_node_trace E rid n _ Hrun) as (trn & Ht & Hevn & _).
    split.
    + exists (tr ++ trn). split; [now rewrite Hevn, Hev, app_assoc|].
      intros x Hx. apply done_in_app. auto.
    + intros res Hres. exists (tr ++ trn). split; [now rewrite Hevn, Hev, app_assoc|].
      intros x [<-|Hx].
      * rewrite Hres in Ht. apply node_trace_done in Ht.
        destruct Ht as (d & Hd & H). exists d. split; [apply in_or_app; now right | exact H].
      * apply done_in_app. auto.
  - rewrite (run_node_missing E rid n _ Hrun). cbn. split; [exists tr; auto | discriminate].
Qed.

Lemma Done_loop (dag : list Edge) (fuel : nat) (st : sched) (w : world) :
  Done (completed st) w ->
  wp (loop E rid (build dag) fuel st)
     (fun r w' => match r with Ok st' => Done (completed st') w' | _ => Done [] w' end) w.
Proof.
  intros H.
  apply loop_inv with (Keeps := Done) (May := fun _ _ => True).
  - exact Done_mono.
  - auto.
  - auto.
  - auto.
  - intros n c w' Hw' _. now apply Done_run.
  - apply join_keys_nodup.
  - exact H.
  - auto.
Qed.

End CompletedNodes.

(** X25: when [execute_graph] returns, the last event of the journal is
    [run_completed], and every node its [completed_nodes] lists has a
    [node_done] event among the events this execution appended before
    it. *)
Theorem completed_nodes_are_done (E : env) (rid : string) (fuel : nat) (run : Run)
        (g : Graph) (w : world) :
  get rid (runs w) = Some run -> get (graph run) (graphs w) = Some g ->
  snd (execute_graph E fuel rid w) = Ok tt ->
  exists tr nodes f,
    events_of rid (fst (execute_graph E fuel rid w)) = events_of rid w ++ tr ++ [f]
    /\ is_event rid "system" "run_completed" f
    /\ data f = [("completed_nodes", PyList (map PyStr nodes))]
    /\ forall n, In n nodes -> done_in tr n.
Proof.
  intros Hrun Hg. rewrite (@execute_graph_unfold E rid fuel run g w Hrun Hg).
  assert (exists tr, events_of rid (started E rid g w) = events_of rid w ++ tr
                     /\ forall n, In n (completed (initial g)) -> done_in tr n) as H0.
  { eexists. unfold started. rewrite events_of_emitted, events_of_set_status.
    split; [reflexivity | intros n []]. }
  pose proof (@Done_loop E rid (events_of rid w) (dag g) fuel (initial g) _ H0) as L.
  unfold wp in L.
  destruct (loop E rid (build (dag g)) fuel (initial g) (started E rid g w))
    as [w1 [st|e|]]; cbn [fst snd] in *; try discriminate.
  intros _. destruct L as (tr & Hev & Hdone).
  eexists tr, (completed st), _.
  rewrite events_of_emitted, events_of_set_status, Hev, <- app_assoc.
  split; [reflexivity|]. repeat split. exact Hdone.
Qed.

(** ** routing.py, tools/tests.py: as the nodes use them *)

(** X26: a larger context never gets the smaller model: when
    [choose_model] picks [gpt-4.1] for a step, it picks it for the same
    step with any larger token count. *)
Theorem choose_model_monotone (tokens tokens' : Z) (step : string) :
  (tokens <= tokens')%Z ->
  get "model" (Routing.choose_model tokens step) = Some (PyStr "gpt-4.1") ->
  get "model" (Routing.choose_model tokens' step) = Some (PyStr "gpt-4.1").
Proof.
  intros Hle. unfold Routing.choose_model.
  destruct (existsb (String.eqb step) ["aggregator"; "react"]);
    rewrite ?orb_true_r, ?orb_false_r; [reflexivity|].
  destruct (tokens >? 60000)%Z eqn:H1; [|discriminate].
  destruct (tokens' >? 60000)%Z eqn:H2; [reflexivity|].
  apply Z.gtb_lt in H1. rewrite Z.gtb_ltb in H2. apply Z.ltb_ge in H2. lia.
Qed.

(** X27: the [tester] node reports the verdict of pytest: its event is
    [tests_passed] when pytest passed on the repository as it stands
    and [tests_failed] otherwise, and it carries the result of
    [tests.run], which [run_node] returns. *)
Theorem tester_reports_pytest (E : env) (rid : string) (run : Run) (w : world) :
  get rid (runs w) = Some run ->
  let w' := fst (run_node E rid "tester" w) in
  let verdict := fst (pytest E (repo w)) in
  snd (run_node E rid "tester" w) = Ok (Tests.run E (repo w))
  /\ get "passed" (Tests.run E (repo w)) = Some (PyBool verdict)
  /\ exists c h d,
       events_of rid w' = events_of rid w ++ [c; h; d]
       /\ is_event rid "tester" "context_compiled" c
       /\ is_event rid "tester" (if verdict then "tests_passed" else "tests_failed") h
       /\ data h = Tests.run E (repo w)
       /\ is_event rid "tester" "node_done" d.
Proof.
  intros Hrun w' verdict. subst w' verdict.
  rewrite (run_node_unfold E rid "tester" _ Hrun).
  unfold handler. cbn [String.eqb Ascii.eqb Bool.eqb]. unfold bind, get_world.
  change (repo (before_handler E rid "tester" run w)) with (repo w).
  unfold Tests.run. destruct (pytest E (repo w)) as [passed output].
  destruct passed; cbn [truthy get_default get String.eqb Ascii.eqb Bool.eqb fst snd];
    rewrite !emit_event_run; cbn [fst snd ret];
    (split; [reflexivity|]); (split; [reflexivity|]);
    eexists _, _, _; rewrite !events_of_emitted; unfold before_handler;
    rewrite events_of_emitted, <- !app_assoc; (split; [reflexivity|]); repeat split.
Qed.

(** ** engine.py: the sequential step of the scheduler *)

Section SequentialStep.
Variable E : env.
Variable rid : string.
Variable dag : list Edge.

Let t := build dag.

Lemma adj_lists_outgoing (n : string) :
  get_default n [] (adj t) = filter (fun e => String.eqb (from_node e) n) dag.
Proof.
  subst t. unfold build.
  assert (forall l t0, get_default n [] (adj (fold_left add_edge l t0))
                       = get_default n [] (adj t0)
                         ++ filter (fun e => String.eqb (from_node e) n) l) as H.
  { induction l as [|e l IH]; intros t0; cbn [fold_left filter]; [now rewrite app_nil_r|].
    rewrite IH. unfold add_edge at 1; cbn [adj]. rewrite get_default_set.
    rewrite (String.eqb_sym n (from_node e)).
    destruct (String.eqb (from_node e) n) eqn:Hn; [|reflexivity].
    apply String.eqb_eq in Hn. subst n. now rewrite <- app_assoc. }
  now rewrite H.
Qed.

Lemma in_adj (n : string) (e : Edge) :
  In e (get_default n [] (adj t)) <-> In e dag /\ from_node e = n.
Proof.
  rewrite adj_lists_outgoing, filter_In, String.eqb_eq. tauto.
Qed.

Section OneNode.
Variables (evs : list Event) (node : string) (comp : list string).

Let open (e : Edge) : Prop := gate_open evs node e.

Lemma gate_test (e : Edge) :
  match on e with [] => false | _ => negb (matches evs node e) end = false <-> open e.
Proof.
  subst open. unfold gate_open. rewrite <- matches_spec.
  destruct (on e) as [|ty tys]; [intuition|].
  destruct (matches evs node e); cbn; intuition discriminate.
Qed.

Lemma process_edge_keeps (rdy : list string) (e : Edge) (x : string) :
  In x rdy -> In x (process_edge t evs node comp rdy e).
Proof.
  intros Hx. unfold process_edge.
  destruct (match on e with [] => false | _ => negb (matches evs node e) end); [exact Hx|].
  destruct (get (to_node e) (join_groups t));
    destruct (_ && _); auto using in_or_app.
Qed.

Lemma process_edge_new (rdy : list string) (e : Edge) (x : string) :
  In x (process_edge t evs node comp rdy e) -> In x rdy \/ (x = to_node e /\ open e).
Proof.
  unfold process_edge.
  destruct (match on e with [] => false | _ => negb (matches evs node e) end) eqn:Hg;
    [auto|].
  apply gate_test in Hg.
  destruct (get (to_node e) (join_groups t));
    destruct (_ && _); auto;
    intros Hx; apply in_app_or in Hx as [Hx|[<-|[]]]; auto.
Qed.

Lemma process_edge_adds (rdy : list string) (e : Edge) :
  ~ In (to_node e) comp ->
  (forall sources, get (to_node e) (join_groups t) = Some sources ->
                   forall s, In s sources -> In s comp) ->
  open e -> In (to_node e) (process_edge t evs node comp rdy e).
Proof.
  intros Hc Hj Hg. apply gate_test in Hg. unfold process_edge. rewrite Hg.
  apply inb_not_In in Hc.
  destruct (inb (to_node e) rdy) eqn:Hr.
  - apply inb_In in Hr.
    destruct (get (to_node e) (join_groups t)); destruct (_ && _); auto using in_or_app.
  - destruct (get (to_node e) (join_groups t)) as [sources|] eqn:Hs.
    + assert (all_in sources comp = true) as -> by (apply all_in_spec; eauto).
      rewrite Hc. cbn. apply in_or_app. right. now left.
    + rewrite Hc. cbn. apply in_or_app. right. now left.
Qed.

Lemma process_edges_spec (c : string) :
  ~ In c comp ->
  (forall sources, get c (join_groups t) = Some sources ->
                   forall s, In s sources -> In s comp) ->
  forall edges rdy,
    In c (fold_left (process_edge t evs node comp) edges rdy)
    <-> In c rdy \/ exists e, In e edges /\ to_node e = c /\ open e.
Proof.
  intros Hc Hj. induction edges as [|e edges IH]; intros rdy; cbn [fold_left].
  - split; [auto | intros [H|(e & [] & _)]; exact H].
  - rewrite IH. split.
    + intros [H|(e' & He' & Hto & Hg)].
      * apply process_edge_new in H as [H|[-> Hg]]; [auto|].
        right. exists e. auto with datatypes.
      * right. exists e'. auto with datatypes.
    + intros [H|(e' & [<-|He'] & Hto & Hg)].
      * left. now apply process_edge_keeps.
      * left. subst c. now apply process_edge_adds.
      * right. eauto.
Qed.

End OneNode.

(** A pass whose first ready node is not a fan-out runs that node, if
    it is not completed, and then walks its outgoing edges. *)
Lemma iteration_sequential (st : sched) (w : world) (node : string) (rest : list string) :
  ready st = node :: rest -> node <> "" ->
  is_fanout (get_default node [] (adj t)) = false ->
  iteration E rid t st w
  = match run_once E rid node st w with
    | (w', Ok st2) =>
        (w', Ok (with_ready
                   (fold_left (process_edge t (events_of rid w') node (completed st2))
                              (get_default node [] (adj t)) rest) st2, true))
    | (w', Raise e) => (w', Raise e)
    | (w', Diverge) => (w', Diverge)
    end.
Proof.
  intros Hr Hn Hf. apply String.eqb_neq in Hn.
  assert (forall st2, snd (run_once E rid node st w) = Ok st2 -> ready st2 = ready st)
    as Hready.
  { intros st2. unfold run_once, bind, ret.
    destruct (inb node (completed st)); [now intros [= <-]|].
    destruct (run_node E rid node w) as [w1 [res|e|]]; cbn [snd]; try discriminate.
    now intros [= <-]. }
  unfold iteration. rewrite Hr. cbn [scan]. rewrite Hf.
  unfold bind at 1. unfold ret at 1. cbn iota beta. rewrite Hn.
  unfold bind, get_world, ret.
  destruct (run_once E rid node st w) as [w' [st2|e|]] eqn:Hrun; [|reflexivity..].
  rewrite (Hready st2 eq_refl), Hr.
  cbn [remove_first]. now rewrite String.eqb_refl.
Qed.

Lemma run_once_completed (node : string) (st st2 : sched) (w w' : world) :
  run_once E rid node st w = (w', Ok st2) -> completed st2 = add node (completed st).
Proof.
  unfold run_once, bind, ret, add.
  destruct (inb node (completed st)) eqn:Hin; [now intros [= _ <-]|].
  destruct (run_node E rid node w) as [w1 [res|e|]]; try discriminate.
  intros [= _ <-]. cbn [completed complete]. unfold add. now rewrite Hin.
Qed.

(** C4 (as amended): take a pass of the loop of [execute_graph] in which
    the first ready node [node] is not a fan-out, so that the pass is a
    sequential step on [node], and which comes back.  Let [child] be a
    node that is not among the other ready nodes, is not completed after
    [node] has run and has its join sources, if any, all completed.
    Then [child] is on [ready] after the pass exactly when some edge of
    the graph from [node] to [child] has its gate open on the journal of
    the run as [node] leaves it.  In particular, for an edge with a
    non-empty [on] that is the only edge from its [from_node] to its
    child, the child is on [ready] after the pass exactly when the
    journal holds an event whose step is the edge's [from_node] and
    whose type is in [on]. *)
Theorem gated_edge_enqueues_iff (st st' : sched) (w w' : world) (again : bool)
        (node child : string) (rest : list string) :
  ready st = node :: rest -> node <> "" ->
  is_fanout (get_default node [] (adj (build dag))) = false ->
  iteration E rid (build dag) st w = (w', Ok (st', again)) ->
  ~ In child rest -> ~ In child (completed st') ->
  (forall sources, get child (join_groups (build dag)) = Some sources ->
                   forall s, In s sources -> In s (completed st')) ->
  again = true
  /\ completed st' = add node (completed st)
  /\ (In child (ready st')
      <-> exists e, In e dag /\ from_node e = node /\ to_node e = child
                    /\ gate_open (events_of rid w') node e)
  /\ forall edge,
       In edge dag -> from_node edge = node -> to_node edge = child -> on edge <> [] ->
       (forall e, In e dag -> from_node e = node -> to_node e = child -> e = edge) ->
       (In child (ready st')
        <-> exists ev, In ev (events_of rid w') /\ step ev = from_node edge
                       /\ In (type ev) (on edge)).
Proof.
  intros Hr Hn Hf Hit Hrest Hcomp Hjoin. fold t in Hf, Hit, Hjoin.
  rewrite (iteration_sequential st w Hr Hn Hf) in Hit.
  destruct (run_once E rid node st w) as [w1 [st2|e|]] eqn:Hrun; try discriminate.
  injection Hit as <- <- <-. cbn [ready completed with_ready] in *.
  assert (In child (fold_left (process_edge t (events_of rid w1) node (completed st2))
                              (get_default node [] (adj t)) rest)
          <-> exists e, In e dag /\ from_node e = node /\ to_node e = child
                        /\ gate_open (events_of rid w1) node e) as Hiff.
  { rewrite (@process_edges_spec (events_of rid w1) node (completed st2) child Hcomp Hjoin).
    split.
    - intros [H|(e & He & Hto & Hg)]; [contradiction|].
      apply in_adj in He as [He Hfrom]. eauto.
    - intros (e & He & Hfrom & Hto & Hg). right. exists e.
      split; [now apply in_adj | auto]. }
  split; [reflexivity|]. split; [exact (@run_once_completed node st st2 w w1 Hrun)|].
  split; [exact Hiff|].
  intros edge He Hfrom Hto Hon Honly. rewrite Hiff, Hfrom. split.
  - intros (e & He' & Hf' & Ht' & Hg). rewrite (Honly e He' Hf' Ht') in Hg.
    destruct Hg as [Hg|Hg]; [contradiction | exact Hg].
  - intros Hev. exists edge. repeat split; auto. now right.
Qed.

(** C10 (as amended): [scan_repo] is the constant ok result with no
    issues, so an invocation of the security node always returns,
    having appended [context_compiled], [security_ok] and [node_done]
    and no [security_failed], and the gate test of every edge out of
    security that lists [security_ok] is then true.  When the scheduler
    runs security in a sequential step (security is the first ready
    node, not yet completed, and its first outgoing edge is not marked
    parallel), the pass comes back, and it has put on [ready] the child
    of every edge of the graph out of security that lists
    [security_ok], provided the child is not completed and its join
    sources, if any, are all completed. *)
Theorem security_always_ok (run : Run) (w : world) :
  get rid (runs w) = Some run ->
  let w' := fst (run_node E rid "security" w) in
  Security.scan_repo = [("ok", PyBool true); ("issues", PyList [])]
  /\ snd (run_node E rid "security" w) = Ok Security.scan_repo
  /\ (exists c h d,
        events_of rid w' = events_of rid w ++ [c; h; d]
        /\ is_event rid "security" "context_compiled" c
        /\ is_event rid "security" "security_ok" h
        /\ is_event rid "security" "node_done" d)
  /\ (forall edge, In "security_ok" (on edge) ->
        matches (events_of rid w') "security" edge = true)
  /\ forall st rest,
       ready st = "security" :: rest ->
       ~ In "security" (completed st) ->
       is_fanout (get_default "security" [] (adj (build dag))) = false ->
       exists st',
         iteration E rid (build dag) st w = (w', Ok (st', true))
         /\ completed st' = completed st ++ ["security"]
         /\ forall edge,
              In edge dag -> from_node edge = "security" -> In "security_ok" (on edge) ->
              ~ In (to_node edge) (completed st') ->
              (forall sources, get (to_node edge) (join_groups (build dag)) = Some sources ->
                               forall s, In s sources -> In s (completed st')) ->
              In (to_node edge) (ready st').
Proof.
  intros Hrun w'.
  destruct (@security_node_ok E rid run w Hrun) as (H1 & H2 & H3 & H4 & _).
  split; [exact H1|]. split; [exact H2|]. split; [exact H3|]. split; [exact H4|].
  intros st rest Hr Hnot Hf. fold t in Hf. fold t.
  assert ("security" <> "") as Hn by discriminate.
  pose proof (iteration_sequential st w Hr Hn Hf) as Hit.
  assert (run_once E rid "security" st w
          = (w', Ok (complete "security" Security.scan_repo st))) as Hrun1.
  { unfold run_once, bind, ret. apply inb_not_In in Hnot. rewrite Hnot.
    subst w'. destruct (run_node E rid "security" w) as [w1 [res|e|]];
      cbn [fst snd] in *; congruence. }
  rewrite Hrun1 in Hit. eexists. split; [exact Hit|].
  cbn [completed ready with_ready complete].
  assert (add "security" (completed st) = completed st ++ ["security"]) as Hadd
    by (unfold add; apply inb_not_In in Hnot; now rewrite Hnot).
  split; [exact Hadd|].
  intros edge He Hfrom Hon Hc Hj.
  apply (@process_edges_spec (events_of rid w') "security" _ (to_node edge) Hc Hj). right.
  exists edge. split; [now apply in_adj|]. split; [reflexivity|].
  right. apply matches_spec. now apply H4.
Qed.

End SequentialStep.

(** ** The further properties on concrete inputs *)

Section Instances.
Import Demo.

Ltac differ := apply String.eqb_neq; vm_compute; reflexivity.

Ltac none_is_dotdot :=
  let c := fresh "c" in
  let Hc := fresh "Hc" in
  intros c Hc; vm_compute in Hc;
  repeat (destruct Hc as [<-|Hc]; [discriminate|]); destruct Hc.

Lemma full_path_has_no_dotdot_witness :
  In "app.py" (Files.full_path (SAFE_ROOT env0) "tests/../app.py") /\ "app.py" <> "..".
Proof.
  assert (In "app.py" (Files.full_path (SAFE_ROOT env0) "tests/../app.py")) as H
    by (vm_compute; auto 10).
  split; [exact H|].
  exact (@full_path_has_no_dotdot (SAFE_ROOT env0) "tests/../app.py" "app.py" H).
Defined.

Lemma guard_accepts_inside_witness :
  Files.inside (SAFE_ROOT env0) "app.py" = true
  /\ Files.read (SAFE_ROOT env0) sample_repo "app.py"
     <> Raise (ValueError ("path " +s+ "app.py" +s+ " escapes safe root"))
  /\ snd (Files.write (SAFE_ROOT env0) sample_repo "app.py" "x = 1")
     <> Raise (ValueError ("path " +s+ "app.py" +s+ " escapes safe root")).
Proof.
  apply (@guard_accepts_inside (SAFE_ROOT env0) sample_repo "app.py" "x = 1"). reflexivity.
Defined.

Lemma plain_relative_path_accepted_witness :
  Files.full_path (SAFE_ROOT env0) "tests/test_app.py"
  = SAFE_ROOT env0 ++ Files.parts "tests/test_app.py"
  /\ Files.inside (SAFE_ROOT env0) "tests/test_app.py" = true
  /\ Files.read (SAFE_ROOT env0) sample_repo "tests/test_app.py"
     <> Raise (ValueError ("path " +s+ "tests/test_app.py" +s+ " escapes safe root"))
  /\ snd (Files.write (SAFE_ROOT env0) sample_repo "tests/test_app.py" "x = 1")
     <> Raise (ValueError ("path " +s+ "tests/test_app.py" +s+ " escapes safe root")).
Proof.
  apply (@plain_relative_path_accepted (SAFE_ROOT env0) sample_repo "tests/test_app.py"
           "x = 1").
  - none_is_dotdot.
  - reflexivity.
  - none_is_dotdot.
  - reflexivity.
Defined.

Lemma write_then_read_witness :
  [("ok", PyBool true); ("path", PyStr "app.py"); ("bytes", PyInt 5)]
  = [("ok", PyBool true); ("path", PyStr "app.py"); ("bytes", PyInt (len "x = 1"))]
  /\ Files.read (SAFE_ROOT env0)
                (fst (Files.write (SAFE_ROOT env0) sample_repo "app.py" "x = 1")) "app.py"
     = Ok [("content", PyStr (Files.universal_newlines "x = 1")); ("path", PyStr "app.py")]
  /\ (has_char Files.cr "x = 1" = false ->
      Files.read (SAFE_ROOT env0)
                 (fst (Files.write (SAFE_ROOT env0) sample_repo "app.py" "x = 1")) "app.py"
      = Ok [("content", PyStr "x = 1"); ("path", PyStr "app.py")]).
Proof.
  apply (@write_then_read (SAFE_ROOT env0) sample_repo "app.py" "x = 1").
  - intros k Hk. unfold sample_repo. cbn [get].
    destruct (String.eqb k app_py) eqn:H1.
    { apply String.eqb_eq in H1. subst k. vm_compute in Hk. discriminate Hk. }
    destruct (String.eqb k test_app_py) eqn:H2; [|reflexivity].
    apply String.eqb_eq in H2. subst k. vm_compute in Hk. discriminate Hk.
  - reflexivity.
  - reflexivity.
Defined.

Lemma write_keeps_other_files_witness :
  exists c,
    get test_app_py (fst (Files.write (SAFE_ROOT env0) sample_repo "app.py" "x = 1"))
    = Some (Files.File c).
Proof.
  eexists.
  apply (@write_keeps_other_files (SAFE_ROOT env0) sample_repo "app.py" "x = 1" test_app_py).
  - differ.
  - reflexivity.
Defined.

Lemma journal_file_follows_journal_witness :
  let w' := fst (execute_graph env0 20 "run-1" (world_on sample_repo)) in
  (exists tr, events_of "run-1" w' = events_of "run-1" (world_on sample_repo) ++ tr
              /\ disk_of "run-1" w' = disk_of "run-1" (world_on sample_repo) ++ tr)
  /\ forall r, plain_id r = true -> r <> "run-1" ->
                get r (journal_files w') = get r (journal_files (world_on sample_repo)).
Proof.
  apply (@journal_file_follows_journal env0 "run-1" 20 (world_on sample_repo)). reflexivity.
Defined.

Lemma status_follows_outcome_witness :
  let w' := fst (execute_graph env0 20 "run-1" (world_on sample_repo)) in
  match snd (execute_graph env0 20 "run-1" (world_on sample_repo)) with
  | Ok _ => runs w' = set "run-1" (with_status "succeeded" run1) (runs (world_on sample_repo))
  | Raise _ => runs w' = set "run-1" (with_status "failed" run1) (runs (world_on sample_repo))
  | Diverge => True
  end.
Proof.
  apply (@status_follows_outcome env0 "run-1" 20 run1 (world_on sample_repo)). reflexivity.
Defined.

Lemma journal_is_bracketed_witness :
  let w' := fst (execute_graph env0 20 "run-1" (world_on sample_repo)) in
  match snd (execute_graph env0 20 "run-1" (world_on sample_repo)) with
  | Ok _ =>
      exists s tr f,
        events_of "run-1" w' = events_of "run-1" (world_on sample_repo) ++ s :: tr ++ [f]
        /\ is_event "run-1" "system" "run_started" s
        /\ data s = [("graph", PyStr (g_name App.default_graph))]
        /\ is_event "run-1" "system" "run_completed" f
  | Raise e =>
      exists s tr f,
        events_of "run-1" w' = events_of "run-1" (world_on sample_repo) ++ s :: tr ++ [f]
        /\ is_event "run-1" "system" "run_started" s
        /\ data s = [("graph", PyStr (g_name App.default_graph))]
        /\ is_event "run-1" "system" "run_failed" f
        /\ exists msg, data f = [("error", PyStr msg)]
  | Diverge => True
  end.
Proof.
  apply (@journal_is_bracketed env0 "run-1" 20 run1 App.default_graph (world_on sample_repo));
    reflexivity.
Defined.


Lemma replay_prefix_stays_in_memory_witness :
  let child := replay_id "run-1" "tester" in
  let w' := fst (replay_from env0 20 "run-1" "tester" parent_done) in
  (exists tr, events_of child w'
              = prefix_until "tester" (events_of "run-1" parent_done) ++ tr
              /\ disk_of child w' = disk_of child parent_done ++ tr)
  /\ forall r, plain_id r = true -> r <> child ->
                get r (journal_files w') = get r (journal_files parent_done).
Proof.
  apply (@replay_prefix_stays_in_memory env0 20 "run-1" "tester"
           {| id := "run-1"; graph := "git-to-prod-multi"; inputs := PyDict [];
              status := "succeeded"; created_at := "t"; parent_run := None |}
           parent_done).
  - reflexivity.
  - reflexivity.
Defined.

Lemma replay_child_record_witness :
  let run := {| id := "run-1"; graph := "git-to-prod-multi"; inputs := PyDict [];
                status := "succeeded"; created_at := "t"; parent_run := None |} in
  let child := replay_id "run-1" "tester" in
  let w' := fst (replay_from env0 20 "run-1" "tester" parent_done) in
  let record s := {| id := child; graph := graph run; inputs := inputs run; status := s;
                     created_at := utcnow env0 (clock parent_done);
                     parent_run := Some "run-1" |} in
  match snd (replay_from env0 20 "run-1" "tester" parent_done) with
  | Ok new_run_id => new_run_id = child /\ get child (runs w') = Some (record "succeeded")
  | Raise _ => get child (runs w') = Some (record "failed")
  | Diverge => True
  end
  /\ get "run-1" (runs w') = Some run.
Proof.
  intros run.
  apply (@replay_child_record env0 20 "run-1" "tester" run parent_done). reflexivity.
Defined.

Lemma replay_of_unknown_run_witness :
  replay_from env0 20 "run-9" "tester" (App.startup sample_repo)
  = (App.startup sample_repo, Raise (KeyError "run-9")).
Proof.
  apply (@replay_of_unknown_run env0 20 "run-9" "tester" (App.startup sample_repo)).
  reflexivity.
Defined.



Lemma completed_nodes_are_done_witness :
  exists tr nodes f,
    events_of "run-1" (fst (execute_graph env0 20 "run-1" (world_on sample_repo)))
    = events_of "run-1" (world_on sample_repo) ++ tr ++ [f]
    /\ is_event "run-1" "system" "run_completed" f
    /\ data f = [("completed_nodes", PyList (map PyStr nodes))]
    /\ forall n, In n nodes -> done_in tr n.
Proof.
  apply (@completed_nodes_are_done env0 "run-1" 20 run1 App.default_graph
           (world_on sample_repo)).
  - reflexivity.
  - reflexivity.
  - vm_compute. reflexivity.
Defined.

Lemma choose_model_monotone_witness :
  get "model" (Routing.choose_model 80000 "planner") = Some (PyStr "gpt-4.1").
Proof.
  apply (@choose_model_monotone 70000 80000 "planner"); [lia | reflexivity].
Defined.

Lemma tester_reports_pytest_witness :
  let w := world_on sample_repo in
  let w' := fst (run_node env0 "run-1" "tester" w) in
  let verdict := fst (pytest env0 (repo w)) in
  snd (run_node env0 "run-1" "tester" w) = Ok (Tests.run env0 (repo w))
  /\ get "passed" (Tests.run env0 (repo w)) = Some (PyBool verdict)
  /\ exists c h d,
       events_of "run-1" w' = events_of "run-1" w ++ [c; h; d]
       /\ is_event "run-1" "tester" "context_compiled" c
       /\ is_event "run-1" "tester" (if verdict then "tests_passed" else "tests_failed") h
       /\ data h = Tests.run env0 (repo w)
       /\ is_event "run-1" "tester" "node_done" d.
Proof.
  apply (@tester_reports_pytest env0 "run-1" run1 (world_on sample_repo)). reflexivity.
Defined.

(** The scheduler on the default graph, two passes into the run of the
    sample repository: [tester] is the one ready node, and the pass that
    runs it puts [security] on [ready], the journal holding
    [tests_passed] of [tester]. *)
Lemma gated_edge_enqueues_iff_witness :
  let g := App.default_graph in
  let t := build (dag g) in
  let start := started env0 "run-1" g (world_on sample_repo) in
  let st' := fst (after_passes env0 "run-1" t 3 (initial g) start) in
  let w' := snd (after_passes env0 "run-1" t 3 (initial g) start) in
  In "security" (ready st')
  <-> exists ev, In ev (events_of "run-1" w') /\ step ev = "tester"
                 /\ In (type ev) ["tests_passed"].
Proof.
  intros g t start st' w'.
  pose (st := fst (after_passes env0 "run-1" t 2 (initial g) start)).
  pose (w := snd (after_passes env0 "run-1" t 2 (initial g) start)).
  assert (ready st = "tester" :: []) as H1 by (vm_compute; reflexivity).
  assert ("tester" <> "") as H2 by discriminate.
  assert (is_fanout (get_default "tester" [] (adj (build (dag g)))) = false) as H3
    by reflexivity.
  assert (iteration env0 "run-1" (build (dag g)) st w = (w', Ok (st', true))) as H4
    by (vm_compute; reflexivity).
  assert (~ In "security" []) as H5 by (intros []).
  assert (~ In "security" (completed st')) as H6
    by (vm_compute; intros H; repeat (destruct H as [H|H]; [discriminate H|]); exact H).
  assert (forall sources, get "security" (join_groups (build (dag g))) = Some sources ->
                          forall s, In s sources -> In s (completed st')) as H7
    by (intros sources H; vm_compute in H; discriminate H).
  destruct (@gated_edge_enqueues_iff env0 "run-1" (dag g) st st' w w' true
              "tester" "security" [] H1 H2 H3 H4 H5 H6 H7) as (_ & _ & _ & H).
  apply (H (App.mk_edge "tester" "security" ["tests_passed"] false None)).
  - cbn. auto 10.
  - reflexivity.
  - reflexivity.
  - discriminate.
  - intros e He Hfrom Hto. cbn in He.
    repeat (destruct He as [<-|He];
            [try discriminate Hfrom; try discriminate Hto; reflexivity|]).
    destruct He.
Defined.

(** In the sequential step a gate that no event satisfies keeps the
    child off: [fe_fixer] is never dispatched. *)
Example closed_gate_blocks_child :
  brief (events_of "run-1" (fst (execute_graph env0 20 "run-1" (world_with closed_gate))))
  = [("system", "run_started");
     ("planner", "context_compiled"); ("planner", "plan_ready"); ("planner", "node_done");
     ("system", "run_completed")].
Proof. vm_compute. reflexivity. Qed.

(** The scheduler on the default graph, three passes into the run of
    the sample repository: [security] is the one ready node; the pass
    that runs it comes back and puts [release] on [ready]. *)
Lemma security_always_ok_witness :
  let g := App.default_graph in
  let t := build (dag g) in
  let start := started env0 "run-1" g (world_on sample_repo) in
  let st := fst (after_passes env0 "run-1" t 3 (initial g) start) in
  let w := snd (after_passes env0 "run-1" t 3 (initial g) start) in
  snd (run_node env0 "run-1" "security" w) = Ok Security.scan_repo
  /\ exists st',
       iteration env0 "run-1" t st w
       = (fst (run_node env0 "run-1" "security" w), Ok (st', true))
       /\ In "release" (ready st').
Proof.
  intros g t start st w.
  assert (get "run-1" (runs w) = Some (with_status "running" run1)) as Hrun
    by (vm_compute; reflexivity).
  destruct (@security_always_ok env0 "run-1" (dag g) (with_status "running" run1) w Hrun)
    as (_ & Hres & _ & _ & Hstep).
  split; [exact Hres|].
  destruct (Hstep st []) as (st' & Hit & Hcomp & Hedges).
  - vm_compute. reflexivity.
  - vm_compute. intros H. repeat (destruct H as [H|H]; [discriminate H|]). exact H.
  - reflexivity.
  - exists st'. split; [exact Hit|].
    apply (Hedges (App.mk_edge "security" "release" ["security_ok"] false None)).
    + cbn. auto 10.
    + reflexivity.
    + cbn. auto.
    + rewrite Hcomp. vm_compute. intros H.
      repeat (destruct H as [H|H]; [discriminate H|]). exact H.
    + intros sources H. vm_compute in H. discriminate H.
Defined.

(** C10, as stated, fails: with [security] the child of a fan-out, the
    node runs and emits [security_ok], the gate test of the edge to
    [release] is true on the journal, and the run ends without
    [release] ever being dispatched: the edges that leave a child of a
    fan-out are not examined. *)
Lemma security_gate_skipped_counterexample :
  let out := execute_graph env0 20 "run-1" (world_with fanout_into_security) in
  let journal := events_of "run-1" (fst out) in
  snd out = Ok tt
  /\ matches journal "security"
             (App.mk_edge "security" "release" ["security_ok"] false None) = true
  /\ brief journal
     = [("system", "run_started");
        ("planner", "context_compiled"); ("planner", "plan_ready"); ("planner", "node_done");
        ("security", "context_compiled"); ("security", "security_ok");
        ("security", "node_done");
        ("system", "run_completed")].
Proof. vm_compute. repeat split; reflexivity. Qed.

End Instances.
